(** * Realtime Memory Allocation Tracker: frame pool and paging engine

    A shallow embedding of the core classes of [app.py] ([Frame],
    [MemoryManager], [Pager]) and of the two socket handlers that drive
    them ([on_apply_config], [on_deallocate]), followed by the properties
    of the frame pool and the replacement engine.

    Python objects are mutated in place and exceptions leave the mutations
    done so far; the embedding threads the object through a small state
    monad whose failures carry the state reached when the exception was
    raised. *)

From Stdlib Require Import ZArith Lia.
From stdpp Require Import gmap strings list fin_maps fin_sets pretty sorting.

#[local] Set Warnings "-clear-no-such-hyp".
Local Open Scope Z_scope.
Local Open Scope string_scope.

(** ** State and exceptions *)

Inductive exn := ZeroDivisionError | IndexError | KeyError | ValueError.

Inductive result (S A : Type) :=
  | Ok (a : A) (s : S)
  | Raise (e : exn) (s : S).
Arguments Ok {S A} a s.
Arguments Raise {S A} e s.

Definition state_of {S A} (r : result S A) : S :=
  match r with Ok _ s => s | Raise _ s => s end.

Definition M (S A : Type) : Type := S → result S A.

Global Instance M_ret {S} : MRet (M S) := λ A a s, Ok a s.
Global Instance M_bind {S} : MBind (M S) := λ A B k c s,
  match c s with
  | Ok a s' => k a s'
  | Raise e s' => Raise e s'
  end.
Definition raise {S A} (e : exn) : M S A := λ s, Raise e s.
Definition get {S} : M S S := λ s, Ok s s.
Definition modify {S} (f : S → S) : M S unit := λ s, Ok tt (f s).

(** [for x in l: body x] *)
Fixpoint for_each {S A} (l : list A) (body : A → M S unit) : M S unit :=
  match l with
  | [] => mret tt
  | x :: l' => body x ;; for_each l' body
  end.

(** ** Data model *)

(** [class Frame]: [idx], [pid] and [label]; [None] is Python's [None]. *)
Record Frame := mkFrame {
  idx : nat;
  pid : option string;
  label : option string
}.

Definition is_free (f : Frame) : bool :=
  match pid f with None => true | Some _ => false end.

(** [class MemoryManager]. [free_frames] is a Python set of frame indices,
    [pid_to_frames] a dict from process id to a set of frame indices. *)
Record MemoryManager := mkMem {
  total_kb : Z;
  frame_kb : Z;
  frames : list Frame;
  free_frames : gset nat;
  pid_to_frames : gmap string (gset nat);
  page_faults : nat;
  allocations : nat;
  deallocations : nat
}.

(** [class Pager], without its [mem] field: the pager holds a reference to
    the shared [MemoryManager], which lives next to it in [Sim].
    [page_tables] maps a process id to a dict from page number to a frame
    index or [None]. [fifo] is the deque of frame indices. [lru] is the
    [OrderedDict] keyed by [(pid, page)], kept as the list of its keys in
    dictionary order; the time stamps stored as values are never read. *)
Record Pager := mkPager {
  algorithm : string;
  page_tables : gmap string (gmap Z (option nat));
  fifo : list nat;
  lru : list (string * Z)
}.

(** The part of the global [SIM] dictionary the core works on. *)
Record Sim := mkSim {
  mem : MemoryManager;
  pager : Pager
}.

(** Field updates. *)
Definition with_config (t f : Z) (m : MemoryManager) : MemoryManager :=
  mkMem t f (frames m) (free_frames m) (pid_to_frames m)
        (page_faults m) (allocations m) (deallocations m).
Definition with_frames (fs : list Frame) (m : MemoryManager) : MemoryManager :=
  mkMem (total_kb m) (frame_kb m) fs (free_frames m) (pid_to_frames m)
        (page_faults m) (allocations m) (deallocations m).
Definition with_free (s : gset nat) (m : MemoryManager) : MemoryManager :=
  mkMem (total_kb m) (frame_kb m) (frames m) s (pid_to_frames m)
        (page_faults m) (allocations m) (deallocations m).
Definition with_owned (o : gmap string (gset nat)) (m : MemoryManager) : MemoryManager :=
  mkMem (total_kb m) (frame_kb m) (frames m) (free_frames m) o
        (page_faults m) (allocations m) (deallocations m).
Definition with_counters (pf al de : nat) (m : MemoryManager) : MemoryManager :=
  mkMem (total_kb m) (frame_kb m) (frames m) (free_frames m) (pid_to_frames m)
        pf al de.

Definition with_tables (t : gmap string (gmap Z (option nat))) (p : Pager) : Pager :=
  mkPager (algorithm p) t (fifo p) (lru p).
Definition with_fifo (q : list nat) (p : Pager) : Pager :=
  mkPager (algorithm p) (page_tables p) q (lru p).
Definition with_lru (l : list (string * Z)) (p : Pager) : Pager :=
  mkPager (algorithm p) (page_tables p) (fifo p) l.

Definition with_mem (m : MemoryManager) (s : Sim) : Sim := mkSim m (pager s).
Definition with_pager (p : Pager) (s : Sim) : Sim := mkSim (mem s) p.

(** Run a [MemoryManager] method on [self.mem] of the pager. *)
Definition on_mem {A} (c : M MemoryManager A) : M Sim A :=
  λ s, match c (mem s) with
       | Ok a m' => Ok a (with_mem m' s)
       | Raise e m' => Raise e (with_mem m' s)
       end.

(** ** Python primitives *)

(** [s.pop()] on a set removes and returns an arbitrary element and raises
    [KeyError] on the empty set. The element is the one at position
    [k mod len] of the enumeration of [s]: as [k] ranges over the naturals
    every element of [s] can be the one popped. *)
Definition set_pop (k : nat) (s : gset nat) : option (nat * gset nat) :=
  match elements s with
  | [] => None
  | x :: l =>
      let y := default x ((x :: l) !! (k mod length (x :: l))%nat) in
      Some (y, s ∖ {[ y ]})
  end.

(** [random.randrange(n)]: [ValueError] for [n = 0], otherwise some index
    below [n], here [r mod n] for the draw [r]. *)
Definition randrange {S} (r n : nat) : M S nat :=
  match n with
  | O => raise ValueError
  | _ => mret (r mod n)%nat
  end.

(** [d.setdefault(key, set())] followed by an update of the stored set. *)
Definition setdefault_update (who : string) (new : gset nat)
    (o : gmap string (gset nat)) : gmap string (gset nat) :=
  <[who := default ∅ (o !! who) ∪ new]> o.

(** ** MemoryManager *)

Definition fresh_frames (n : nat) : list Frame :=
  (λ i, mkFrame i None None) <$> seq 0 n.

(** [_rebuild]: [//] is floor division and raises on a zero divisor. *)
Definition _rebuild : M MemoryManager unit := λ m,
  if decide (frame_kb m = 0) then Raise ZeroDivisionError m
  else
    let n := Z.to_nat (Z.max 1 (total_kb m / frame_kb m)) in
    Ok tt (mkMem (total_kb m) (frame_kb m) (fresh_frames n)
                 (list_to_set (seq 0 n)) ∅ 0 0 0).

(** [MemoryManager(total_kb, frame_kb)] *)
Definition MemoryManager_init (total frame : Z) : result MemoryManager unit :=
  _rebuild (mkMem total frame [] ∅ ∅ 0 0 0).

Definition reset (total frame : option Z) : M MemoryManager unit :=
  modify (λ m, with_config (default (total_kb m) total) (frame_kb m) m) ;;
  modify (λ m, with_config (total_kb m) (default (frame_kb m) frame) m) ;;
  _rebuild.

Definition used_and_total (m : MemoryManager) : nat * nat :=
  (length (filter (λ f, is_free f = false) (frames m)), length (frames m)).

(** [f = self.frames[fidx]; f.pid = owner; f.label = lbl] *)
Definition set_frame (fidx : nat) (owner lbl : option string) : M MemoryManager unit :=
  λ m, match frames m !! fidx with
       | None => Raise IndexError m
       | Some f => Ok tt (with_frames (<[fidx := mkFrame (idx f) owner lbl]> (frames m)) m)
       end.

(** [fidx = self.free_frames.pop()] *)
Definition pop_free (k : nat) : M MemoryManager nat :=
  λ m, match set_pop k (free_frames m) with
       | None => Raise KeyError m
       | Some (x, s') => Ok x (with_free s' m)
       end.

(** The body of the loop of [alloc_pages], run [n] times; [ks i] selects the
    element popped at iteration [i]. *)
Fixpoint alloc_loop (ks : nat → nat) (who : string) (i n : nat)
    (chosen : list nat) : M MemoryManager (list nat) :=
  match n with
  | O => mret chosen
  | S n' =>
      fidx ← pop_free (ks i);
      set_frame fidx (Some who) None ;;
      alloc_loop ks who (S i) n' (chosen ++ [fidx])
  end.

Definition alloc_pages (ks : nat → nat) (who : string) (num_pages : Z)
    : M MemoryManager (bool * string) :=
  m ← get;
  if decide (num_pages > Z.of_nat (size (free_frames m)))
  then mret (false, "Not enough free frames")
  else
    chosen ← alloc_loop ks who 0 (Z.to_nat num_pages) [];
    modify (λ m, with_owned (setdefault_update who (list_to_set chosen) (pid_to_frames m)) m) ;;
    modify (λ m, with_counters (page_faults m) (allocations m + 1) (deallocations m) m) ;;
    mret (true, "Allocated " +:+ pretty num_pages +:+ " frames to " +:+ who).

(** [f = frames[fidx]; f.pid = None; f.label = None; free_frames.add(fidx)] *)
Definition release_frame (fidx : nat) : M MemoryManager unit :=
  set_frame fidx None None ;;
  modify (λ m, with_free ({[ fidx ]} ∪ free_frames m) m).

(** [free_pid]. The owned frames are walked in the order of [elements],
    where Python walks the set in its own order; as for [deallocate_pid]
    below, the order only shows in the state left by a raise inside the
    loop. *)
Definition free_pid (who : string) : M MemoryManager (bool * string) :=
  m ← get;
  match pid_to_frames m !! who with
  | None => mret (false, "PID not found")
  | Some owned =>
      for_each (elements owned) release_frame ;;
      modify (λ m, with_owned (delete who (pid_to_frames m)) m) ;;
      modify (λ m, with_counters (page_faults m) (allocations m) (deallocations m + 1) m) ;;
      mret (true, "Deallocated " +:+ who)
  end.

(** ** Pager *)

(** [Pager(mem, algorithm)] *)
Definition Pager_init (algo : string) : Pager := mkPager algo ∅ [] [].

(** [Pager.reset] *)
Definition pager_reset (algo : option string) : M Sim unit :=
  modify (λ s, with_pager (Pager_init (default (algorithm (pager s)) algo)) s).

Definition set_tables (t : gmap string (gmap Z (option nat))) : M Sim unit :=
  modify (λ s, with_pager (with_tables t (pager s)) s).

(** [{p: None for p in range(num_pages)}] *)
Definition blank_table (num_pages : Z) : gmap Z (option nat) :=
  list_to_map ((λ p, (p, None)) <$> seqZ 0 num_pages).

Definition create_process (who : string) (num_pages : Z) : M Sim unit :=
  s ← get;
  set_tables (<[who := blank_table num_pages]> (page_tables (pager s))).

(** [self.lru.pop(k, None)] for every key [k] of process [who] *)
Definition lru_purge (who : string) (l : list (string * Z)) : list (string * Z) :=
  filter (λ k, k.1 ≠ who) l.

(** [self.lru[key] = time.time(); self.lru.move_to_end(key)] *)
Definition lru_touch (key : string * Z) (l : list (string * Z)) : list (string * Z) :=
  filter (λ k, k ≠ key) l ++ [key].

Definition release_entry (e : Z * option nat) : M Sim unit :=
  match e.2 with
  | Some fidx => on_mem (release_frame fidx)
  | None => mret tt
  end.

(** [deallocate_pid]. The entries are walked in the order of
    [map_to_list], where Python walks the dict in insertion order. A loop
    that completes ends in the same state in either order; only the state
    left by an [IndexError] raised inside the loop depends on it. *)
Definition deallocate_pid (who : string) : M Sim unit :=
  s ← get;
  match page_tables (pager s) !! who with
  | None => mret tt
  | Some pt =>
      for_each (map_to_list pt) release_entry ;;
      s ← get;
      set_tables (delete who (page_tables (pager s))) ;;
      modify (λ s, with_pager (with_lru (lru_purge who (lru (pager s))) (pager s)) s)
  end.

(** [self.page_tables[vpid][vp]], a [KeyError] when either key is missing *)
Definition lookup_entry (vpid : string) (vp : Z) : M Sim (option nat) :=
  λ s, match page_tables (pager s) !! vpid with
       | None => Raise KeyError s
       | Some t =>
           match t !! vp with
           | None => Raise KeyError s
           | Some e => Ok e s
           end
       end.

(** [self.page_tables[who][page] = e], on a table that exists. In
    [access_page] the local [pt] is the very dict stored under
    [page_tables[pid]], so [pt[page_no] = fidx] is this update too. *)
Definition set_entry (who : string) (page : Z) (e : option nat) : M Sim unit :=
  s ← get;
  set_tables (alter (<[page := e]>) who (page_tables (pager s))).

Definition random_frame (r : nat) : M Sim nat :=
  s ← get;
  randrange r (length (frames (mem s))).

(** The [else] branch of "Need a frame": choose a victim. *)
Definition choose_victim (r : nat) : M Sim nat :=
  s ← get;
  if decide (algorithm (pager s) = "FIFO") then
    match fifo (pager s) with
    | v :: q => modify (λ s, with_pager (with_fifo q (pager s)) s) ;; mret v
    | [] => random_frame r
    end
  else
    match lru (pager s) with
    | (vpid, vp) :: rest =>
        modify (λ s, with_pager (with_lru rest (pager s)) s) ;;
        old_frame ← lookup_entry vpid vp;
        match old_frame with
        | Some f => on_mem (release_frame f)
        | None => mret tt
        end ;;
        set_entry vpid vp None ;;
        match old_frame with
        | Some f => mret f
        | None => random_frame r
        end
    | [] => random_frame r
    end.

Definition bump_page_faults : M MemoryManager unit :=
  modify (λ m, with_counters (page_faults m + 1) (allocations m) (deallocations m) m).

(** "Need a frame": a free one when there is one, a victim otherwise. *)
Definition obtain_frame (k r : nat) : M Sim nat :=
  s ← get;
  if decide (free_frames (mem s) = ∅) then choose_victim r
  else on_mem (pop_free k).

(** The tail of [access_page]: frame [fidx] receives page [page_no] of
    process [who]. *)
Definition install (who : string) (page_no : Z) (fidx : nat) : M Sim (bool * string) :=
  on_mem (set_frame fidx (Some who) (Some ("p" +:+ pretty page_no))) ;;
  on_mem (modify (λ m, with_owned (setdefault_update who {[ fidx ]} (pid_to_frames m)) m)) ;;
  set_entry who page_no (Some fidx) ;;
  s ← get;
  (if decide (algorithm (pager s) = "FIFO")
   then modify (λ s, with_pager (with_fifo (fifo (pager s) ++ [fidx]) (pager s)) s)
   else modify (λ s, with_pager (with_lru (lru_touch (who, page_no) (lru (pager s))) (pager s)) s)) ;;
  mret (true, "loaded in frame " +:+ pretty fidx).

(** [access_page]; [k] selects the element [free_frames.pop()] returns and
    [r] is the draw of [random.randrange]. *)
Definition access_page (k r : nat) (who : string) (page_no : Z)
    : M Sim (bool * string) :=
  on_mem bump_page_faults ;;
  s ← get;
  set_tables (<[who := default ∅ (page_tables (pager s) !! who)]> (page_tables (pager s))) ;;
  s ← get;
  match default ∅ (page_tables (pager s) !! who) !! page_no with
  | Some (Some _) =>
      (if decide (algorithm (pager s) = "LRU")
       then modify (λ s, with_pager (with_lru (lru_touch (who, page_no) (lru (pager s))) (pager s)) s)
       else mret tt) ;;
      mret (true, "hit")
  | _ =>
      fidx ← obtain_frame k r;
      install who page_no fidx
  end.

(** ** The handlers around the core *)

(** [on_apply_config]: reset the pool, then install a new pager. *)
Definition on_apply_config (total frame : Z) (algo : string) : M Sim unit :=
  on_mem (reset (Some total) (Some frame)) ;;
  modify (with_pager (Pager_init algo)).

(** [on_deallocate]: [if not pid] rejects [None] and the empty string;
    otherwise the pager's teardown is followed by the pool's. *)
Definition on_deallocate (data_pid : option string) : M Sim bool :=
  match data_pid with
  | None => mret false
  | Some who =>
      if decide (who = "") then mret false
      else deallocate_pid who ;; on_mem (free_pid who) ;; mret true
  end.

(** The engine as the module creates it: [MemoryManager(1024, 64)] and
    [Pager(mem, "FIFO")]. *)
Definition SIM_init : Sim :=
  mkSim (mkMem 1024 64 (fresh_frames 16) (list_to_set (seq 0 16)) ∅ 0 0 0)
        (Pager_init "FIFO").

(** An engine configured from scratch. *)
Definition configured (total frame : Z) (algo : string) : Sim :=
  state_of (on_apply_config total frame algo SIM_init).


(** ** Runs of the engine *)

(** The calls a client of the core can make. *)
Inductive op :=
  | Create (who : string) (num_pages : Z)
  | Access (k r : nat) (who : string) (page_no : Z)
  | Alloc (ks : nat → nat) (who : string) (num_pages : Z)
  | FreePid (who : string)
  | DeallocatePid (who : string)
  | Deallocate (data_pid : option string)
  | PagerReset (algo : option string)
  | Reset (total frame : option Z)
  | ApplyConfig (total frame : Z) (algo : string).

Definition run (o : op) : M Sim unit :=
  match o with
  | Create who n => create_process who n
  | Access k r who page_no => access_page k r who page_no ;; mret tt
  | Alloc ks who n => on_mem (alloc_pages ks who n) ;; mret tt
  | FreePid who => on_mem (free_pid who) ;; mret tt
  | DeallocatePid who => deallocate_pid who
  | Deallocate data_pid => on_deallocate data_pid ;; mret tt
  | PagerReset algo => pager_reset algo
  | Reset total frame => on_mem (reset total frame)
  | ApplyConfig total frame algo => on_apply_config total frame algo
  end.

(** A call that raises leaves the engine in the state it had reached; the
    next call starts from there. *)
Definition step (s : Sim) (o : op) : Sim := state_of (run o s).

Definition exec (ops : list op) (s : Sim) : Sim := fold_left step ops s.

Definition is_access (o : op) : bool :=
  match o with Access _ _ _ _ => true | _ => false end.

Definition rebuilds (o : op) : bool :=
  match o with Reset _ _ | ApplyConfig _ _ _ => true | _ => false end.

(** ** Relations kept by a computation

    [keeps R c]: whatever [c] does, also when it raises, the state it
    leaves is [R]-related to the one it started from. *)
Definition keeps {S A} (R : relation S) (c : M S A) : Prop :=
  ∀ s, R s (state_of (c s)).

(** The page-fault counter is the same in both states. *)
Definition same_faults_mem : relation MemoryManager :=
  λ m m', page_faults m' = page_faults m.
Definition same_faults : relation Sim :=
  λ s s', page_faults (mem s') = page_faults (mem s).

(** An invariant read as a relation: once it holds it still holds. *)
Definition stays {S} (I : S → Prop) : relation S := λ s s', I s → I s'.

(** Every free index is an index of the frame array. *)
Definition free_in_range (m : MemoryManager) : Prop :=
  ∀ i, i ∈ free_frames m → (i < length (frames m))%nat.

(** The state in which [access_page] looks up the page: the access is
    counted and the process has a page table. *)
Definition entered (who : string) (s : Sim) : Sim :=
  mkSim (with_counters (page_faults (mem s) + 1) (allocations (mem s))
                       (deallocations (mem s)) (mem s))
        (with_tables (<[who := default ∅ (page_tables (pager s) !! who)]>
                        (page_tables (pager s))) (pager s)).

(** The page is resident in the table of the process. *)
Definition resident (who : string) (page_no : Z) (s : Sim) : Prop :=
  ∃ t fidx, page_tables (pager s) !! who = Some t ∧ t !! page_no = Some (Some fidx).

(** The entry of a page in the table of a process: [None] when the table
    or the key is missing, [Some None] when the page is absent,
    [Some (Some f)] when it is resident in frame [f]. *)
Definition entry (who : string) (page_no : Z) (s : Sim) : option (option nat) :=
  default ∅ (page_tables (pager s) !! who) !! page_no.

(** The replacement bookkeeping agrees with the pool and the page tables:
    the pool has a frame; the free set, the FIFO queue and the resident
    entries of the page tables only name frames of the array; and every
    LRU key names an entry of a page table. *)
Definition bookkept (s : Sim) : Prop :=
  (0 < length (frames (mem s)))%nat
  ∧ free_in_range (mem s)
  ∧ (∀ v, v ∈ fifo (pager s) → (v < length (frames (mem s)))%nat)
  ∧ (∀ who t page_no f,
       page_tables (pager s) !! who = Some t → t !! page_no = Some (Some f) →
       (f < length (frames (mem s)))%nat)
  ∧ (∀ vpid vp, (vpid, vp) ∈ lru (pager s) →
       ∃ t e, page_tables (pager s) !! vpid = Some t ∧ t !! vp = Some e).

(** The sum over all processes of the sizes of their owned-frame sets. *)
Definition owned_total (m : MemoryManager) : nat :=
  map_fold (λ _ owned acc, (size owned + acc)%nat) 0%nat (pid_to_frames m).

(** Conservation: free frames plus owned frames make up the pool. *)
Definition conserved (m : MemoryManager) : Prop :=
  (size (free_frames m) + owned_total m)%nat = length (frames m).

(** The owner recorded in frame [fidx]. *)
Definition frame_owner (fidx : nat) (s : Sim) : option (option string) :=
  pid <$> frames (mem s) !! fidx.

(** The pool and the page tables fit together: owned frames are frames of
    the array and are not free, no frame has two owners, the counts add
    up, and a resident page sits in a frame its process owns. *)
Definition consistent (s : Sim) : Prop :=
  free_in_range (mem s)
  ∧ (∀ who owned f, pid_to_frames (mem s) !! who = Some owned → f ∈ owned →
       (f < length (frames (mem s)))%nat ∧ f ∉ free_frames (mem s))
  ∧ (∀ p q owned owned', p ≠ q →
       pid_to_frames (mem s) !! p = Some owned →
       pid_to_frames (mem s) !! q = Some owned' → owned ## owned')
  ∧ conserved (mem s)
  ∧ (∀ who t page_no f,
       page_tables (pager s) !! who = Some t → t !! page_no = Some (Some f) →
       ∃ owned, pid_to_frames (mem s) !! who = Some owned ∧ f ∈ owned).

(** The calls that keep to the protocol of the handlers: an access is a
    hit or finds a free frame, and a process is torn down by [on_deallocate]
    as a whole, never by one of its two halves alone. *)
Definition served (s : Sim) (o : op) : bool :=
  match o with
  | Access _ _ who page_no =>
      match entry who page_no s with
      | Some (Some _) => true
      | _ => bool_decide (free_frames (mem s) ≠ ∅)
      end
  | Create _ _ | Alloc _ _ _ | Deallocate _ | PagerReset _ | ApplyConfig _ _ _ => true
  | FreePid _ | DeallocatePid _ | Reset _ _ => false
  end.

Inductive reachable : Sim → Prop :=
  | reachable_init : reachable SIM_init
  | reachable_step s o : reachable s → served s o = true → reachable (step s o).

(** Every call of the run is served in the state it starts from. *)
Fixpoint all_served (s : Sim) (ops : list op) : bool :=
  match ops with
  | [] => true
  | o :: ops' => served s o && all_served (step s o) ops'
  end.

(** Every frame of the array carries its own position as [idx]. *)
Definition frames_indexed (m : MemoryManager) : Prop :=
  ∀ i f, frames m !! i = Some f → idx f = i.

(** The frame array has the same length in both states. *)
Definition same_length_mem : relation MemoryManager :=
  λ m m', length (frames m') = length (frames m).
Definition same_length : relation Sim :=
  λ s s', length (frames (mem s')) = length (frames (mem s)).

(** [f.pid = None; f.label = None] and [f.pid = who; f.label = None]. *)
Definition cleared (f : Frame) : Frame := mkFrame (idx f) None None.
Definition granted (who : string) (f : Frame) : Frame :=
  mkFrame (idx f) (Some who) None.

(** A frame of the array has no owner exactly when its index is free. *)
Definition frames_mark_free (m : MemoryManager) : Prop :=
  ∀ i f, frames m !! i = Some f → (pid f = None ↔ i ∈ free_frames m).

(** ** The handlers that name processes

    [SIM] with the key the handlers below read besides the engine:
    [next_pid]. The handlers also emit messages and broadcast a snapshot,
    which changes no state and is left out. *)
Record App := mkApp {
  core : Sim;
  next_pid : nat
}.

(** Run a method of the engine on [SIM["mem"]] and [SIM["pager"]]. *)
Definition on_core {A} (c : M Sim A) : M App A :=
  λ a, match c (core a) with
       | Ok x s' => Ok x (mkApp s' (next_pid a))
       | Raise e s' => Raise e (mkApp s' (next_pid a))
       end.

(** [pid = f"P{SIM['next_pid']}"; SIM["next_pid"] += 1] *)
Definition fresh_pid : M App string :=
  a ← get;
  modify (λ a, mkApp (core a) (next_pid a + 1)) ;;
  mret ("P" +:+ pretty (next_pid a)).

(** [on_create_process]; [size] is [int(data.get("size", 200))]. The
    process is admitted and page 0 accessed twice over; [k1 r1] and [k2 r2]
    are the choices of the two accesses. *)
Definition on_create_process (size : Z) (k1 r1 k2 r2 : nat) : M App unit :=
  a ← get;
  let frame := frame_kb (mem (core a)) in
  if decide (frame = 0) then raise ZeroDivisionError
  else
    let pages := Z.max 1 ((size + frame - 1) / frame) in
    who ← fresh_pid;
    on_core (create_process who pages) ;;
    on_core (access_page k1 r1 who 0) ;;
    on_core (create_process who pages) ;;
    on_core (access_page k2 r2 who 0) ;;
    on_core (on_mem (modify (λ m, with_counters (page_faults m) (allocations m + 1)
                                                (deallocations m) m))).

(** [random.choice(l)]: [IndexError] on an empty list, otherwise the
    element at position [c mod len]. *)
Definition choice {S A} (c : nat) (l : list A) : M S A :=
  match l with
  | [] => raise IndexError
  | x :: l' => mret (default x ((x :: l') !! (c mod length (x :: l'))%nat))
  end.

(** [sim_step]. [d] is the draw behind [random.randint(2, 8)], [c1] and
    [c2] those behind the two [random.choice] calls, and [ks p], [rs p] are
    the choices of the access to page [p]. *)
Definition sim_step (d c1 c2 : nat) (ks rs : Z → nat) : M App unit :=
  a ← get;
  if decide (page_tables (pager (core a)) = ∅) then
    who ← fresh_pid;
    let pages := (2 + Z.of_nat (d mod 7))%Z in
    on_core (create_process who pages) ;;
    for_each (seqZ 0 pages)
             (λ p, on_core (access_page (ks p) (rs p) who p) ;; mret tt)
  else
    who ← choice c1 (map_to_list (page_tables (pager (core a)))).*1;
    a ← get;
    match page_tables (pager (core a)) !! who with
    | None => raise KeyError
    | Some pt =>
        match (map_to_list pt).*1 with
        | [] => mret tt
        | pages =>
            p ← choice c2 pages;
            on_core (access_page (ks p) (rs p) who p) ;; mret tt
        end
    end.

(** [on_apply_config] as a whole: the engine is reconfigured and the
    process counter starts again at 1. *)
Definition handle_apply_config (total frame : Z) (algo : string) : M App unit :=
  on_core (on_apply_config total frame algo) ;;
  modify (λ a, mkApp (core a) 1).

(** [on_random_access]: five steps in a row; [d i], [c1 i], [c2 i], [ks i]
    and [rs i] are the draws of step [i]. *)
Definition on_random_access (d c1 c2 : nat → nat) (ks rs : nat → Z → nat) : M App unit :=
  for_each (seq 0 5) (λ i, sim_step (d i) (c1 i) (c2 i) (ks i) (rs i)).

(** ** The snapshot

    [state_snapshot] without its [system_mem] entry, which is read from the
    host through [psutil]. A frame's dict has the three fields of [Frame].
    [sorted] orders the ids as Python orders strings, character by
    character. *)
Record Snapshot := mkSnapshot {
  snap_frames : list Frame;
  snap_used : nat;
  snap_total : nat;
  snap_page_faults : nat;
  snap_allocations : nat;
  snap_deallocations : nat;
  snap_pids : list string
}.

Definition str_le (x y : string) : Prop := String.leb x y = true.

#[local] Instance str_le_dec : RelDecision str_le :=
  λ x y, decide (String.leb x y = true).

Definition sorted (l : list string) : list string := merge_sort str_le l.

Definition state_snapshot (s : Sim) : Snapshot :=
  let m := mem s in
  let '(used, total) := used_and_total m in
  let pids : gset string := dom (pid_to_frames m) ∪ dom (page_tables (pager s)) in
  mkSnapshot (map (λ f, mkFrame (idx f) (pid f) (label f)) (frames m))
             used total (page_faults m) (allocations m) (deallocations m)
             (sorted (elements pids)).

(** * Properties *)

Section Keeps.
Context {S : Type} (R : relation S) `{!PreOrder R}.

Lemma keeps_ret {A} (a : A) : keeps R (mret a).
Proof. intros s. simpl. reflexivity. Qed.

Lemma keeps_raise {A} (e : exn) : keeps R (raise (A:=A) e).
Proof. intros s. simpl. reflexivity. Qed.

Lemma keeps_get : keeps R get.
Proof. intros s. simpl. reflexivity. Qed.

Lemma keeps_modify (f : S → S) : (∀ s, R s (f s)) → keeps R (modify f).
Proof. intros Hf s. apply Hf. Qed.

Lemma keeps_bind {A B} (c : M S A) (k : A → M S B) :
  keeps R c → (∀ a, keeps R (k a)) → keeps R (c ≫= k).
Proof.
  intros Hc Hk s. specialize (Hc s). unfold mbind, M_bind.
  destruct (c s) as [a s'|e s']; simpl in *; [|done].
  etrans; [exact Hc | apply Hk].
Qed.

Lemma keeps_for_each {A} (l : list A) (body : A → M S unit) :
  (∀ x, keeps R (body x)) → keeps R (for_each l body).
Proof.
  intros Hb. induction l as [|x l IH]; simpl.
  - apply keeps_ret.
  - apply keeps_bind; [apply Hb | intros _; exact IH].
Qed.
End Keeps.

Lemma keeps_on_mem {A} (Rm : relation MemoryManager) (R : relation Sim)
    (c : M MemoryManager A) :
  (∀ s m', Rm (mem s) m' → R s (with_mem m' s)) →
  keeps Rm c → keeps R (on_mem c).
Proof.
  intros Hlift Hc s. specialize (Hc (mem s)). unfold on_mem.
  destruct (c (mem s)); simpl in *; by apply Hlift.
Qed.

Lemma state_of_bind_ok {S A B} (c : M S A) (k : A → M S B) s a s1 :
  c s = Ok a s1 → state_of ((c ≫= k) s) = state_of (k a s1).
Proof. intros H. unfold mbind, M_bind. by rewrite H. Qed.

Global Instance same_faults_mem_po : PreOrder same_faults_mem.
Proof. split; [done | intros x y z; unfold same_faults_mem; congruence]. Qed.
Global Instance same_faults_po : PreOrder same_faults.
Proof. split; [done | intros x y z; unfold same_faults; congruence]. Qed.

(** Steps of the symbolic walk through a method body. *)
Ltac keeps_side :=
  lazymatch goal with
  | |- PreOrder _ => apply _
  | |- ∀ _, _ => intros ?
  | _ => idtac
  end.

Ltac keeps_step :=
  lazymatch goal with
  | |- keeps _ (_ ≫= _) => apply keeps_bind; keeps_side
  | |- keeps _ (mret _) => apply keeps_ret; keeps_side
  | |- keeps _ (raise _) => apply keeps_raise; keeps_side
  | |- keeps _ get => apply keeps_get; keeps_side
  | |- keeps _ (for_each _ _) => apply keeps_for_each; keeps_side
  | |- keeps _ (modify _) => apply keeps_modify; keeps_side; try done
  | |- keeps _ (if ?b then _ else _) => destruct b
  | |- keeps _ (match ?x with _ => _ end) => destruct x
  end.

(** *** Relations kept by the methods

    What every method other than a rebuild keeps, given that the primitive
    updates of the pool keep it and that the pager's own fields do not
    matter. *)

Section Methods.
Variables (Rm : relation MemoryManager) (R : relation Sim).
Context `{!PreOrder Rm, !PreOrder R}.
Hypothesis lift : ∀ s m', Rm (mem s) m' → R s (with_mem m' s).
Hypothesis pager_only : ∀ s p, R s (with_pager p s).
Hypothesis owned_only : ∀ m o, Rm m (with_owned o m).
Hypothesis events_only :
  ∀ m al de, Rm m (with_counters (page_faults m) al de m).
Hypothesis keeps_set_frame : ∀ fidx o l, keeps Rm (set_frame fidx o l).
Hypothesis keeps_pop_free : ∀ k, keeps Rm (pop_free k).
Hypothesis keeps_release_frame : ∀ fidx, keeps Rm (release_frame fidx).

Local Ltac walk :=
  repeat (keeps_step
          || lazymatch goal with
             | |- keeps _ (on_mem _) => eapply (keeps_on_mem Rm); [exact lift|]
             end);
  auto.

Lemma keeps_alloc_loop ks who i n chosen : keeps Rm (alloc_loop ks who i n chosen).
Proof. revert i chosen. induction n as [|n IH]; intros i chosen; simpl; walk. Qed.

Lemma keeps_alloc_pages ks who n : keeps Rm (alloc_pages ks who n).
Proof. unfold alloc_pages. walk. apply keeps_alloc_loop. Qed.

Lemma keeps_free_pid who : keeps Rm (free_pid who).
Proof. unfold free_pid. walk. Qed.

Lemma keeps_set_tables t : keeps R (set_tables t).
Proof. unfold set_tables. walk. Qed.

Lemma keeps_set_entry who page e : keeps R (set_entry who page e).
Proof. unfold set_entry. walk. apply keeps_set_tables. Qed.

Lemma keeps_create_process who n : keeps R (create_process who n).
Proof. unfold create_process. walk. apply keeps_set_tables. Qed.

Lemma keeps_release_entry e : keeps R (release_entry e).
Proof. unfold release_entry. walk. Qed.

Lemma keeps_deallocate_pid who : keeps R (deallocate_pid who).
Proof.
  unfold deallocate_pid. walk;
    auto using keeps_release_entry, keeps_set_tables.
Qed.

Lemma keeps_on_deallocate d : keeps R (on_deallocate d).
Proof.
  unfold on_deallocate. walk;
    auto using keeps_deallocate_pid, keeps_free_pid.
Qed.

Lemma keeps_pager_reset algo : keeps R (pager_reset algo).
Proof. unfold pager_reset. walk. Qed.

Lemma keeps_random_frame r : keeps R (random_frame r).
Proof. unfold random_frame, randrange. walk. Qed.

Lemma keeps_lookup_entry vpid vp : keeps R (lookup_entry vpid vp).
Proof.
  intros s. unfold lookup_entry.
  destruct (page_tables (pager s) !! vpid) as [t|]; [|simpl; reflexivity].
  destruct (t !! vp); simpl; reflexivity.
Qed.

Lemma keeps_choose_victim r : keeps R (choose_victim r).
Proof.
  unfold choose_victim. walk;
    auto using keeps_random_frame, keeps_lookup_entry, keeps_set_entry.
Qed.

Lemma keeps_obtain_frame k r : keeps R (obtain_frame k r).
Proof. unfold obtain_frame. walk. apply keeps_choose_victim. Qed.

Lemma keeps_install who page fidx : keeps R (install who page fidx).
Proof. unfold install. walk; auto using keeps_set_entry. Qed.

(** [access_page] after its first statement. *)
Lemma keeps_access_page_body k r who page_no :
  keeps R (s ← get;
           set_tables (<[who := default ∅ (page_tables (pager s) !! who)]>
                         (page_tables (pager s))) ;;
           s ← get;
           match default ∅ (page_tables (pager s) !! who) !! page_no with
           | Some (Some _) =>
               (if decide (algorithm (pager s) = "LRU")
                then modify (λ s, with_pager (with_lru (lru_touch (who, page_no) (lru (pager s))) (pager s)) s)
                else mret tt) ;;
               mret (true, "hit")
           | _ =>
               fidx ← obtain_frame k r;
               install who page_no fidx
           end).
Proof.
  walk; auto using keeps_set_tables, keeps_obtain_frame, keeps_install.
Qed.

Lemma keeps_access_page k r who page_no :
  keeps Rm bump_page_faults → keeps R (access_page k r who page_no).
Proof.
  intros Hb. unfold access_page. apply keeps_bind; [apply _| |intros _].
  - by eapply (keeps_on_mem Rm).
  - apply keeps_access_page_body.
Qed.

(** Every call except [access_page] and the rebuilds. *)
Lemma keeps_run o :
  rebuilds o = false → is_access o = false → keeps R (run o).
Proof.
  destruct o; intros ??; try done; simpl; walk;
    auto using keeps_create_process, keeps_alloc_pages, keeps_free_pid,
      keeps_deallocate_pid, keeps_on_deallocate, keeps_pager_reset.
Qed.
End Methods.

(** *** The page-fault counter *)

Lemma set_frame_faults fidx o l : keeps same_faults_mem (set_frame fidx o l).
Proof. intros m. unfold set_frame. by destruct (frames m !! fidx). Qed.

Lemma pop_free_faults k : keeps same_faults_mem (pop_free k).
Proof.
  intros m. unfold pop_free.
  by destruct (set_pop k (free_frames m)) as [[??]|].
Qed.

Lemma release_frame_faults fidx : keeps same_faults_mem (release_frame fidx).
Proof.
  unfold release_frame. repeat keeps_step. apply set_frame_faults.
Qed.

Lemma run_faults o : rebuilds o = false → is_access o = false → keeps same_faults (run o).
Proof.
  apply (keeps_run same_faults_mem same_faults);
    auto using set_frame_faults, pop_free_faults, release_frame_faults; done.
Qed.

Lemma access_page_faults k r who page_no s :
  page_faults (mem (state_of (access_page k r who page_no s)))
  = S (page_faults (mem s)).
Proof.
  unfold access_page.
  erewrite state_of_bind_ok by reflexivity.
  set (s1 := with_mem _ s).
  transitivity (page_faults (mem s1)); [|simpl; lia].
  apply (keeps_access_page_body same_faults_mem same_faults);
    auto using set_frame_faults, pop_free_faults, release_frame_faults; done.
Qed.

Lemma state_of_bind_ret {S A} (c : M S A) s :
  state_of ((c ;; mret tt) s) = state_of (c s).
Proof. unfold mbind, M_bind. by destruct (c s). Qed.

Lemma step_faults s o :
  rebuilds o = false →
  page_faults (mem (step s o))
  = (page_faults (mem s) + (if is_access o then 1 else 0))%nat.
Proof.
  intros Hr. unfold step. destruct (is_access o) eqn:Ha.
  - destruct o; try done. simpl.
    rewrite state_of_bind_ret, access_page_faults. lia.
  - rewrite Nat.add_0_r. by apply run_faults.
Qed.

(** C8. Every call of [access_page], whether it hits, loads, evicts or
    raises, adds exactly one to [page_faults], and no other call except a
    rebuild of the pool changes the counter: along any run without a
    rebuild the counter has grown by the number of [access_page] calls, so
    it never decreases. *)
Theorem page_faults_counts_accesses (ops : list op) (s : Sim) :
  Forall (λ o, rebuilds o = false) ops →
  page_faults (mem (exec ops s))
  = (page_faults (mem s) + length (filter (λ o, is_access o = true) ops))%nat.
Proof.
  intros Hops. revert s. induction Hops as [|o ops Ho _ IH]; intros s; simpl.
  - lia.
  - unfold exec in IH. rewrite IH, step_faults by done.
    rewrite filter_cons. destruct (is_access o) eqn:Ha; case_decide; try done; simpl; lia.
Qed.

Lemma page_faults_counts_accesses_witness :
  let ops := [Create "P1" 2; Access 0 0 "P1" 0; Access 0 0 "P1" 0;
              Alloc (λ _, 0%nat) "P2" 1; Access 0 0 "P1" 1;
              Deallocate (Some "P1")] in
  Forall (λ o, rebuilds o = false) ops ∧
  page_faults (mem (exec ops SIM_init)) = 3%nat.
Proof.
  intros ops.
  assert (H : Forall (λ o, rebuilds o = false) ops) by (repeat constructor).
  split; [exact H|].
  exact (page_faults_counts_accesses ops SIM_init H).
Defined.

(** *** Configuration of the pool *)

Lemma rebuild_ok m :
  frame_kb m ≠ 0 →
  _rebuild m =
    Ok tt (let n := Z.to_nat (Z.max 1 (total_kb m / frame_kb m)) in
           mkMem (total_kb m) (frame_kb m) (fresh_frames n)
                 (list_to_set (seq 0 n)) ∅ 0 0 0).
Proof. intros H. unfold _rebuild. by case_decide. Qed.

Lemma fresh_frames_length n : length (fresh_frames n) = n.
Proof. unfold fresh_frames. by rewrite length_fmap, length_seq. Qed.

Lemma fresh_frames_lookup n i :
  (i < n)%nat → fresh_frames n !! i = Some (mkFrame i None None).
Proof.
  intros H. unfold fresh_frames.
  by rewrite list_lookup_fmap, lookup_seq_lt.
Qed.

(** With a frame size other than zero the pool is rebuilt and clamped to at
    least one frame, every frame free and unowned, every counter zero. *)
Lemma reset_clamps total frame m :
  frame ≠ 0 →
  ∃ m', reset (Some total) (Some frame) m = Ok tt m'
    ∧ length (frames m') = Z.to_nat (Z.max 1 (total / frame))
    ∧ (1 ≤ length (frames m'))%nat
    ∧ free_frames m' = list_to_set (seq 0 (length (frames m')))
    ∧ Forall (λ f, pid f = None ∧ label f = None) (frames m')
    ∧ pid_to_frames m' = ∅
    ∧ page_faults m' = 0%nat ∧ allocations m' = 0%nat ∧ deallocations m' = 0%nat.
Proof.
  intros Hf. eexists. split.
  - unfold reset, mbind, M_bind, modify. simpl. by rewrite rebuild_ok.
  - simpl. rewrite fresh_frames_length. repeat split; try done; [lia|].
    unfold fresh_frames. apply Forall_fmap, Forall_forall. by intros.
Qed.

Lemma rebuild_zero m :
  frame_kb m = 0 → _rebuild m = Raise ZeroDivisionError m.
Proof. intros H. unfold _rebuild. by case_decide. Qed.

(** C6. A frame size of zero is not clamped: the floor division in
    [_rebuild] raises [ZeroDivisionError] before [max] is applied, in
    [reset] as in the constructor, and [reset] leaves the pool with its old
    frames and the new sizes already stored. *)
Theorem reset_zero_frame_size_raises (total : option Z) (m : MemoryManager) :
  reset total (Some 0) m
  = Raise ZeroDivisionError (with_config (default (total_kb m) total) 0 m)
  ∧ MemoryManager_init (default (total_kb m) total) 0
    = Raise ZeroDivisionError (mkMem (default (total_kb m) total) 0 [] ∅ ∅ 0 0 0).
Proof. split; reflexivity. Qed.

(** *** Popping from a set *)

Lemma set_pop_empty k : set_pop k ∅ = None.
Proof. unfold set_pop. by rewrite elements_empty. Qed.

Lemma set_pop_nonempty k (s : gset nat) :
  s ≠ ∅ → ∃ x, x ∈ s ∧ set_pop k s = Some (x, s ∖ {[ x ]}).
Proof.
  intros Hne. unfold set_pop.
  destruct (elements s) as [|x l] eqn:El.
  - by apply elements_empty_inv, leibniz_equiv in El.
  - assert (Hlt : (k mod length (x :: l) < length (x :: l))%nat)
      by (apply Nat.mod_upper_bound; done).
    destruct (lookup_lt_is_Some_2 _ _ Hlt) as [y Hy].
    exists y. rewrite Hy. split; [|done].
    apply elem_of_elements. rewrite El. by eapply list_elem_of_lookup_2.
Qed.

Lemma set_pop_Some k (s s' : gset nat) x :
  set_pop k s = Some (x, s') → x ∈ s ∧ s' = s ∖ {[ x ]}.
Proof.
  intros H. destruct (decide (s = ∅)) as [->|Hne].
  - by rewrite set_pop_empty in H.
  - destruct (set_pop_nonempty k s Hne) as (y & Hy & Hpop).
    rewrite Hpop in H. by simplify_eq.
Qed.

(** Every element of the set is popped for some choice. *)
Lemma set_pop_any (s : gset nat) x :
  x ∈ s → ∃ k, set_pop k s = Some (x, s ∖ {[ x ]}).
Proof.
  intros Hx. apply elem_of_elements, list_elem_of_lookup in Hx as [i Hi].
  exists i. unfold set_pop. destruct (elements s) as [|y l] eqn:El; [done|].
  rewrite Nat.mod_small by (by eapply lookup_lt_Some). by rewrite Hi.
Qed.

(** *** Free indices stay inside the frame array *)

Global Instance stays_po {S} (I : S → Prop) : PreOrder (stays I).
Proof. split; unfold stays; [by intros ? | intros x y z; tauto]. Qed.

Lemma set_frame_Ok fidx o l m m' :
  set_frame fidx o l m = Ok tt m' →
  ∃ f, frames m !! fidx = Some f
    ∧ m' = with_frames (<[fidx := mkFrame (idx f) o l]> (frames m)) m.
Proof.
  unfold set_frame. destruct (frames m !! fidx) as [f|] eqn:Hf; [|done].
  intros [= <-]. eauto.
Qed.

Lemma set_frame_in_range fidx o l m :
  (fidx < length (frames m))%nat →
  ∃ f, frames m !! fidx = Some f
    ∧ set_frame fidx o l m
      = Ok tt (with_frames (<[fidx := mkFrame (idx f) o l]> (frames m)) m).
Proof.
  intros Hlt. destruct (lookup_lt_is_Some_2 _ _ Hlt) as [f Hf].
  exists f. split; [done|]. unfold set_frame. by rewrite Hf.
Qed.

Lemma set_frame_out_of_range fidx o l m :
  (length (frames m) ≤ fidx)%nat → set_frame fidx o l m = Raise IndexError m.
Proof.
  intros Hge. unfold set_frame. by rewrite (lookup_ge_None_2 _ _ Hge).
Qed.

Lemma set_frame_range fidx o l : keeps (stays free_in_range) (set_frame fidx o l).
Proof.
  intros m Hm. unfold set_frame. destruct (frames m !! fidx); [|done].
  intros i Hi. simpl in *. rewrite length_insert. by apply Hm.
Qed.

Lemma pop_free_range k : keeps (stays free_in_range) (pop_free k).
Proof.
  intros m Hm. unfold pop_free.
  destruct (set_pop k (free_frames m)) as [[x s']|] eqn:Hp; [|done].
  apply set_pop_Some in Hp as [_ Hs']. subst s'.
  intros i Hi. simpl in *. apply Hm.
  by apply elem_of_difference in Hi as [Hi _].
Qed.

Lemma release_frame_range fidx : keeps (stays free_in_range) (release_frame fidx).
Proof.
  intros m Hm. unfold release_frame, mbind, M_bind, set_frame.
  destruct (frames m !! fidx) as [f|] eqn:Hf; [|done].
  intros i Hi. simpl in *. rewrite length_insert.
  apply elem_of_union in Hi as [Hi|Hi]; [|by apply Hm].
  apply elem_of_singleton in Hi as ->. by eapply lookup_lt_Some.
Qed.

Lemma rebuild_range : keeps (stays free_in_range) _rebuild.
Proof.
  intros m Hm. unfold _rebuild. case_decide; [done|].
  intros i Hi. simpl in *. rewrite fresh_frames_length.
  apply elem_of_list_to_set, elem_of_seq in Hi. lia.
Qed.

Lemma reset_range total frame : keeps (stays free_in_range) (reset total frame).
Proof.
  unfold reset. repeat keeps_step; try (intros H; exact H). apply rebuild_range.
Qed.

Lemma run_range o : keeps (stays (λ s, free_in_range (mem s))) (run o).
Proof.
  pose proof set_frame_range. pose proof pop_free_range.
  pose proof release_frame_range.
  assert (∀ s m', stays free_in_range (mem s) m'
                  → stays (λ s, free_in_range (mem s)) s (with_mem m' s)) by done.
  destruct (rebuilds o) eqn:Hr; [|destruct (is_access o) eqn:Ha].
  - destruct o; try done; simpl; unfold on_apply_config; repeat keeps_step;
      try (intros Hk; exact Hk);
      eapply (keeps_on_mem (stays free_in_range)); auto using reset_range.
  - destruct o; try done; simpl. repeat keeps_step.
    apply (keeps_access_page (stays free_in_range));
      first [ apply _ | assumption | by intros ?? Hk
            | unfold bump_page_faults; apply keeps_modify; by intros ? Hk ].
  - apply (keeps_run (stays free_in_range));
      first [ apply _ | assumption | by intros ?? Hk | by intros ??? Hk ].
Qed.

(** In every state the engine reaches, the free indices are indices of the
    frame array. *)
Lemma free_in_range_exec ops s :
  free_in_range (mem s) → free_in_range (mem (exec ops s)).
Proof.
  revert s. induction ops as [|o ops IH]; intros s Hs; [done|].
  simpl. apply IH. by apply (run_range o s).
Qed.

Lemma free_in_range_init : free_in_range (mem SIM_init).
Proof.
  intros i Hi. change (i < 16)%nat.
  change (i ∈ (list_to_set (seq 0 16) : gset nat)) in Hi.
  apply elem_of_list_to_set, elem_of_seq in Hi. lia.
Qed.

(** *** Allocation *)

Lemma alloc_loop_ok ks who n : ∀ i chosen m,
  free_in_range m → (n ≤ size (free_frames m))%nat →
  ∃ l m', alloc_loop ks who i n chosen m = Ok (chosen ++ l)%list m'
    ∧ length l = n ∧ NoDup l
    ∧ (∀ x, x ∈ l → x ∈ free_frames m)
    ∧ free_frames m' = free_frames m ∖ list_to_set l
    ∧ length (frames m') = length (frames m)
    ∧ pid_to_frames m' = pid_to_frames m
    ∧ page_faults m' = page_faults m
    ∧ allocations m' = allocations m
    ∧ deallocations m' = deallocations m.
Proof.
  induction n as [|n IH]; intros i chosen m Hm Hn; simpl.
  - exists [], m. rewrite app_nil_r. repeat split; try done.
    + constructor.
    + intros x Hx. by apply not_elem_of_nil in Hx.
    + simpl. set_solver.
  - assert (Hne : free_frames m ≠ ∅).
    { intros He. rewrite He, size_empty in Hn. lia. }
    destruct (set_pop_nonempty (ks i) _ Hne) as (x & Hx & Hpop).
    pose (m1 := with_free (free_frames m ∖ {[ x ]}) m).
    destruct (set_frame_in_range x (Some who) None m1) as (f & Hf & Hset).
    { simpl. by apply Hm. }
    set (m2 := with_frames _ m1) in Hset.
    assert (Hm2 : free_in_range m2).
    { intros j Hj. simpl in *. rewrite length_insert. apply Hm. set_solver. }
    assert (Hsz : (n ≤ size (free_frames m2))%nat).
    { simpl. rewrite size_difference by set_solver. rewrite size_singleton. lia. }
    destruct (IH (S i) (chosen ++ [x])%list m2 Hm2 Hsz)
      as (l & m' & Hrun & Hlen & Hnd & Hsub & Hfree & Hfr & Hown & Hpf & Hal & Hde).
    exists (x :: l), m'. unfold mbind, M_bind, pop_free. rewrite Hpop.
    fold m1. rewrite Hset, Hrun, <- app_assoc. simpl in *.
    rewrite length_insert in Hfr.
    repeat split; try done.
    + by rewrite Hlen.
    + constructor; [|done]. intros Hxl. apply Hsub in Hxl. set_solver.
    + intros y Hy. apply elem_of_cons in Hy as [->|Hy]; [done|].
      apply Hsub in Hy. set_solver.
    + rewrite Hfree. set_solver.
Qed.

(** C7. [alloc_pages] succeeds exactly when the request does not exceed
    the number of free frames, and a refused request is answered with the
    failure status and leaves the pool as it was. *)
Theorem alloc_pages_succeeds_iff (ks : nat → nat) (who : string)
    (num_pages : Z) (m : MemoryManager) :
  free_in_range m →
  ((∃ msg m', alloc_pages ks who num_pages m = Ok (true, msg) m')
   ↔ (num_pages ≤ Z.of_nat (size (free_frames m)))%Z)
  ∧ ((num_pages > Z.of_nat (size (free_frames m)))%Z →
     alloc_pages ks who num_pages m = Ok (false, "Not enough free frames") m).
Proof.
  intros Hm. unfold alloc_pages, mbind, M_bind, get. split; [split|].
  - intros (msg & m' & H). case_decide; [done | lia].
  - intros Hle. case_decide; [lia|].
    destruct (alloc_loop_ok ks who (Z.to_nat num_pages) 0 [] m Hm)
      as (l & m' & Hrun & _); [lia|].
    rewrite Hrun. simpl. eauto.
  - intros Hgt. by case_decide.
Qed.

Lemma alloc_pages_succeeds_iff_witness :
  free_in_range (mem SIM_init)
  ∧ ((∃ msg m', alloc_pages (λ _, 0%nat) "P1" 16 (mem SIM_init) = Ok (true, msg) m')
     ↔ (16 ≤ Z.of_nat (size (free_frames (mem SIM_init))))%Z)
  ∧ ((17 > Z.of_nat (size (free_frames (mem SIM_init))))%Z →
     alloc_pages (λ _, 0%nat) "P1" 17 (mem SIM_init)
     = Ok (false, "Not enough free frames") (mem SIM_init)).
Proof.
  split; [exact free_in_range_init|]. split.
  - exact (proj1 (alloc_pages_succeeds_iff (λ _, 0%nat) "P1" 16 _ free_in_range_init)).
  - exact (proj2 (alloc_pages_succeeds_iff (λ _, 0%nat) "P1" 17 _ free_in_range_init)).
Defined.

(** *** [access_page], case by case *)

Lemma entry_entered who page_no s : entry who page_no (entered who s) = entry who page_no s.
Proof. unfold entry, entered. simpl. by rewrite lookup_insert_eq. Qed.

Lemma access_page_unfold k r who page_no s :
  access_page k r who page_no s =
    match entry who page_no s with
    | Some (Some _) =>
        Ok (true, "hit")
           (if decide (algorithm (pager s) = "LRU")
            then with_pager (with_lru (lru_touch (who, page_no) (lru (pager s)))
                                      (pager (entered who s))) (entered who s)
            else entered who s)
    | _ => (fidx ← obtain_frame k r; install who page_no fidx) (entered who s)
    end.
Proof.
  unfold access_page, mbind at 1 2 3 4, M_bind, on_mem, bump_page_faults,
    set_tables, modify, get. simpl.
  change (with_pager _ (with_mem _ s)) with (entered who s).
  rewrite lookup_insert_eq. unfold entry.
  change (default ∅ (Some ?x)) with x.
  destruct (default ∅ (page_tables (pager s) !! who) !! page_no) as [[f|]|];
    try done.
  unfold mbind, M_bind. by case_decide.
Qed.

Lemma install_ok who page_no fidx f s :
  frames (mem s) !! fidx = Some f →
  install who page_no fidx s =
    Ok (true, "loaded in frame " +:+ pretty fidx)
       (mkSim
          (mkMem (total_kb (mem s)) (frame_kb (mem s))
                 (<[fidx := mkFrame (idx f) (Some who) (Some ("p" +:+ pretty page_no))]>
                    (frames (mem s)))
                 (free_frames (mem s))
                 (setdefault_update who {[ fidx ]} (pid_to_frames (mem s)))
                 (page_faults (mem s)) (allocations (mem s)) (deallocations (mem s)))
          (mkPager (algorithm (pager s))
                   (alter (<[page_no := Some fidx]>) who (page_tables (pager s)))
                   (if decide (algorithm (pager s) = "FIFO")
                    then (fifo (pager s) ++ [fidx])%list else fifo (pager s))
                   (if decide (algorithm (pager s) = "FIFO")
                    then lru (pager s)
                    else lru_touch (who, page_no) (lru (pager s))))).
Proof.
  intros Hf. unfold install, mbind, M_bind, on_mem, set_frame, set_entry,
    set_tables, modify, get. simpl. rewrite Hf. simpl.
  by case_decide.
Qed.

Lemma install_out_of_range who page_no fidx s :
  (length (frames (mem s)) ≤ fidx)%nat →
  install who page_no fidx s = Raise IndexError s.
Proof.
  intros Hge. unfold install, mbind, M_bind, on_mem.
  rewrite set_frame_out_of_range by done. by destruct s.
Qed.

Lemma obtain_frame_free k r s :
  free_frames (mem s) ≠ ∅ →
  ∃ x, x ∈ free_frames (mem s)
    ∧ set_pop k (free_frames (mem s)) = Some (x, free_frames (mem s) ∖ {[ x ]})
    ∧ obtain_frame k r s
      = Ok x (with_mem (with_free (free_frames (mem s) ∖ {[ x ]}) (mem s)) s).
Proof.
  intros Hne. destruct (set_pop_nonempty k _ Hne) as (x & Hx & Hpop).
  exists x. split; [done|]. split; [done|].
  unfold obtain_frame, mbind, M_bind, get, on_mem, pop_free.
  case_decide; [done|]. by rewrite Hpop.
Qed.

Lemma obtain_frame_fifo k r s v q :
  free_frames (mem s) = ∅ → algorithm (pager s) = "FIFO" →
  fifo (pager s) = v :: q →
  obtain_frame k r s = Ok v (with_pager (with_fifo q (pager s)) s).
Proof.
  intros He Ha Hq. unfold obtain_frame, choose_victim, mbind, M_bind, get.
  case_decide; [|done]. case_decide; [|done]. by rewrite Hq.
Qed.

Lemma obtain_frame_lru k r s vpid vp rest t f fr :
  free_frames (mem s) = ∅ → algorithm (pager s) ≠ "FIFO" →
  lru (pager s) = (vpid, vp) :: rest →
  page_tables (pager s) !! vpid = Some t → t !! vp = Some (Some f) →
  frames (mem s) !! f = Some fr →
  obtain_frame k r s =
    Ok f (mkSim
            (mkMem (total_kb (mem s)) (frame_kb (mem s))
                   (<[f := mkFrame (idx fr) None None]> (frames (mem s)))
                   ({[ f ]} ∪ free_frames (mem s))
                   (pid_to_frames (mem s))
                   (page_faults (mem s)) (allocations (mem s)) (deallocations (mem s)))
            (mkPager (algorithm (pager s))
                     (alter (<[vp := None]>) vpid (page_tables (pager s)))
                     (fifo (pager s)) rest)).
Proof.
  intros He Ha Hl Ht Hvp Hfr.
  unfold obtain_frame, choose_victim, mbind, M_bind, get.
  case_decide; [|done]. case_decide; [done|]. rewrite Hl.
  unfold modify, lookup_entry. simpl. rewrite Ht, Hvp.
  unfold on_mem, release_frame, mbind, M_bind, set_frame. simpl. rewrite Hfr.
  reflexivity.
Qed.

Lemma random_frame_ok r s :
  (0 < length (frames (mem s)))%nat →
  random_frame r s = Ok (r mod length (frames (mem s)))%nat s.
Proof.
  intros Hn. unfold random_frame, mbind, M_bind, get, randrange.
  by destruct (length (frames (mem s))); [lia|].
Qed.

(** A miss served from the free set. *)
Lemma access_page_load_free k r who page_no s :
  (∀ f, entry who page_no s ≠ Some (Some f)) →
  free_frames (mem s) ≠ ∅ → free_in_range (mem s) →
  ∃ x f, x ∈ free_frames (mem s)
    ∧ frames (mem s) !! x = Some f
    ∧ access_page k r who page_no s =
        Ok (true, "loaded in frame " +:+ pretty x)
           (mkSim
              (mkMem (total_kb (mem s)) (frame_kb (mem s))
                     (<[x := mkFrame (idx f) (Some who) (Some ("p" +:+ pretty page_no))]>
                        (frames (mem s)))
                     (free_frames (mem s) ∖ {[ x ]})
                     (setdefault_update who {[ x ]} (pid_to_frames (mem s)))
                     (page_faults (mem s) + 1) (allocations (mem s))
                     (deallocations (mem s)))
              (mkPager (algorithm (pager s))
                       (<[who := <[page_no := Some x]>
                                   (default ∅ (page_tables (pager s) !! who))]>
                          (page_tables (pager s)))
                       (if decide (algorithm (pager s) = "FIFO")
                        then (fifo (pager s) ++ [x])%list else fifo (pager s))
                       (if decide (algorithm (pager s) = "FIFO")
                        then lru (pager s)
                        else lru_touch (who, page_no) (lru (pager s))))).
Proof.
  intros Hmiss Hne Hrange.
  destruct (obtain_frame_free k r (entered who s) Hne) as (x & Hx & _ & Hob).
  simpl in Hx.
  destruct (lookup_lt_is_Some_2 (frames (mem s)) x (Hrange x Hx)) as [f Hf].
  exists x, f. split; [done|]. split; [done|].
  assert (Hgo : access_page k r who page_no s
                = (fidx ← obtain_frame k r; install who page_no fidx) (entered who s)).
  { rewrite access_page_unfold.
    destruct (entry who page_no s) as [[f'|]|] eqn:He; try done.
    by destruct (Hmiss f'). }
  rewrite Hgo. unfold mbind, M_bind. rewrite Hob.
  erewrite install_ok by exact Hf. simpl.
  by rewrite alter_insert_eq.
Qed.

(** A hit. *)
Lemma access_page_hit k r who page_no s t f :
  page_tables (pager s) !! who = Some t → t !! page_no = Some (Some f) →
  access_page k r who page_no s =
    Ok (true, "hit")
       (mkSim
          (with_counters (page_faults (mem s) + 1) (allocations (mem s))
                         (deallocations (mem s)) (mem s))
          (mkPager (algorithm (pager s)) (page_tables (pager s)) (fifo (pager s))
                   (if decide (algorithm (pager s) = "LRU")
                    then lru_touch (who, page_no) (lru (pager s))
                    else lru (pager s)))).
Proof.
  intros Ht Hp. rewrite access_page_unfold. unfold entry. rewrite Ht. simpl.
  rewrite Hp. unfold entered. rewrite Ht. simpl. rewrite insert_id by done.
  by case_decide.
Qed.

(** A miss with no free frame under LRU, the oldest entry being resident. *)
Lemma access_page_evict_lru k r who page_no s vpid vp rest t f fr :
  (∀ f, entry who page_no s ≠ Some (Some f)) →
  free_frames (mem s) = ∅ → algorithm (pager s) ≠ "FIFO" →
  lru (pager s) = (vpid, vp) :: rest →
  page_tables (pager s) !! vpid = Some t → t !! vp = Some (Some f) →
  frames (mem s) !! f = Some fr →
  access_page k r who page_no s =
    Ok (true, "loaded in frame " +:+ pretty f)
       (mkSim
          (mkMem (total_kb (mem s)) (frame_kb (mem s))
                 (<[f := mkFrame (idx fr) (Some who) (Some ("p" +:+ pretty page_no))]>
                    (frames (mem s)))
                 ({[ f ]} ∪ free_frames (mem s))
                 (setdefault_update who {[ f ]} (pid_to_frames (mem s)))
                 (page_faults (mem s) + 1) (allocations (mem s))
                 (deallocations (mem s)))
          (mkPager (algorithm (pager s))
                   (alter (<[page_no := Some f]>) who
                      (alter (<[vp := None]>) vpid
                         (<[who := default ∅ (page_tables (pager s) !! who)]>
                            (page_tables (pager s)))))
                   (fifo (pager s))
                   (lru_touch (who, page_no) rest))).
Proof.
  intros Hmiss He Ha Hl Ht Hvp Hfr.
  assert (Hgo : access_page k r who page_no s
                = (fidx ← obtain_frame k r; install who page_no fidx) (entered who s)).
  { rewrite access_page_unfold.
    destruct (entry who page_no s) as [[f'|]|] eqn:Hent; try done.
    by destruct (Hmiss f'). }
  rewrite Hgo. unfold mbind, M_bind.
  assert (Ht' : page_tables (pager (entered who s)) !! vpid = Some t).
  { simpl. destruct (decide (who = vpid)) as [->|Hne].
    - by rewrite lookup_insert_eq, Ht.
    - by rewrite lookup_insert_ne. }
  erewrite (obtain_frame_lru k r (entered who s)); [| done..| exact Hfr].
  erewrite install_ok; simpl.
  2: { apply list_lookup_insert_eq. by eapply lookup_lt_Some. }
  rewrite list_insert_insert_eq. simpl.
  by case_decide.
Qed.

(** *** LRU recency on a pool of two frames *)

Lemma lru_touch_nil key : lru_touch key [] = [key].
Proof. done. Qed.

Lemma lru_touch_cons_ne key key' l :
  key' ≠ key → lru_touch key (key' :: l) = key' :: lru_touch key l.
Proof. intros H. unfold lru_touch. by rewrite filter_cons_True. Qed.

Lemma lru_touch_cons_eq key l : lru_touch key (key :: l) = lru_touch key l.
Proof. unfold lru_touch. rewrite filter_cons_False; [done|]. by intros []. Qed.

Lemma size_remove (X : gset nat) x : x ∈ X → size (X ∖ {[ x ]}) = (size X - 1)%nat.
Proof.
  intros Hx. rewrite size_difference, size_singleton; [done|].
  by apply singleton_subseteq_l.
Qed.

Lemma size_pair : size ({[ 0%nat; 1%nat ]} : gset nat) = 2%nat.
Proof.
  rewrite size_union, !size_singleton; [done|].
  apply disjoint_singleton_l. by intros ?%elem_of_singleton.
Qed.

Lemma elem_of_pair_lt (i : nat) : i ∈ ({[ 0%nat; 1%nat ]} : gset nat) → (i < 2)%nat.
Proof. intros [->%elem_of_singleton| ->%elem_of_singleton]%elem_of_union; lia. Qed.

Lemma size_zero_empty (X : gset nat) : size X = 0%nat → X = ∅.
Proof. intros H. by apply leibniz_equiv, size_empty_inv. Qed.

Lemma size_nonempty (X : gset nat) : (0 < size X)%nat → X ≠ ∅.
Proof. intros H ->. rewrite size_empty in H. lia. Qed.

(** C9. On a fresh LRU engine with two frames, after the accesses A, B,
    A, C of one process the third access is a hit, and loading C evicts B:
    the entry of B becomes absent, C is placed in the frame B had, and A
    stays in its own frame. *)
Theorem lru_evicts_least_recently_used
    (k1 r1 k2 r2 k3 r3 k4 r4 : nat) (who : string) (A B C : Z) (s0 : Sim) :
  length (frames (mem s0)) = 2%nat →
  free_frames (mem s0) = {[ 0%nat; 1%nat ]} →
  algorithm (pager s0) = "LRU" →
  lru (pager s0) = [] →
  (∀ p f, entry who p s0 ≠ Some (Some f)) →
  A ≠ B → A ≠ C → B ≠ C →
  ∃ fA fB s1 s2 s3 s4,
    access_page k1 r1 who A s0 = Ok (true, "loaded in frame " +:+ pretty fA) s1
    ∧ access_page k2 r2 who B s1 = Ok (true, "loaded in frame " +:+ pretty fB) s2
    ∧ access_page k3 r3 who A s2 = Ok (true, "hit") s3
    ∧ access_page k4 r4 who C s3 = Ok (true, "loaded in frame " +:+ pretty fB) s4
    ∧ fA ≠ fB
    ∧ entry who B s3 = Some (Some fB)
    ∧ entry who A s4 = Some (Some fA)
    ∧ entry who B s4 = Some None
    ∧ entry who C s4 = Some (Some fB).
Proof.
  intros Hlen Hfree Halg Hlru Hnone HAB HAC HBC.
  set (t0 := default ∅ (page_tables (pager s0) !! who)).
  assert (Ht0 : ∀ p f, t0 !! p ≠ Some (Some f)) by exact Hnone.
  (* A is loaded into a free frame *)
  destruct (access_page_load_free k1 r1 who A s0) as (x & fx & Hx & Hfx & Hrun1).
  { apply Hnone. }
  { apply size_nonempty. rewrite Hfree, size_pair. lia. }
  { intros i Hi. rewrite Hfree in Hi. rewrite Hlen. by apply elem_of_pair_lt. }
  rewrite Hfree in Hx.
  match type of Hrun1 with _ = Ok _ ?s => set (s1 := s) in * end.
  assert (Hfree1 : free_frames (mem s1) = {[ 0%nat; 1%nat ]} ∖ {[ x ]})
    by (simpl; by rewrite Hfree).
  assert (Hlen1 : length (frames (mem s1)) = 2%nat)
    by (simpl; by rewrite length_insert).
  assert (Htab1 : page_tables (pager s1) !! who = Some (<[A := Some x]> t0))
    by (simpl; by rewrite lookup_insert_eq).
  assert (Halg1 : algorithm (pager s1) = "LRU") by done.
  assert (Hlru1 : lru (pager s1) = [(who, A)]).
  { simpl. rewrite Halg, Hlru. by case_decide. }
  clearbody s1.
  (* B is loaded into the other frame *)
  destruct (access_page_load_free k2 r2 who B s1) as (y & fy & Hy & Hfy & Hrun2).
  { intros f. unfold entry. rewrite Htab1. simpl.
    rewrite lookup_insert_ne by done. apply Ht0. }
  { apply size_nonempty. rewrite Hfree1, size_remove, size_pair by done. lia. }
  { intros i Hi. rewrite Hfree1 in Hi. rewrite Hlen1.
    apply elem_of_difference in Hi as [Hi _]. by apply elem_of_pair_lt. }
  rewrite Hfree1 in Hy.
  assert (Hxy : x ≠ y).
  { intros ->. apply elem_of_difference in Hy as [_ Hy].
    by apply Hy, elem_of_singleton. }
  match type of Hrun2 with _ = Ok _ ?s => set (s2 := s) in * end.
  assert (Hfree2 : free_frames (mem s2) = ∅).
  { simpl. rewrite Hfree1. apply size_zero_empty.
    rewrite !size_remove, size_pair; done. }
  assert (Hlen2 : length (frames (mem s2)) = 2%nat)
    by (simpl; by rewrite length_insert).
  assert (Htab2 : page_tables (pager s2) !! who
                  = Some (<[B := Some y]> (<[A := Some x]> t0))).
  { simpl. by rewrite lookup_insert_eq, Htab1. }
  assert (Halg2 : algorithm (pager s2) = "LRU") by done.
  assert (Hlru2 : lru (pager s2) = [(who, A); (who, B)]).
  { simpl. rewrite Halg1, Hlru1. case_decide; [done|].
    rewrite lru_touch_cons_ne by congruence. done. }
  clearbody s2.
  (* A again: a hit that moves A behind B *)
  pose proof (access_page_hit k3 r3 who A s2 _ x Htab2) as Hrun3.
  rewrite lookup_insert_ne, lookup_insert_eq in Hrun3 by done.
  specialize (Hrun3 eq_refl).
  match type of Hrun3 with _ = Ok _ ?s => set (s3 := s) in * end.
  assert (Hfree3 : free_frames (mem s3) = ∅) by done.
  assert (Hlen3 : length (frames (mem s3)) = 2%nat) by done.
  assert (Htab3 : page_tables (pager s3) !! who
                  = Some (<[B := Some y]> (<[A := Some x]> t0))) by done.
  assert (Halg3 : algorithm (pager s3) ≠ "FIFO") by (simpl; by rewrite Halg2).
  assert (Hlru3 : lru (pager s3) = [(who, B); (who, A)]).
  { simpl. rewrite Halg2, Hlru2. case_decide; [|done].
    rewrite lru_touch_cons_eq, lru_touch_cons_ne by congruence. done. }
  clearbody s3.
  (* C: no frame is free and the oldest entry is B *)
  assert (Hylt : (y < length (frames (mem s3)))%nat).
  { rewrite Hlen3. apply elem_of_difference in Hy as [Hy _].
    by apply elem_of_pair_lt. }
  destruct (lookup_lt_is_Some_2 _ _ Hylt) as [fr Hfr].
  pose proof (access_page_evict_lru k4 r4 who C s3 who B [(who, A)]
                (<[B := Some y]> (<[A := Some x]> t0)) y fr) as Hrun4.
  specialize (Hrun4 ltac:(intros f; unfold entry; rewrite Htab3; simpl;
                           rewrite !lookup_insert_ne by done; apply Ht0)
                    Hfree3 Halg3 Hlru3 Htab3 ltac:(by rewrite lookup_insert_eq) Hfr).
  match type of Hrun4 with _ = Ok _ ?s => set (s4 := s) in * end.
  assert (Htab4 : page_tables (pager s4) !! who
                  = Some (<[C := Some y]> (<[B := None]>
                            (<[B := Some y]> (<[A := Some x]> t0))))).
  { simpl. rewrite !lookup_alter_eq, lookup_insert_eq, Htab3. done. }
  clearbody s4.
  exists x, y, s1, s2, s3, s4. repeat split; try done.
  - unfold entry. rewrite Htab3. simpl. by rewrite lookup_insert_eq.
  - unfold entry. rewrite Htab4. simpl.
    by rewrite !lookup_insert_ne, lookup_insert_eq by done.
  - unfold entry. rewrite Htab4. simpl.
    by rewrite lookup_insert_ne, lookup_insert_eq by done.
  - unfold entry. rewrite Htab4. simpl. by rewrite lookup_insert_eq.
Qed.

Lemma lru_evicts_least_recently_used_witness :
  ∃ fA fB s1 s2 s3 s4,
    access_page 0 0 "P1" 0 (configured 128 64 "LRU")
      = Ok (true, "loaded in frame " +:+ pretty fA) s1
    ∧ access_page 0 0 "P1" 1 s1 = Ok (true, "loaded in frame " +:+ pretty fB) s2
    ∧ access_page 0 0 "P1" 0 s2 = Ok (true, "hit") s3
    ∧ access_page 0 0 "P1" 2 s3 = Ok (true, "loaded in frame " +:+ pretty fB) s4
    ∧ fA ≠ fB
    ∧ entry "P1" 1 s3 = Some (Some fB)
    ∧ entry "P1" 0 s4 = Some (Some fA)
    ∧ entry "P1" 1 s4 = Some None
    ∧ entry "P1" 2 s4 = Some (Some fB).
Proof.
  apply (lru_evicts_least_recently_used 0 0 0 0 0 0 0 0 "P1" 0 1 2);
    [reflexivity | by vm_compute | reflexivity | reflexivity | | lia | lia | lia].
  intros p f. unfold entry. simpl. by rewrite lookup_empty.
Defined.

Lemma entry_resident who page_no s f :
  entry who page_no s = Some (Some f) →
  ∃ t, page_tables (pager s) !! who = Some t ∧ t !! page_no = Some (Some f).
Proof.
  unfold entry. destruct (page_tables (pager s) !! who) as [t|]; simpl.
  - intros H. by exists t.
  - by rewrite lookup_empty.
Qed.

(** *** [access_page] on a consistent engine *)

Lemma bookkept_entered who s : bookkept s → bookkept (entered who s).
Proof.
  intros (Hn & Hfree & Hfifo & Hres & Hlru).
  split; [done|]. split; [done|]. split; [done|]. split.
  - intros q t p f. simpl. destruct (decide (who = q)) as [->|Hne].
    + rewrite lookup_insert_eq. intros [= <-] Hp.
      destruct (page_tables (pager s) !! q) as [t0|] eqn:Hq; simpl in Hp.
      * by apply (Hres q t0 p f).
      * by rewrite lookup_empty in Hp.
    + rewrite lookup_insert_ne by done. apply Hres.
  - intros vpid vp Hin. destruct (Hlru vpid vp Hin) as (t & e & Ht & He).
    exists t, e. split; [|done]. simpl.
    destruct (decide (who = vpid)) as [->|Hne].
    + by rewrite lookup_insert_eq, Ht.
    + by rewrite lookup_insert_ne.
Qed.

(** Storing [v] under one page of one table keeps every key, and the only
    resident entry it can add is [v]. *)
Lemma set_entry_keeps_keys (tables : gmap string (gmap Z (option nat)))
    who page_no v vpid vp :
  (∃ t e, tables !! vpid = Some t ∧ t !! vp = Some e) →
  ∃ t e, alter (<[page_no := v]>) who tables !! vpid = Some t ∧ t !! vp = Some e.
Proof.
  intros (t & e & Ht & He). rewrite lookup_alter. case_decide as Hw.
  - subst. rewrite Ht. simpl. destruct (decide (page_no = vp)) as [->|Hp].
    + eexists _, _. split; [done|]. apply lookup_insert_eq.
    + eexists _, _. split; [done|]. by rewrite lookup_insert_ne.
  - by exists t, e.
Qed.

Lemma set_entry_resident (tables : gmap string (gmap Z (option nat)))
    who page_no v q t p f :
  alter (<[page_no := v]>) who tables !! q = Some t → t !! p = Some (Some f) →
  (v = Some f ∧ q = who ∧ p = page_no)
  ∨ ∃ t0, tables !! q = Some t0 ∧ t0 !! p = Some (Some f).
Proof.
  rewrite lookup_alter. case_decide as Hw.
  - subst. destruct (tables !! q) as [t0|] eqn:Hq; [|done]. simpl.
    intros [= <-]. destruct (decide (page_no = p)) as [->|Hp].
    + rewrite lookup_insert_eq. intros [= ->]. by left.
    + rewrite lookup_insert_ne by done. intros Ht. right. by exists t0.
  - intros Hq Ht. right. by exists t.
Qed.

Lemma elem_of_lru_touch key key' l :
  key' ∈ lru_touch key l → key' = key ∨ key' ∈ l.
Proof.
  unfold lru_touch. intros [Hin|Hin]%elem_of_app.
  - right. by apply list_elem_of_filter in Hin as [_ Hin].
  - left. by apply list_elem_of_singleton in Hin.
Qed.

Lemma obtain_frame_lru_absent k r s vpid vp rest t :
  free_frames (mem s) = ∅ → algorithm (pager s) ≠ "FIFO" →
  lru (pager s) = (vpid, vp) :: rest →
  page_tables (pager s) !! vpid = Some t → t !! vp = Some None →
  (0 < length (frames (mem s)))%nat →
  obtain_frame k r s =
    Ok (r mod length (frames (mem s)))%nat
       (mkSim (mem s)
              (mkPager (algorithm (pager s))
                       (alter (<[vp := None]>) vpid (page_tables (pager s)))
                       (fifo (pager s)) rest)).
Proof.
  intros He Ha Hl Ht Hvp Hn.
  unfold obtain_frame, choose_victim, mbind, M_bind, get.
  case_decide; [|done]. case_decide; [done|]. rewrite Hl.
  unfold modify, lookup_entry. simpl. rewrite Ht, Hvp. simpl.
  unfold random_frame, mbind, M_bind, get, randrange. simpl.
  by destruct (length (frames (mem s))); [lia|].
Qed.

Lemma obtain_frame_random k r s :
  free_frames (mem s) = ∅ →
  (algorithm (pager s) = "FIFO" ∧ fifo (pager s) = []
   ∨ algorithm (pager s) ≠ "FIFO" ∧ lru (pager s) = []) →
  (0 < length (frames (mem s)))%nat →
  obtain_frame k r s = Ok (r mod length (frames (mem s)))%nat s.
Proof.
  intros He Hcase Hn.
  unfold obtain_frame, choose_victim, mbind, M_bind, get.
  case_decide; [|done].
  destruct Hcase as [[Ha Hq]|[Ha Hl]]; case_decide; try done.
  - rewrite Hq. by apply random_frame_ok.
  - rewrite Hl. by apply random_frame_ok.
Qed.

(** On a consistent engine a frame is always obtained, it is a frame of
    the array, no page table is dropped on the way, and the engine stays
    consistent. *)
Lemma obtain_frame_ok k r who s :
  bookkept s → is_Some (page_tables (pager s) !! who) →
  ∃ x s', obtain_frame k r s = Ok x s'
    ∧ (x < length (frames (mem s')))%nat
    ∧ is_Some (page_tables (pager s') !! who)
    ∧ bookkept s'.
Proof.
  intros Hs Hwho. pose proof Hs as (Hn & Hfree & Hfifo & Hres & Hlru).
  destruct (decide (free_frames (mem s) = ∅)) as [He|Hne].
  - destruct (decide (algorithm (pager s) = "FIFO")) as [Ha|Ha].
    + destruct (fifo (pager s)) as [|v q] eqn:Hq.
      * eexists _, _. split; [apply obtain_frame_random; auto|].
        split; [by apply Nat.mod_upper_bound, Nat.neq_0_lt_0|done].
      * eexists _, _. split; [by eapply obtain_frame_fifo|].
        split; [simpl; apply Hfifo; left|]. split; [done|].
        split; [done|]. split; [done|]. split; [|by split].
        intros w Hw. simpl in *. apply Hfifo. by right.
    + destruct (lru (pager s)) as [|[vpid vp] rest] eqn:Hl.
      * eexists _, _. split; [apply obtain_frame_random; auto|].
        split; [by apply Nat.mod_upper_bound, Nat.neq_0_lt_0|done].
      * destruct (Hlru vpid vp) as (t & e & Ht & Hvp); [left|].
        assert (Hwho' : is_Some (alter (<[vp := None]>) vpid (page_tables (pager s)) !! who)).
        { rewrite lookup_alter. case_decide; [|done]. subst.
          rewrite Ht. by eexists. }
        assert (Hres' : ∀ q t' p f,
                  alter (<[vp := None]>) vpid (page_tables (pager s)) !! q = Some t' →
                  t' !! p = Some (Some f) → (f < length (frames (mem s)))%nat).
        { intros q t' p f Hq Hp.
          destruct (set_entry_resident _ _ _ _ _ _ _ _ Hq Hp)
            as [[? _]|(t0 & Hq0 & Hp0)]; [done|].
          by apply (Hres q t0 p f). }
        assert (Hlru' : ∀ vpid' vp', (vpid', vp') ∈ rest →
                  ∃ t' e', alter (<[vp := None]>) vpid (page_tables (pager s)) !! vpid'
                           = Some t' ∧ t' !! vp' = Some e').
        { intros vpid' vp' Hin. apply set_entry_keeps_keys, Hlru. by right. }
        destruct e as [f|].
        -- assert (Hf : (f < length (frames (mem s)))%nat)
             by (by apply (Hres vpid t vp f)).
           destruct (lookup_lt_is_Some_2 _ _ Hf) as [fr Hfr].
           eexists _, _. split; [by eapply obtain_frame_lru|].
           split; [simpl; by rewrite length_insert|]. split; [done|].
           split; [simpl; by rewrite length_insert|].
           split; [|split; [|split]]; simpl; try rewrite length_insert; try done.
           intros i Hi. simpl in *. rewrite length_insert.
           apply elem_of_union in Hi as [Hi|Hi]; [|by apply Hfree].
           by apply elem_of_singleton in Hi as ->.
        -- eexists _, _. split; [by eapply obtain_frame_lru_absent|].
           split; [simpl; by apply Nat.mod_upper_bound, Nat.neq_0_lt_0|].
           split; [done|]. by repeat split.
  - destruct (obtain_frame_free k r s Hne) as (x & Hx & _ & Hob).
    eexists _, _. split; [exact Hob|]. split; [simpl; by apply Hfree|].
    split; [done|]. split; [done|]. split; [|by repeat split].
    intros i Hi. simpl in *. apply Hfree.
    by apply elem_of_difference in Hi as [Hi _].
Qed.

(** Placing a page in a frame of the array keeps the engine consistent and
    makes the page resident. *)
Lemma install_bookkept who page_no x s :
  bookkept s → (x < length (frames (mem s)))%nat →
  is_Some (page_tables (pager s) !! who) →
  ∃ s', install who page_no x s = Ok (true, "loaded in frame " +:+ pretty x) s'
    ∧ resident who page_no s' ∧ bookkept s'.
Proof.
  intros (Hn & Hfree & Hfifo & Hres & Hlru) Hx [t Ht].
  destruct (lookup_lt_is_Some_2 _ _ Hx) as [fr Hfr].
  eexists. split; [by apply (install_ok _ _ _ fr)|]. split.
  - exists (<[page_no := Some x]> t), x. simpl.
    rewrite lookup_alter_eq, Ht. split; [done|]. apply lookup_insert_eq.
  - split; [|split; [|split; [|split]]]; simpl; try rewrite length_insert.
    + done.
    + intros i Hi. simpl in *. rewrite length_insert. by apply Hfree.
    + intros v Hv. case_decide; [|by apply Hfifo].
      apply elem_of_app in Hv as [Hv|Hv]; [by apply Hfifo|].
      by apply list_elem_of_singleton in Hv as ->.
    + intros q t' p f Hq Hp.
      destruct (set_entry_resident _ _ _ _ _ _ _ _ Hq Hp)
        as [[[= ->] _]|(t0 & Hq0 & Hp0)]; [done|].
      by apply (Hres q t0 p f).
    + intros vpid vp Hin. case_decide.
      * by apply set_entry_keeps_keys, Hlru.
      * apply elem_of_lru_touch in Hin as [[= -> ->]|Hin].
        -- rewrite lookup_alter_eq, Ht. simpl. eexists _, _.
           split; [done|]. apply lookup_insert_eq.
        -- by apply set_entry_keeps_keys, Hlru.
Qed.

(** Where the claim holds: on an engine whose bookkeeping is sound
    ([bookkept]), [access_page] returns the success status for every
    process id and every page number, admitted or not, inside the declared
    range or not; the page is then resident in the table of the process
    and the bookkeeping is sound again. *)
Theorem access_page_succeeds (k r : nat) (who : string) (page_no : Z) (s : Sim) :
  bookkept s →
  ∃ msg s', access_page k r who page_no s = Ok (true, msg) s'
    ∧ resident who page_no s'
    ∧ bookkept s'.
Proof.
  intros Hs. pose proof (bookkept_entered who s Hs) as Hs1.
  rewrite access_page_unfold.
  destruct (entry who page_no s) as [e|] eqn:He; [destruct e as [f|]|].
  1: { destruct (entry_resident who page_no s f He) as (t & Ht & Hp).
       eexists _, _. split; [done|].
       assert (Hres : resident who page_no (entered who s)).
       { exists t, f. simpl. by rewrite lookup_insert_eq, Ht. }
       case_decide; [|done]. split; [done|].
       destruct Hs1 as (Hn & Hfree & Hfifo & Hent & Hlru).
       repeat split; try done.
       intros vpid vp Hin. simpl in Hin.
       apply elem_of_lru_touch in Hin as [[= -> ->]|Hin]; [|by apply Hlru].
       destruct Hres as (t' & f' & Ht' & Hp'). by exists t', (Some f'). }
  all: destruct (obtain_frame_ok k r who (entered who s)) as (x & s1 & Hob & Hx & Hw & Hb);
    [done | simpl; rewrite lookup_insert_eq; by eexists |];
    destruct (install_bookkept who page_no x s1 Hb Hx Hw) as (s2 & Hin & Hres & Hb2);
    unfold mbind, M_bind; rewrite Hob, Hin; by eexists _, _.
Qed.

Lemma bookkept_configured total frame algo :
  frame ≠ 0 → bookkept (configured total frame algo).
Proof.
  intros Hf. unfold configured, on_apply_config, mbind, M_bind, on_mem.
  destruct (reset_clamps total frame (mem SIM_init) Hf)
    as (m' & -> & Hlen & Hpos & Hfree & _).
  simpl. split; [simpl; lia|]. split; [|split; [|split]].
  - intros i Hi. simpl in *. rewrite Hfree in Hi.
    apply elem_of_list_to_set, elem_of_seq in Hi. lia.
  - intros v Hv. by apply not_elem_of_nil in Hv.
  - intros q t p f Hq. simpl in Hq. by rewrite lookup_empty in Hq.
  - intros vpid vp Hv. by apply not_elem_of_nil in Hv.
Qed.

Lemma access_page_succeeds_witness :
  bookkept (configured 128 64 "LRU")
  ∧ ∃ msg s', access_page 0 0 "P9" 99 (configured 128 64 "LRU") = Ok (true, msg) s'
      ∧ resident "P9" 99 s'
      ∧ bookkept s'.
Proof.
  assert (H : bookkept (configured 128 64 "LRU"))
    by (apply bookkept_configured; lia).
  split; [exact H|].
  exact (access_page_succeeds 0 0 "P9" 99 (configured 128 64 "LRU") H).
Defined.

(** C10. The code breaks the claim: after a process has been admitted a
    second time with fewer pages, its LRU key names a table entry that is
    gone. The eviction reads [self.page_tables[vpid][vp]] without a guard,
    so the next fault with no free frame raises [KeyError] instead of
    returning the success status. The same branch guards an absent frame
    ([old_frame is not None]) and falls back to a random frame; the
    missing key is the case it misses. *)
Lemma access_page_raises_after_readmission :
  ∃ s', access_page 0 0 "P1" 0
          (exec [ApplyConfig 64 64 "LRU"; Create "P1" 3; Access 0 0 "P1" 2;
                 Create "P1" 1] SIM_init)
        = Raise KeyError s'.
Proof. eexists. vm_compute. reflexivity. Qed.

(** *** FIFO eviction in general *)

(** A miss with no free frame under FIFO and a queue that is not empty. *)
Lemma access_page_evict_fifo k r who page_no s v q fr :
  (∀ f, entry who page_no s ≠ Some (Some f)) →
  free_frames (mem s) = ∅ → algorithm (pager s) = "FIFO" →
  fifo (pager s) = v :: q →
  frames (mem s) !! v = Some fr →
  access_page k r who page_no s =
    Ok (true, "loaded in frame " +:+ pretty v)
       (mkSim
          (mkMem (total_kb (mem s)) (frame_kb (mem s))
                 (<[v := mkFrame (idx fr) (Some who) (Some ("p" +:+ pretty page_no))]>
                    (frames (mem s)))
                 (free_frames (mem s))
                 (setdefault_update who {[ v ]} (pid_to_frames (mem s)))
                 (page_faults (mem s) + 1) (allocations (mem s))
                 (deallocations (mem s)))
          (mkPager (algorithm (pager s))
                   (<[who := <[page_no := Some v]>
                               (default ∅ (page_tables (pager s) !! who))]>
                      (page_tables (pager s)))
                   (q ++ [v])%list
                   (lru (pager s)))).
Proof.
  intros Hmiss He Ha Hq Hfr.
  assert (Hgo : access_page k r who page_no s
                = (fidx ← obtain_frame k r; install who page_no fidx) (entered who s)).
  { rewrite access_page_unfold.
    destruct (entry who page_no s) as [[f'|]|] eqn:Hent; try done.
    by destruct (Hmiss f'). }
  rewrite Hgo. unfold mbind, M_bind.
  erewrite (obtain_frame_fifo k r (entered who s)) by done.
  erewrite install_ok by exact Hfr. simpl.
  rewrite alter_insert_eq. by case_decide.
Qed.

(** The victim's side is left as it was: apart from the entry of the page
    being loaded, no page-table entry changes, the owner sets of the other
    processes keep the frame, and nothing is returned to the free set. *)
Lemma fifo_eviction_leaves_victim_untouched k r who page_no s v q :
  (∀ f, entry who page_no s ≠ Some (Some f)) →
  free_frames (mem s) = ∅ → algorithm (pager s) = "FIFO" →
  fifo (pager s) = v :: q →
  (v < length (frames (mem s)))%nat →
  ∃ s', access_page k r who page_no s
          = Ok (true, "loaded in frame " +:+ pretty v) s'
    ∧ entry who page_no s' = Some (Some v)
    ∧ (∀ vpid vp, (vpid, vp) ≠ (who, page_no) →
         entry vpid vp s' = entry vpid vp s)
    ∧ (∀ p, p ≠ who →
         pid_to_frames (mem s') !! p = pid_to_frames (mem s) !! p)
    ∧ free_frames (mem s') = ∅.
Proof.
  intros Hmiss He Ha Hq Hv.
  destruct (lookup_lt_is_Some_2 _ _ Hv) as [fr Hfr].
  eexists. split; [by apply (access_page_evict_fifo _ _ _ _ _ v q fr)|].
  unfold entry. simpl. split; [|split; [|split]].
  - rewrite lookup_insert_eq. simpl. apply lookup_insert_eq.
  - intros vpid vp Hne. destruct (decide (who = vpid)) as [->|Hw].
    + rewrite lookup_insert_eq. simpl. rewrite lookup_insert_ne; [done|].
      intros ->. by apply Hne.
    + by rewrite lookup_insert_ne.
  - intros p Hp. unfold setdefault_update. by rewrite lookup_insert_ne.
  - done.
Qed.

(** *** Eviction and teardown on concrete runs *)

(** C2. One frame: P1 loads a page, then P2 faults and the frame is
    taken from P1. Under either policy the frame is added to the set of P2
    and stays in the set of P1. *)
Theorem eviction_shares_frame :
  let run algo := exec [ApplyConfig 64 64 algo; Access 0 0 "P1" 0;
                        Access 0 0 "P2" 0] SIM_init in
  pid_to_frames (mem (run "FIFO")) !! "P1" = Some {[ 0%nat ]}
  ∧ pid_to_frames (mem (run "FIFO")) !! "P2" = Some {[ 0%nat ]}
  ∧ pid_to_frames (mem (run "LRU")) !! "P1" = Some {[ 0%nat ]}
  ∧ pid_to_frames (mem (run "LRU")) !! "P2" = Some {[ 0%nat ]}.
Proof. vm_compute. repeat split; reflexivity. Qed.

(** C3. On the same run under FIFO the table of P1 still maps page 0 to
    frame 0, whose recorded owner is now P2. *)
Theorem fifo_eviction_leaves_foreign_entry :
  let s := exec [ApplyConfig 64 64 "FIFO"; Access 0 0 "P1" 0; Access 0 0 "P2" 0]
                SIM_init in
  entry "P1" 0 s = Some (Some 0%nat)
  ∧ frame_owner 0 s = Some (Some "P2").
Proof. vm_compute. split; reflexivity. Qed.

(** C4. One frame, FIFO, one process: page 0 is loaded, then page 1
    faults. The victim is frame 0, the head of the queue, but the entry of
    the evicted page 0 is not set to absent: both pages are mapped to frame
    0, and a later access to page 0 is answered as a hit. *)
Theorem fifo_eviction_keeps_victim_entry :
  let s0 := exec [ApplyConfig 64 64 "FIFO"; Create "P1" 2; Access 0 0 "P1" 0]
                 SIM_init in
  fifo (pager s0) = [0%nat]
  ∧ free_frames (mem s0) = ∅
  ∧ ∃ s1 s2,
      access_page 0 0 "P1" 1 s0 = Ok (true, "loaded in frame 0") s1
      ∧ entry "P1" 0 s1 = Some (Some 0%nat)
      ∧ entry "P1" 1 s1 = Some (Some 0%nat)
      ∧ access_page 0 0 "P1" 0 s1 = Ok (true, "hit") s2.
Proof.
  vm_compute. split; [reflexivity|]. split; [reflexivity|].
  eexists _, _. repeat split; reflexivity.
Qed.

(** C5. Under FIFO [deallocate_pid] leaves the queue entry of the
    process's frame in place, although the page table is gone and the frame
    is free again; under LRU the keys of the process are purged. A request
    for the whole pool succeeds afterwards. *)
Theorem deallocate_pid_keeps_fifo_entries :
  let run algo := exec [ApplyConfig 64 64 algo; Access 0 0 "P1" 0;
                        DeallocatePid "P1"] SIM_init in
  fifo (pager (run "FIFO")) = [0%nat]
  ∧ page_tables (pager (run "FIFO")) !! "P1" = None
  ∧ free_frames (mem (run "FIFO")) = {[ 0%nat ]}
  ∧ lru (pager (run "LRU")) = []
  ∧ ∃ m', alloc_pages (λ _, 0%nat) "P2" 1 (mem (run "FIFO"))
          = Ok (true, "Allocated 1 frames to P2") m'.
Proof.
  vm_compute. split; [reflexivity|]. split; [reflexivity|].
  split; [reflexivity|]. split; [reflexivity|]. eexists. reflexivity.
Qed.

(** C1 as stated fails after [deallocate_pid] alone: the frame is back in
    the free set and still in the set of its owner. *)
Lemma deallocate_pid_breaks_conservation :
  let s := exec [ApplyConfig 64 64 "FIFO"; Access 0 0 "P1" 0; DeallocatePid "P1"]
                SIM_init in
  size (free_frames (mem s)) = 1%nat ∧ owned_total (mem s) = 1%nat
  ∧ length (frames (mem s)) = 1%nat ∧ ¬ conserved (mem s).
Proof. vm_compute. repeat split; try reflexivity. lia. Qed.

(** *** Conservation *)

Lemma owned_sum_comm (z1 z2 : gset nat) (y : nat) :
  (size z1 + (size z2 + y) = size z2 + (size z1 + y))%nat.
Proof. lia. Qed.

Lemma owned_total_empty m : pid_to_frames m = ∅ → owned_total m = 0%nat.
Proof. intros H. unfold owned_total. by rewrite H, map_fold_empty. Qed.

Lemma owned_total_lookup m who owned :
  pid_to_frames m !! who = Some owned →
  owned_total m
  = (size owned + owned_total (with_owned (delete who (pid_to_frames m)) m))%nat.
Proof.
  intros H. unfold owned_total. simpl.
  erewrite (map_fold_delete_L _ _ who owned); [done| |done].
  intros. apply owned_sum_comm.
Qed.

Lemma owned_total_insert_fresh m who owned :
  pid_to_frames m !! who = None →
  owned_total (with_owned (<[who := owned]> (pid_to_frames m)) m)
  = (size owned + owned_total m)%nat.
Proof.
  intros H. unfold owned_total. simpl.
  rewrite map_fold_insert_L; [done| |done].
  intros. apply owned_sum_comm.
Qed.

Lemma owned_total_ext m m' :
  pid_to_frames m = pid_to_frames m' → owned_total m = owned_total m'.
Proof. unfold owned_total. by intros ->. Qed.

(** Frames new to the process are added to the sum. *)
Lemma owned_total_update m who new :
  new ## default ∅ (pid_to_frames m !! who) →
  owned_total (with_owned (setdefault_update who new (pid_to_frames m)) m)
  = (owned_total m + size new)%nat.
Proof.
  intros Hdisj. unfold setdefault_update.
  destruct (pid_to_frames m !! who) as [owned|] eqn:Hw; simpl in *.
  - rewrite (owned_total_lookup m who owned Hw).
    rewrite <- (insert_delete_eq (pid_to_frames m)).
    pose (m1 := with_owned (delete who (pid_to_frames m)) m).
    change (with_owned (<[who := owned ∪ new]> (delete who (pid_to_frames m))) m)
      with (with_owned (<[who := owned ∪ new]> (pid_to_frames m1)) m1).
    rewrite owned_total_insert_fresh by (simpl; apply lookup_delete_eq).
    rewrite size_union by done. fold m1. lia.
  - rewrite owned_total_insert_fresh by done.
    rewrite size_union by done. rewrite size_empty. lia.
Qed.

(** Releasing a list of frames of the array adds them to the free set and
    touches neither the owner sets nor the size of the array. *)
Lemma for_each_release_ok (l : list nat) : ∀ m,
  (∀ f, f ∈ l → (f < length (frames m))%nat) →
  ∃ m', for_each l release_frame m = Ok tt m'
    ∧ free_frames m' = list_to_set l ∪ free_frames m
    ∧ length (frames m') = length (frames m)
    ∧ pid_to_frames m' = pid_to_frames m.
Proof.
  induction l as [|x l IH]; intros m Hl.
  - exists m. repeat split; try done. simpl. set_solver.
  - destruct (set_frame_in_range x None None m) as (fr & Hfr & Hset).
    { apply Hl. left. }
    set (m1 := with_free ({[ x ]} ∪ free_frames m)
                 (with_frames (<[x := mkFrame (idx fr) None None]> (frames m)) m)).
    destruct (IH m1) as (m' & Hrun & Hfree & Hlen & Hown).
    { intros f Hf. simpl. rewrite length_insert. apply Hl. by right. }
    exists m'. simpl. unfold mbind, M_bind, release_frame at 1, mbind, M_bind.
    rewrite Hset. simpl. fold m1. rewrite Hrun.
    repeat split; try done.
    + rewrite Hfree. simpl. set_solver.
    + rewrite Hlen. simpl. by rewrite length_insert.
Qed.

(** The same for the loop of [deallocate_pid] over the items of a page
    table. *)
Lemma for_each_release_entry_ok (l : list (Z * option nat)) : ∀ s,
  (∀ p f, (p, Some f) ∈ l → (f < length (frames (mem s)))%nat) →
  ∃ s', for_each l release_entry s = Ok tt s'
    ∧ pager s' = pager s
    ∧ (∀ x, x ∈ free_frames (mem s')
            ↔ x ∈ free_frames (mem s) ∨ ∃ p, (p, Some x) ∈ l)
    ∧ length (frames (mem s')) = length (frames (mem s))
    ∧ pid_to_frames (mem s') = pid_to_frames (mem s).
Proof.
  induction l as [|[p e] l IH]; intros s Hl.
  - exists s. repeat split; try done.
    + by left.
    + intros [H|[p H]]; [done|]. by apply not_elem_of_nil in H.
  - destruct e as [f|].
    + destruct (set_frame_in_range f None None (mem s)) as (fr & Hfr & Hset).
      { apply (Hl p). left. }
      set (s1 := with_mem (with_free ({[ f ]} ∪ free_frames (mem s))
                   (with_frames (<[f := mkFrame (idx fr) None None]> (frames (mem s)))
                      (mem s))) s).
      destruct (IH s1) as (s' & Hrun & Hpg & Hfree & Hlen & Hown).
      { intros q g Hg. simpl. rewrite length_insert. apply (Hl q). by right. }
      exists s'. simpl. unfold mbind, M_bind, release_entry at 1. simpl.
      unfold on_mem, release_frame, mbind, M_bind. rewrite Hset. simpl.
      fold s1. rewrite Hrun. repeat split; try done.
      * intros Hx. apply Hfree in Hx as [Hx|[q Hq]].
        -- simpl in Hx. apply elem_of_union in Hx as [Hx|Hx]; [|by left].
           apply elem_of_singleton in Hx as ->. right. exists p. left.
        -- right. exists q. by right.
      * intros [Hx|[q Hq]]; apply Hfree.
        -- left. simpl. apply elem_of_union. by right.
        -- apply elem_of_cons in Hq as [Hq|Hq].
           ++ injection Hq as -> ->. left. simpl. apply elem_of_union. left.
              by apply elem_of_singleton.
           ++ right. by exists q.
      * rewrite Hlen. simpl. by rewrite length_insert.
    + destruct (IH s) as (s' & Hrun & Hpg & Hfree & Hlen & Hown).
      { intros q g Hg. apply (Hl q). by right. }
      exists s'. simpl. unfold mbind, M_bind, release_entry at 1. simpl.
      rewrite Hrun. repeat split; try done.
      * intros Hx. apply Hfree in Hx as [Hx|[q Hq]]; [by left|].
        right. exists q. by right.
      * intros [Hx|[q Hq]]; apply Hfree; [by left|].
        apply elem_of_cons in Hq as [Hq|Hq]; [done|]. right. by exists q.
Qed.

(** What the four fields the invariant reads are in [s'], given [s]. *)
Lemma consistent_fewer_entries s s' :
  consistent s →
  free_frames (mem s') = free_frames (mem s) →
  length (frames (mem s')) = length (frames (mem s)) →
  pid_to_frames (mem s') = pid_to_frames (mem s) →
  (∀ who t page_no f,
     page_tables (pager s') !! who = Some t → t !! page_no = Some (Some f) →
     ∃ t0, page_tables (pager s) !! who = Some t0 ∧ t0 !! page_no = Some (Some f)) →
  consistent s'.
Proof.
  intros (Hrange & Hown & Hdisj & Hcons & Hlink) Hf Hl Ho Ht.
  unfold consistent, free_in_range, conserved.
  rewrite (owned_total_ext (mem s') (mem s) Ho), Hf, Hl, Ho.
  split; [done|]. split; [done|]. split; [done|]. split; [done|].
  intros who t page_no f Hw Hp.
  destruct (Ht who t page_no f Hw Hp) as (t0 & Hw0 & Hp0). by eapply Hlink.
Qed.

(** Free frames [new] are handed to process [who]. *)
Lemma consistent_grant s s' who (new : gset nat) :
  consistent s →
  new ⊆ free_frames (mem s) →
  free_frames (mem s') = free_frames (mem s) ∖ new →
  length (frames (mem s')) = length (frames (mem s)) →
  pid_to_frames (mem s') = setdefault_update who new (pid_to_frames (mem s)) →
  (∀ q t page_no f,
     page_tables (pager s') !! q = Some t → t !! page_no = Some (Some f) →
     (q = who ∧ f ∈ new)
     ∨ ∃ t0, page_tables (pager s) !! q = Some t0 ∧ t0 !! page_no = Some (Some f)) →
  consistent s'.
Proof.
  intros (Hrange & Hown & Hdisj & Hcons & Hlink) Hnew Hf Hl Ho Ht.
  assert (Hfresh : new ## default ∅ (pid_to_frames (mem s) !! who)).
  { destruct (pid_to_frames (mem s) !! who) as [owned|] eqn:Hw; simpl.
    - intros f Hfn Hfo. destruct (Hown who owned f Hw Hfo) as [_ Hnf].
      apply Hnf. by apply Hnew.
    - apply disjoint_empty_r. }
  assert (Hlook : ∀ q owned, pid_to_frames (mem s') !! q = Some owned →
            (q = who ∧ owned = default ∅ (pid_to_frames (mem s) !! who) ∪ new)
            ∨ (q ≠ who ∧ pid_to_frames (mem s) !! q = Some owned)).
  { intros q owned. rewrite Ho. unfold setdefault_update.
    destruct (decide (who = q)) as [->|Hne].
    - rewrite lookup_insert_eq. intros [= <-]. by left.
    - rewrite lookup_insert_ne by done. intros Hq. right. by split. }
  assert (Hold : ∀ f, f ∈ default ∅ (pid_to_frames (mem s) !! who) →
            (f < length (frames (mem s)))%nat ∧ f ∉ free_frames (mem s)).
  { intros f. destruct (pid_to_frames (mem s) !! who) as [owned|] eqn:Hw; simpl.
    - intros Hin. by apply (Hown who owned f Hw Hin).
    - intros Hin. by apply not_elem_of_empty in Hin. }
  assert (Hmember : ∀ q owned f, pid_to_frames (mem s') !! q = Some owned →
            f ∈ owned →
            (f ∈ new ∧ q = who)
            ∨ ((f ∉ free_frames (mem s)) ∧ (f < length (frames (mem s)))%nat
               ∧ ∃ owned0, pid_to_frames (mem s) !! q = Some owned0 ∧ f ∈ owned0)).
  { intros q owned f Hq Hin. destruct (Hlook q owned Hq) as [[-> ->]|[Hne Hq0]].
    - apply elem_of_union in Hin as [Hin|Hin]; [|by left].
      right. destruct (Hold f Hin) as [Hlt Hnf].
      destruct (pid_to_frames (mem s) !! who) as [owned0|] eqn:Hw; simpl in *.
      + repeat split; try done. by exists owned0.
      + by apply not_elem_of_empty in Hin.
    - right. destruct (Hown q owned f Hq0 Hin) as [Hlt Hnf].
      repeat split; try done. by exists owned. }
  unfold consistent. split; [|split; [|split; [|split]]].
  - intros i Hi. rewrite Hf in Hi. rewrite Hl.
    apply elem_of_difference in Hi as [Hi _]. by apply Hrange.
  - intros q owned f Hq Hin. rewrite Hl, Hf.
    destruct (Hmember q owned f Hq Hin) as [[Hfn _]|(Hnf & Hlt & _)].
    + split; [by apply Hrange, Hnew|].
      intros Hd. apply elem_of_difference in Hd as [_ Hd]. by apply Hd.
    + split; [done|]. intros Hd. apply elem_of_difference in Hd as [Hd _].
      by apply Hnf.
  - intros p q owned owned' Hpq Hp Hq f Hfp Hfq.
    destruct (Hmember p owned f Hp Hfp) as [[Hfn ->]|(Hnf & _ & o1 & Ho1 & Hf1)];
      destruct (Hmember q owned' f Hq Hfq) as [[Hfn' ->]|(Hnf' & _ & o2 & Ho2 & Hf2)].
    + done.
    + by apply Hnf', Hnew.
    + by apply Hnf, Hnew.
    + by apply (Hdisj p q o1 o2 Hpq Ho1 Ho2 f).
  - unfold conserved in *.
    rewrite (owned_total_ext (mem s')
               (with_owned (setdefault_update who new (pid_to_frames (mem s))) (mem s)))
      by exact Ho.
    rewrite owned_total_update by done.
    rewrite Hf, Hl, size_difference by done.
    pose proof (subseteq_size _ _ Hnew). lia.
  - intros q t page_no f Hq Hp.
    destruct (Ht q t page_no f Hq Hp) as [[-> Hfn]|(t0 & Hq0 & Hp0)].
    + rewrite Ho. unfold setdefault_update. rewrite lookup_insert_eq.
      eexists. split; [done|]. apply elem_of_union. by right.
    + destruct (Hlink q t0 page_no f Hq0 Hp0) as (owned & Hw & Hin).
      rewrite Ho. unfold setdefault_update.
      destruct (decide (who = q)) as [->|Hne].
      * rewrite lookup_insert_eq, Hw. eexists. split; [done|].
        apply elem_of_union. by left.
      * rewrite lookup_insert_ne by done. by exists owned.
Qed.

(** Process [who] is torn down: its frames go back to the free set, its
    owner set and its page table are dropped. *)
Lemma consistent_release s s' who :
  consistent s →
  free_frames (mem s')
    = free_frames (mem s) ∪ default ∅ (pid_to_frames (mem s) !! who) →
  length (frames (mem s')) = length (frames (mem s)) →
  pid_to_frames (mem s') = delete who (pid_to_frames (mem s)) →
  page_tables (pager s') = delete who (page_tables (pager s)) →
  consistent s'.
Proof.
  intros (Hrange & Hown & Hdisj & Hcons & Hlink) Hf Hl Ho Ht.
  assert (Hlook : ∀ q owned, pid_to_frames (mem s') !! q = Some owned →
            q ≠ who ∧ pid_to_frames (mem s) !! q = Some owned).
  { intros q owned. rewrite Ho. intros Hq.
    apply lookup_delete_Some in Hq as [Hne Hq]. by split. }
  unfold consistent. split; [|split; [|split; [|split]]].
  - intros i Hi. rewrite Hf in Hi. rewrite Hl.
    apply elem_of_union in Hi as [Hi|Hi]; [by apply Hrange|].
    destruct (pid_to_frames (mem s) !! who) as [owned|] eqn:Hw; simpl in Hi.
    + by apply (Hown who owned).
    + by apply not_elem_of_empty in Hi.
  - intros q owned f Hq Hin. destruct (Hlook q owned Hq) as [Hne Hq0].
    destruct (Hown q owned f Hq0 Hin) as [Hlt Hnf]. rewrite Hl, Hf.
    split; [done|]. intros Hd. apply elem_of_union in Hd as [Hd|Hd]; [done|].
    destruct (pid_to_frames (mem s) !! who) as [owned0|] eqn:Hw; simpl in Hd.
    + by apply (Hdisj q who owned owned0 Hne Hq0 Hw f).
    + by apply not_elem_of_empty in Hd.
  - intros p q owned owned' Hpq Hp Hq.
    destruct (Hlook p owned Hp) as [_ Hp0]. destruct (Hlook q owned' Hq) as [_ Hq0].
    by apply (Hdisj p q).
  - unfold conserved in *. rewrite Hf, Hl.
    rewrite (owned_total_ext (mem s')
               (with_owned (delete who (pid_to_frames (mem s))) (mem s)))
      by exact Ho.
    destruct (pid_to_frames (mem s) !! who) as [owned|] eqn:Hw; simpl.
    + rewrite (owned_total_lookup (mem s) who owned Hw) in Hcons.
      rewrite size_union; [lia|].
      intros f Hfree Hfo. by destruct (Hown who owned f Hw Hfo).
    + rewrite union_empty_r_L.
      rewrite (owned_total_ext _ (mem s)); [done|].
      simpl. by apply delete_id.
  - intros q t page_no f Hq Hp. rewrite Ht in Hq.
    apply lookup_delete_Some in Hq as [Hne Hq].
    destruct (Hlink q t page_no f Hq Hp) as (owned & Hw & Hin).
    exists owned. split; [|done]. rewrite Ho. by rewrite lookup_delete_ne.
Qed.

Lemma consistent_fresh s n :
  free_frames (mem s) = list_to_set (seq 0 n) →
  length (frames (mem s)) = n →
  pid_to_frames (mem s) = ∅ →
  page_tables (pager s) = ∅ →
  consistent s.
Proof.
  intros Hf Hl Ho Ht. unfold consistent. split; [|split; [|split; [|split]]].
  - intros i Hi. rewrite Hf in Hi. rewrite Hl.
    apply elem_of_list_to_set, elem_of_seq in Hi. lia.
  - intros who owned f Hw. by rewrite Ho, lookup_empty in Hw.
  - intros p q owned owned' _ Hp. by rewrite Ho, lookup_empty in Hp.
  - unfold conserved. rewrite owned_total_empty by done.
    rewrite Hf, Hl, size_list_to_set, length_seq by apply NoDup_seq. lia.
  - intros who t page_no f Hw. by rewrite Ht, lookup_empty in Hw.
Qed.

Lemma blank_table_absent n page_no f : blank_table n !! page_no ≠ Some (Some f).
Proof.
  unfold blank_table. intros H. apply elem_of_list_to_map_2 in H.
  apply list_elem_of_fmap in H as (p & Hp & _). by injection Hp.
Qed.


Lemma deallocate_pid_ok who s :
  consistent s →
  ∃ s1, deallocate_pid who s = Ok tt s1
    ∧ page_tables (pager s1) = delete who (page_tables (pager s))
    ∧ (∀ x, x ∈ free_frames (mem s1) →
            x ∈ free_frames (mem s) ∨ x ∈ default ∅ (pid_to_frames (mem s) !! who))
    ∧ free_frames (mem s) ⊆ free_frames (mem s1)
    ∧ length (frames (mem s1)) = length (frames (mem s))
    ∧ pid_to_frames (mem s1) = pid_to_frames (mem s).
Proof.
  intros (Hrange & Hown & Hdisj & Hcons & Hlink).
  unfold deallocate_pid, mbind, M_bind, get.
  destruct (page_tables (pager s) !! who) as [t|] eqn:Ht.
  - assert (Hres : ∀ p f, (p, Some f) ∈ map_to_list t →
              ∃ owned, pid_to_frames (mem s) !! who = Some owned ∧ f ∈ owned).
    { intros p f Hin. apply elem_of_map_to_list in Hin. by eapply Hlink. }
    destruct (for_each_release_entry_ok (map_to_list t) s)
      as (s' & Hrun & Hpg & Hfree & Hlen & Ho).
    { intros p f Hin. destruct (Hres p f Hin) as (owned & Hw & Hf).
      by apply (Hown who owned). }
    rewrite Hrun. eexists. split; [reflexivity|]. simpl.
    rewrite Hpg. repeat split; try done.
    + intros x Hx. apply Hfree in Hx as [Hx|[p Hp]]; [by left|].
      right. destruct (Hres p x Hp) as (owned & -> & Hf). done.
    + intros x Hx. apply Hfree. by left.
  - exists s. repeat split; try done.
    + symmetry. by apply delete_id.
    + intros x Hx. by left.
Qed.

Lemma free_pid_ok who m :
  (∀ f, f ∈ default ∅ (pid_to_frames m !! who) → (f < length (frames m))%nat) →
  ∃ r m', free_pid who m = Ok r m'
    ∧ free_frames m' = default ∅ (pid_to_frames m !! who) ∪ free_frames m
    ∧ length (frames m') = length (frames m)
    ∧ pid_to_frames m' = delete who (pid_to_frames m).
Proof.
  intros Hrange. unfold free_pid, mbind, M_bind, get.
  destruct (pid_to_frames m !! who) as [owned|] eqn:Hw; simpl in *.
  - destruct (for_each_release_ok (elements owned) m) as (m' & Hrun & Hfree & Hlen & Ho).
    { intros f Hf. apply Hrange. by apply elem_of_elements. }
    rewrite Hrun. eexists _, _. split; [reflexivity|]. simpl.
    rewrite Hfree, Hlen, Ho, list_to_set_elements_L. done.
  - eexists _, m. split; [reflexivity|].
    rewrite union_empty_l_L. repeat split; try done.
    symmetry. by apply delete_id.
Qed.

(** A served call keeps the pool and the page tables consistent. *)
Lemma consistent_step s o :
  consistent s → served s o = true → consistent (step s o).
Proof.
  intros Hs Hserved. unfold step.
  destruct o as [who n|k r who page_no|ks who n|who|who|d|algo|total frame|total frame algo];
    simpl in Hserved; try done; simpl.
  - (* create_process *)
    apply (consistent_fewer_entries s); try done.
    intros q t page_no f. simpl. destruct (decide (who = q)) as [->|Hne].
    + rewrite lookup_insert_eq. intros [= <-] Hp.
      by apply blank_table_absent in Hp.
    + rewrite lookup_insert_ne by done. intros Hq Hp. by exists t.
  - (* access_page *)
    rewrite state_of_bind_ret.
    destruct (entry who page_no s) as [[f|]|] eqn:He.
    { destruct (entry_resident who page_no s f He) as (t & Ht & Hp).
      rewrite (access_page_hit k r who page_no s t f Ht Hp). simpl.
      apply (consistent_fewer_entries s); try done.
      intros q t' p' f' Hq Hp'. by exists t'. }
    all: apply bool_decide_eq_true in Hserved;
      destruct (access_page_load_free k r who page_no s)
        as (x & fr & Hx & Hfr & Hrun);
      [ intros f; by rewrite He | done | apply Hs | ];
      rewrite Hrun; simpl;
      apply (consistent_grant s _ who {[ x ]}); try done;
      [ by apply singleton_subseteq_l | simpl; by rewrite length_insert | ];
      intros q t p' f'; simpl;
      (destruct (decide (who = q)) as [->|Hne];
       [ rewrite lookup_insert_eq; intros [= <-];
         destruct (decide (page_no = p')) as [->|Hnp];
         [ rewrite lookup_insert_eq; intros [= <-]; left;
           split; [done | by apply elem_of_singleton]
         | rewrite lookup_insert_ne by done; intros Hp; right;
           destruct (page_tables (pager s) !! q) as [t0|]; simpl in Hp;
           [ by exists t0 | by rewrite lookup_empty in Hp ] ]
       | rewrite lookup_insert_ne by done; intros Hq Hp; right; by exists t ]).
  - (* alloc_pages *)
    rewrite state_of_bind_ret. unfold on_mem, alloc_pages, mbind, M_bind, get.
    case_decide as Hn; simpl.
    { apply (consistent_fewer_entries s); try done.
      intros q t p f Hq Hp. by exists t. }
    destruct (alloc_loop_ok ks who (Z.to_nat n) 0 [] (mem s))
      as (l & m1 & Hrun & Hlen & Hnd & Hin & Hfree & Hfr & Ho & _);
      [apply Hs | lia |].
    rewrite Hrun. simpl.
    apply (consistent_grant s _ who (list_to_set l)); try done.
    + intros x Hx. apply Hin. by apply elem_of_list_to_set in Hx.
    + simpl. by rewrite Ho.
    + intros q t p f Hq Hp. right. by exists t.
  - (* on_deallocate *)
    rewrite state_of_bind_ret. unfold on_deallocate.
    destruct d as [who|]; [|done]. case_decide; [done|].
    destruct (deallocate_pid_ok who s Hs) as (s1 & Hrun & Ht & Hsub & Hsup & Hlen & Ho).
    destruct (free_pid_ok who (mem s1)) as (r & m2 & Hrun2 & Hfree2 & Hlen2 & Ho2).
    { intros f Hf. rewrite Hlen. rewrite Ho in Hf.
      destruct Hs as (_ & Hown & _).
      destruct (pid_to_frames (mem s) !! who) as [owned|] eqn:Hw; simpl in Hf.
      - by apply (Hown who owned).
      - by apply not_elem_of_empty in Hf. }
    unfold mbind, M_bind. rewrite Hrun. unfold on_mem. rewrite Hrun2. simpl.
    apply (consistent_release s _ who); simpl.
    + done.
    + rewrite Hfree2, Ho. apply set_eq. intros x. split.
      * intros [Hx|Hx]%elem_of_union; apply elem_of_union; [by right|].
        destruct (Hsub x Hx); [by left | by right].
      * intros [Hx|Hx]%elem_of_union; apply elem_of_union; [|by left].
        right. by apply Hsup.
    + by rewrite Hlen2.
    + by rewrite Ho2, Ho.
    + done.
  - (* Pager.reset *)
    apply (consistent_fewer_entries s); try done;
      intros q t p f Hq; by rewrite lookup_empty in Hq.
  - (* on_apply_config *)
    unfold on_apply_config, mbind, M_bind, on_mem.
    destruct (decide (frame = 0)) as [->|Hf].
    + unfold reset, mbind, M_bind, modify. rewrite rebuild_zero by done.
      simpl. apply (consistent_fewer_entries s); try done.
      intros q t p f Hq Hp. by exists t.
    + destruct (reset_clamps total frame (mem s) Hf)
        as (m' & -> & Hlen & Hpos & Hfree & _ & Ho & _).
      simpl. by apply (consistent_fresh _ (length (frames m'))).
Qed.

Lemma consistent_init : consistent SIM_init.
Proof. by apply (consistent_fresh _ 16). Qed.

Lemma reachable_consistent s : reachable s → consistent s.
Proof.
  induction 1 as [|s o _ IH Hserved]; [apply consistent_init|].
  by apply consistent_step.
Qed.

Lemma reachable_exec ops : ∀ s,
  reachable s → all_served s ops = true → reachable (exec ops s).
Proof.
  induction ops as [|o ops IH]; intros s Hs Hall; [done|].
  simpl in *. apply andb_true_iff in Hall as [Ho Hall].
  apply IH; [|done]. by constructor.
Qed.

(** C1 (as amended). In every state the engine reaches from its initial
    state by served calls (a reconfiguration, an admission, [alloc_pages],
    an access that hits or finds a free frame, a teardown by
    [on_deallocate], a reset of the pager) the number of free frames plus
    the sum of the sizes of the owned-frame sets is the number of frames. *)
Theorem conservation_on_served_runs (s : Sim) :
  reachable s →
  (size (free_frames (mem s)) + owned_total (mem s))%nat = length (frames (mem s)).
Proof. intros Hs. by destruct (reachable_consistent s Hs) as (_ & _ & _ & Hc & _). Qed.

Lemma conservation_on_served_runs_witness :
  let s := exec [ApplyConfig 128 64 "FIFO"; Create "P1" 3; Access 0 0 "P1" 0;
                 Alloc (λ _, 0%nat) "P2" 1; Access 0 0 "P1" 0;
                 Deallocate (Some "P1")] SIM_init in
  reachable s
  ∧ (size (free_frames (mem s)) + owned_total (mem s))%nat = length (frames (mem s)).
Proof.
  intros s.
  assert (H : reachable s).
  { apply reachable_exec; [apply reachable_init | by vm_compute]. }
  split; [exact H | exact (conservation_on_served_runs s H)].
Defined.

(** * Further properties of the pool and the pager *)

(** ** Admission *)

Lemma blank_table_lookup n page_no :
  blank_table n !! page_no
  = if decide (0 ≤ page_no < n)%Z then Some None else None.
Proof.
  unfold blank_table. case_decide as Hp.
  - apply elem_of_list_to_map_1.
    + rewrite <- list_fmap_compose. simpl. rewrite list_fmap_id. apply NoDup_seqZ.
    + apply list_elem_of_fmap. exists page_no. split; [done|].
      apply elem_of_seqZ. lia.
  - apply not_elem_of_list_to_map_1.
    rewrite <- list_fmap_compose. simpl. rewrite list_fmap_id.
    intros Hin. apply elem_of_seqZ in Hin. lia.
Qed.

Lemma create_process_table (who : string) (num_pages : Z) (s : Sim) :
  ∃ s', create_process who num_pages s = Ok tt s'
    ∧ (∀ page_no, entry who page_no s'
         = if decide (0 ≤ page_no < num_pages)%Z then Some None else None)
    ∧ (∀ q, q ≠ who → page_tables (pager s') !! q = page_tables (pager s) !! q)
    ∧ mem s' = mem s
    ∧ fifo (pager s') = fifo (pager s)
    ∧ lru (pager s') = lru (pager s).
Proof.
  eexists. split; [reflexivity|]. simpl.
  split; [|split; [|split; [by destruct s | done]]].
  - intros page_no. unfold entry. simpl. rewrite lookup_insert_eq. simpl.
    apply blank_table_lookup.
  - intros q Hq. by rewrite lookup_insert_ne.
Qed.

(** X1. [create_process] gives the process a table with exactly the pages
    [0 .. num_pages - 1], all absent (none at all for a count of zero or
    less), whether or not the process existed; the other tables, the pool
    and the replacement bookkeeping are left as they were, so the frames a
    process owned before it is admitted again stay owned. *)
Theorem create_process_admits (who : string) (num_pages : Z) (s : Sim) :
  ∃ s', create_process who num_pages s = Ok tt s'
    ∧ (∀ page_no, entry who page_no s'
         = if decide (0 ≤ page_no < num_pages)%Z then Some None else None)
    ∧ (∀ q, q ≠ who → page_tables (pager s') !! q = page_tables (pager s) !! q)
    ∧ mem s' = mem s
    ∧ fifo (pager s') = fifo (pager s)
    ∧ lru (pager s') = lru (pager s).
Proof. exact (create_process_table who num_pages s). Qed.

(** ** Reconfiguration *)

Lemma used_fresh n :
  filter (λ f, is_free f = false) (fresh_frames n) = [].
Proof.
  unfold fresh_frames. generalize 0%nat. induction n as [|n IH]; intros b; [done|].
  simpl. rewrite filter_cons_False by done. apply IH.
Qed.

(** X2. With a frame size other than zero, [on_apply_config] yields one
    and the same engine whatever state it starts from: configuring twice
    is configuring once. The pool has [n = max(1, total // frame)] frames,
    frame [i] holding index [i], no owner and no label; the free set is
    exactly the indices [0 .. n - 1]; the two sizes are stored, the three
    counters are zero, and no owner set, page table or replacement
    bookkeeping is left. *)
Theorem on_apply_config_forgets (total frame : Z) (algo : string) :
  frame ≠ 0 →
  let n := Z.to_nat (Z.max 1 (total / frame)) in
  ∃ s', (∀ s, on_apply_config total frame algo s = Ok tt s')
    ∧ used_and_total (mem s') = (0%nat, n)
    ∧ size (free_frames (mem s')) = n
    ∧ (∀ i, i ∈ free_frames (mem s') ↔ (i < n)%nat)
    ∧ (∀ i, frames (mem s') !! i
            = if decide (i < n)%nat then Some (mkFrame i None None) else None)
    ∧ total_kb (mem s') = total ∧ frame_kb (mem s') = frame
    ∧ page_faults (mem s') = 0%nat
    ∧ allocations (mem s') = 0%nat
    ∧ deallocations (mem s') = 0%nat
    ∧ pid_to_frames (mem s') = ∅
    ∧ pager s' = Pager_init algo.
Proof.
  intros Hf n.
  exists (mkSim (mkMem total frame (fresh_frames n) (list_to_set (seq 0 n)) ∅ 0 0 0)
                (Pager_init algo)).
  split.
  { intros s. unfold on_apply_config, on_mem, reset.
    unfold mbind, M_bind, modify. by rewrite rebuild_ok. }
  cbn [mem pager free_frames frames total_kb frame_kb page_faults allocations
       deallocations pid_to_frames].
  split.
  { unfold used_and_total. cbn [frames]. by rewrite used_fresh, fresh_frames_length. }
  split; [by rewrite size_list_to_set, length_seq by apply NoDup_seq|].
  split.
  { intros i. rewrite elem_of_list_to_set, elem_of_seq. lia. }
  split; [|done].
  intros i. case_decide as Hi; [by apply fresh_frames_lookup|].
  apply lookup_ge_None. rewrite fresh_frames_length. lia.
Qed.

Lemma on_apply_config_forgets_witness :
  (64 : Z) ≠ 0
  ∧ let n := Z.to_nat (Z.max 1 (128 / 64)) in
    ∃ s', (∀ s, on_apply_config 128 64 "LRU" s = Ok tt s')
      ∧ used_and_total (mem s') = (0%nat, n)
      ∧ size (free_frames (mem s')) = n
      ∧ (∀ i, i ∈ free_frames (mem s') ↔ (i < n)%nat)
      ∧ (∀ i, frames (mem s') !! i
              = if decide (i < n)%nat then Some (mkFrame i None None) else None)
      ∧ total_kb (mem s') = 128 ∧ frame_kb (mem s') = 64
      ∧ page_faults (mem s') = 0%nat
      ∧ allocations (mem s') = 0%nat
      ∧ deallocations (mem s') = 0%nat
      ∧ pid_to_frames (mem s') = ∅
      ∧ pager s' = Pager_init "LRU".
Proof.
  assert (H : (64 : Z) ≠ 0) by lia.
  split; [exact H | exact (on_apply_config_forgets 128 64 "LRU" H)].
Defined.

(** ** The shape of the frame array *)

Global Instance same_length_mem_po : PreOrder same_length_mem.
Proof. split; [done | intros x y z; unfold same_length_mem; congruence]. Qed.
Global Instance same_length_po : PreOrder same_length.
Proof. split; [done | intros x y z; unfold same_length; congruence]. Qed.

Lemma set_frame_length fidx o l : keeps same_length_mem (set_frame fidx o l).
Proof.
  intros m. unfold set_frame, same_length_mem.
  destruct (frames m !! fidx); simpl; [by rewrite length_insert | done].
Qed.

Lemma pop_free_length k : keeps same_length_mem (pop_free k).
Proof.
  intros m. unfold pop_free.
  by destruct (set_pop k (free_frames m)) as [[??]|].
Qed.

Lemma release_frame_length fidx : keeps same_length_mem (release_frame fidx).
Proof.
  unfold release_frame. repeat keeps_step. apply set_frame_length.
Qed.

Lemma run_length o : rebuilds o = false → keeps same_length (run o).
Proof.
  intros Hr. destruct (is_access o) eqn:Ha.
  - destruct o; try done. simpl. repeat keeps_step.
    apply (keeps_access_page same_length_mem same_length);
      first [ apply _ | done
            | auto using set_frame_length, pop_free_length, release_frame_length ].
  - apply (keeps_run same_length_mem same_length);
      first [ apply _ | done
            | auto using set_frame_length, pop_free_length, release_frame_length ].
Qed.

(** X3. Between two rebuilds of the pool the frame array keeps its
    length: no admission, access, eviction, allocation or teardown, failed
    or not, adds or removes a frame. *)
Theorem frame_count_fixed (ops : list op) (s : Sim) :
  Forall (λ o, rebuilds o = false) ops →
  length (frames (mem (exec ops s))) = length (frames (mem s)).
Proof.
  intros Hops. revert s. induction Hops as [|o ops Ho _ IH]; intros s; [done|].
  simpl. unfold exec in IH. rewrite IH. by apply run_length.
Qed.

Lemma frame_count_fixed_witness :
  let ops := [Create "P1" 2; Access 0 0 "P1" 0; Access 0 0 "P1" 1;
              Alloc (λ _, 0%nat) "P2" 20; DeallocatePid "P1"; FreePid "P1"] in
  Forall (λ o, rebuilds o = false) ops
  ∧ length (frames (mem (exec ops SIM_init))) = length (frames (mem SIM_init)).
Proof.
  intros ops.
  assert (H : Forall (λ o, rebuilds o = false) ops) by (repeat constructor).
  split; [exact H | exact (frame_count_fixed ops SIM_init H)].
Defined.

Lemma set_frame_indexed fidx o l : keeps (stays frames_indexed) (set_frame fidx o l).
Proof.
  intros m Hm. unfold set_frame. destruct (frames m !! fidx) as [f|] eqn:Hf; [|done].
  intros i g Hg. simpl in *.
  destruct (decide (fidx = i)) as [->|Hne].
  - rewrite list_lookup_insert_eq in Hg by (by eapply lookup_lt_Some).
    injection Hg as <-. simpl. by apply Hm.
  - rewrite list_lookup_insert_ne in Hg by done. by apply Hm.
Qed.

Lemma pop_free_indexed k : keeps (stays frames_indexed) (pop_free k).
Proof.
  intros m Hm. unfold pop_free.
  by destruct (set_pop k (free_frames m)) as [[??]|].
Qed.

Lemma release_frame_indexed fidx : keeps (stays frames_indexed) (release_frame fidx).
Proof.
  unfold release_frame. repeat keeps_step; [apply set_frame_indexed|].
  by intros H.
Qed.

Lemma rebuild_indexed : keeps (stays frames_indexed) _rebuild.
Proof.
  intros m Hm. unfold _rebuild. case_decide; [done|].
  intros i f Hf. simpl in *.
  assert (Hlt : (i < Z.to_nat (Z.max 1 (total_kb m / frame_kb m)))%nat).
  { apply lookup_lt_Some in Hf. by rewrite fresh_frames_length in Hf. }
  rewrite fresh_frames_lookup in Hf by done. by injection Hf as <-.
Qed.

Lemma run_indexed o : keeps (stays (λ s, frames_indexed (mem s))) (run o).
Proof.
  pose proof set_frame_indexed. pose proof pop_free_indexed.
  pose proof release_frame_indexed.
  assert (∀ s m', stays frames_indexed (mem s) m'
                  → stays (λ s, frames_indexed (mem s)) s (with_mem m' s)) by done.
  destruct (rebuilds o) eqn:Hr; [|destruct (is_access o) eqn:Ha].
  - destruct o; try done; simpl; unfold on_apply_config, reset; repeat keeps_step;
      try (intros Hk; exact Hk);
      eapply (keeps_on_mem (stays frames_indexed)); try done;
      repeat keeps_step; try (intros Hk; exact Hk); apply rebuild_indexed.
  - destruct o; try done; simpl. repeat keeps_step.
    apply (keeps_access_page (stays frames_indexed));
      first [ apply _ | assumption | by intros ?? Hk
            | unfold bump_page_faults; apply keeps_modify; by intros ? Hk ].
  - apply (keeps_run (stays frames_indexed));
      first [ apply _ | assumption | by intros ?? Hk | by intros ??? Hk ].
Qed.

(** X4. Whatever calls are made, in whatever order and whether they
    return or raise, every index in the free set stays an index of the
    frame array and every frame keeps its own position as [idx]. *)
Theorem pool_shape_kept (ops : list op) (s : Sim) :
  free_in_range (mem s) → frames_indexed (mem s) →
  free_in_range (mem (exec ops s)) ∧ frames_indexed (mem (exec ops s)).
Proof.
  intros Hr Hi. split; [by apply free_in_range_exec|].
  revert s Hr Hi. induction ops as [|o ops IH]; intros s Hr Hi; [done|].
  simpl. apply IH.
  - by apply (run_range o s).
  - by apply (run_indexed o s).
Qed.

Lemma frames_indexed_init : frames_indexed (mem SIM_init).
Proof.
  intros i f Hf. change (fresh_frames 16 !! i = Some f) in Hf.
  assert (Hlt : (i < 16)%nat).
  { apply lookup_lt_Some in Hf. by rewrite fresh_frames_length in Hf. }
  rewrite fresh_frames_lookup in Hf by done. by injection Hf as <-.
Qed.

Lemma pool_shape_kept_witness :
  let ops := [Access 0 0 "P1" 0; Reset (Some 64) (Some 64); Access 0 0 "P1" 5;
              DeallocatePid "P1"; ApplyConfig 10 0 "LRU"; FreePid "P1"] in
  free_in_range (mem SIM_init) ∧ frames_indexed (mem SIM_init)
  ∧ free_in_range (mem (exec ops SIM_init))
  ∧ frames_indexed (mem (exec ops SIM_init)).
Proof.
  intros ops. split; [exact free_in_range_init|].
  split; [exact frames_indexed_init|].
  exact (pool_shape_kept ops SIM_init free_in_range_init frames_indexed_init).
Defined.

(** ** Allocation and release in the pool *)

Lemma alloc_loop_full ks who n : ∀ i chosen m,
  free_in_range m → (n ≤ size (free_frames m))%nat →
  ∃ l m', alloc_loop ks who i n chosen m = Ok (chosen ++ l)%list m'
    ∧ length l = n ∧ NoDup l
    ∧ (∀ x, x ∈ l → x ∈ free_frames m)
    ∧ free_frames m' = free_frames m ∖ list_to_set l
    ∧ (∀ j, frames m' !! j
            = if decide (j ∈ l) then granted who <$> frames m !! j
              else frames m !! j)
    ∧ pid_to_frames m' = pid_to_frames m
    ∧ page_faults m' = page_faults m
    ∧ allocations m' = allocations m
    ∧ deallocations m' = deallocations m.
Proof.
  induction n as [|n IH]; intros i chosen m Hm Hn; simpl.
  - exists [], m. rewrite app_nil_r. repeat split; try done.
    + constructor.
    + intros x Hx. by apply not_elem_of_nil in Hx.
    + simpl. set_solver.
  - assert (Hne : free_frames m ≠ ∅).
    { intros He. rewrite He, size_empty in Hn. lia. }
    destruct (set_pop_nonempty (ks i) _ Hne) as (x & Hx & Hpop).
    pose (m1 := with_free (free_frames m ∖ {[ x ]}) m).
    destruct (set_frame_in_range x (Some who) None m1) as (f & Hf & Hset).
    { simpl. by apply Hm. }
    set (m2 := with_frames _ m1) in Hset.
    assert (Hm2 : free_in_range m2).
    { intros j Hj. simpl in *. rewrite length_insert. apply Hm.
      by apply elem_of_difference in Hj as [Hj _]. }
    assert (Hsz : (n ≤ size (free_frames m2))%nat).
    { simpl. rewrite size_remove by done. lia. }
    destruct (IH (S i) (chosen ++ [x])%list m2 Hm2 Hsz)
      as (l & m' & Hrun & Hlen & Hnd & Hsub & Hfree & Hfr & Hown & Hpf & Hal & Hde).
    assert (Hxl : x ∉ l).
    { intros Hxl. apply Hsub in Hxl. simpl in Hxl.
      apply elem_of_difference in Hxl as [_ Hxl]. by apply Hxl, elem_of_singleton. }
    exists (x :: l), m'. unfold mbind, M_bind, pop_free. rewrite Hpop.
    fold m1. rewrite Hset, Hrun, <- app_assoc. simpl in *.
    split; [done|]. split; [by rewrite Hlen|]. split; [by constructor|].
    split.
    { intros y Hy. apply elem_of_cons in Hy as [->|Hy]; [done|].
      apply Hsub in Hy. by apply elem_of_difference in Hy as [Hy _]. }
    split.
    { rewrite Hfree. apply set_eq. intros y.
      rewrite !elem_of_difference, elem_of_union, elem_of_singleton.
      tauto. }
    split; [|done].
    intros j. rewrite Hfr. destruct (decide (j = x)) as [->|Hjx].
    + rewrite decide_False by done. rewrite decide_True by left.
      rewrite list_lookup_insert_eq by (by eapply lookup_lt_Some).
      simpl in Hf. by rewrite Hf.
    + rewrite list_lookup_insert_ne by done.
      destruct (decide (j ∈ l)) as [Hjl|Hjl].
      * by rewrite decide_True by (by right).
      * rewrite decide_False; [done|].
        intros [?|?]%elem_of_cons; done.
Qed.

Lemma alloc_pages_full (ks : nat → nat) (who : string) (num_pages : Z)
    (m : MemoryManager) :
  free_in_range m → (num_pages ≤ Z.of_nat (size (free_frames m)))%Z →
  ∃ l m', alloc_pages ks who num_pages m
          = Ok (true, "Allocated " +:+ pretty num_pages +:+ " frames to " +:+ who) m'
    ∧ length l = Z.to_nat num_pages ∧ NoDup l
    ∧ (∀ x, x ∈ l → x ∈ free_frames m)
    ∧ free_frames m' = free_frames m ∖ list_to_set l
    ∧ pid_to_frames m'
      = <[who := default ∅ (pid_to_frames m !! who) ∪ list_to_set l]> (pid_to_frames m)
    ∧ (∀ j, frames m' !! j
            = if decide (j ∈ l) then granted who <$> frames m !! j
              else frames m !! j)
    ∧ page_faults m' = page_faults m
    ∧ allocations m' = S (allocations m)
    ∧ deallocations m' = deallocations m.
Proof.
  intros Hm Hle. unfold alloc_pages, mbind, M_bind, get.
  case_decide; [lia|].
  destruct (alloc_loop_full ks who (Z.to_nat num_pages) 0 [] m Hm)
    as (l & m' & Hrun & Hlen & Hnd & Hsub & Hfree & Hfr & Hown & Hpf & Hal & Hde);
    [lia|].
  rewrite Hrun. simpl. eexists l, _. split; [reflexivity|]. simpl.
  rewrite Hown, Hal. unfold setdefault_update.
  repeat split; try done. lia.
Qed.

(** X5. A granted request gives the process exactly [num_pages] distinct
    frames that were free (none for a count of zero or less): they leave
    the free set, join the frames the process already had and are marked
    with its id and no label; every other frame and the page-fault and
    deallocation counters are untouched, and [allocations] grows by one. *)
Theorem alloc_pages_grants (ks : nat → nat) (who : string) (num_pages : Z)
    (m : MemoryManager) :
  free_in_range m → (num_pages ≤ Z.of_nat (size (free_frames m)))%Z →
  ∃ l m', alloc_pages ks who num_pages m
          = Ok (true, "Allocated " +:+ pretty num_pages +:+ " frames to " +:+ who) m'
    ∧ length l = Z.to_nat num_pages ∧ NoDup l
    ∧ (∀ x, x ∈ l → x ∈ free_frames m)
    ∧ free_frames m' = free_frames m ∖ list_to_set l
    ∧ pid_to_frames m'
      = <[who := default ∅ (pid_to_frames m !! who) ∪ list_to_set l]> (pid_to_frames m)
    ∧ (∀ j, frames m' !! j
            = if decide (j ∈ l) then granted who <$> frames m !! j
              else frames m !! j)
    ∧ page_faults m' = page_faults m
    ∧ allocations m' = S (allocations m)
    ∧ deallocations m' = deallocations m.
Proof. exact (alloc_pages_full ks who num_pages m). Qed.

Lemma alloc_pages_grants_witness :
  free_in_range (mem SIM_init)
  ∧ (3 ≤ Z.of_nat (size (free_frames (mem SIM_init))))%Z
  ∧ ∃ l m', alloc_pages (λ i, i) "P1" 3 (mem SIM_init)
            = Ok (true, "Allocated " +:+ pretty (3 : Z) +:+ " frames to " +:+ "P1") m'
      ∧ length l = Z.to_nat 3 ∧ NoDup l
      ∧ (∀ x, x ∈ l → x ∈ free_frames (mem SIM_init))
      ∧ free_frames m' = free_frames (mem SIM_init) ∖ list_to_set l
      ∧ pid_to_frames m'
        = <[ "P1" := default ∅ (pid_to_frames (mem SIM_init) !! "P1") ∪ list_to_set l]>
            (pid_to_frames (mem SIM_init))
      ∧ (∀ j, frames m' !! j
              = if decide (j ∈ l) then granted "P1" <$> frames (mem SIM_init) !! j
                else frames (mem SIM_init) !! j)
      ∧ page_faults m' = page_faults (mem SIM_init)
      ∧ allocations m' = S (allocations (mem SIM_init))
      ∧ deallocations m' = deallocations (mem SIM_init).
Proof.
  assert (H : (3 ≤ Z.of_nat (size (free_frames (mem SIM_init))))%Z)
    by (by vm_compute).
  split; [exact free_in_range_init|]. split; [exact H|].
  exact (alloc_pages_grants (λ i, i) "P1" 3 (mem SIM_init) free_in_range_init H).
Defined.

Lemma for_each_release_full (l : list nat) : ∀ m,
  (∀ f, f ∈ l → (f < length (frames m))%nat) →
  ∃ m', for_each l release_frame m = Ok tt m'
    ∧ free_frames m' = list_to_set l ∪ free_frames m
    ∧ (∀ j, frames m' !! j
            = if decide (j ∈ l) then cleared <$> frames m !! j
              else frames m !! j)
    ∧ pid_to_frames m' = pid_to_frames m
    ∧ page_faults m' = page_faults m
    ∧ allocations m' = allocations m
    ∧ deallocations m' = deallocations m.
Proof.
  induction l as [|x l IH]; intros m Hl.
  - exists m. repeat split; try done. simpl. set_solver.
  - destruct (set_frame_in_range x None None m) as (fr & Hfr & Hset).
    { apply Hl. left. }
    set (m1 := with_free ({[ x ]} ∪ free_frames m)
                 (with_frames (<[x := mkFrame (idx fr) None None]> (frames m)) m)).
    destruct (IH m1) as (m' & Hrun & Hfree & Hfrs & Hown & Hpf & Hal & Hde).
    { intros f Hf. simpl. rewrite length_insert. apply Hl. by right. }
    exists m'. simpl. unfold mbind, M_bind, release_frame at 1, mbind, M_bind.
    rewrite Hset. simpl. fold m1. rewrite Hrun.
    split; [done|]. split.
    { rewrite Hfree. simpl. apply set_eq. intros y.
      rewrite !elem_of_union, elem_of_singleton. tauto. }
    split; [|done].
    intros j. rewrite Hfrs. simpl. destruct (decide (j = x)) as [->|Hjx].
    + rewrite (decide_True (P := x ∈ x :: l)) by left.
      rewrite list_lookup_insert_eq by (by eapply lookup_lt_Some).
      rewrite Hfr. by case_decide.
    + rewrite list_lookup_insert_ne by done.
      destruct (decide (j ∈ l)) as [Hjl|Hjl].
      * by rewrite decide_True by (by right).
      * rewrite decide_False; [done|].
        intros [?|?]%elem_of_cons; done.
Qed.

Lemma free_pid_full (who : string) (m : MemoryManager) :
  (∀ owned f, pid_to_frames m !! who = Some owned → f ∈ owned →
     (f < length (frames m))%nat) →
  match pid_to_frames m !! who with
  | None => free_pid who m = Ok (false, "PID not found") m
  | Some owned =>
      ∃ m', free_pid who m = Ok (true, "Deallocated " +:+ who) m'
        ∧ free_frames m' = owned ∪ free_frames m
        ∧ pid_to_frames m' = delete who (pid_to_frames m)
        ∧ (∀ j, frames m' !! j
                = if decide (j ∈ owned) then cleared <$> frames m !! j
                  else frames m !! j)
        ∧ page_faults m' = page_faults m
        ∧ allocations m' = allocations m
        ∧ deallocations m' = S (deallocations m)
        ∧ free_pid who m' = Ok (false, "PID not found") m'
  end.
Proof.
  intros Hrange.
  destruct (pid_to_frames m !! who) as [owned|] eqn:Hw.
  2: { unfold free_pid, mbind, M_bind, get. by rewrite Hw. }
  destruct (for_each_release_full (elements owned) m)
    as (m' & Hrun & Hfree & Hfrs & Hown & Hpf & Hal & Hde).
  { intros f Hf. apply (Hrange owned); [done|]. by apply elem_of_elements. }
  unfold free_pid at 1, mbind, M_bind, get. rewrite Hw, Hrun. simpl.
  eexists. split; [reflexivity|]. simpl.
  rewrite Hfree, Hown, Hde, list_to_set_elements_L.
  repeat split; try done.
  - intros j. rewrite Hfrs. destruct (decide (j ∈ owned)) as [Hj|Hj].
    + by rewrite decide_True by (by apply elem_of_elements).
    + rewrite decide_False; [done|]. by rewrite elem_of_elements.
  - lia.
  - unfold free_pid, mbind, M_bind, get. simpl.
    by rewrite lookup_delete_eq.
Qed.

(** X6. [free_pid] answers "PID not found" and changes nothing for a
    process without an owner set. For a process with one (whose frames are
    frames of the array) it frees exactly the frames of that set, clears
    their owner and label, drops the set, adds one to [deallocations] and
    leaves every other frame and counter alone; asked again, it answers
    "PID not found". *)
Theorem free_pid_releases (who : string) (m : MemoryManager) :
  (∀ owned f, pid_to_frames m !! who = Some owned → f ∈ owned →
     (f < length (frames m))%nat) →
  match pid_to_frames m !! who with
  | None => free_pid who m = Ok (false, "PID not found") m
  | Some owned =>
      ∃ m', free_pid who m = Ok (true, "Deallocated " +:+ who) m'
        ∧ free_frames m' = owned ∪ free_frames m
        ∧ pid_to_frames m' = delete who (pid_to_frames m)
        ∧ (∀ j, frames m' !! j
                = if decide (j ∈ owned) then cleared <$> frames m !! j
                  else frames m !! j)
        ∧ page_faults m' = page_faults m
        ∧ allocations m' = allocations m
        ∧ deallocations m' = S (deallocations m)
        ∧ free_pid who m' = Ok (false, "PID not found") m'
  end.
Proof. exact (free_pid_full who m). Qed.

Lemma same_domain_length {A} (l1 l2 : list A) :
  (∀ j, is_Some (l1 !! j) ↔ is_Some (l2 !! j)) → length l1 = length l2.
Proof.
  intros H. apply Nat.le_antisymm; apply Nat.nlt_ge; intros Hlt.
  - specialize (H (length l2)). rewrite !lookup_lt_is_Some in H. lia.
  - specialize (H (length l1)). rewrite !lookup_lt_is_Some in H. lia.
Qed.

(** X7. A process without frames that is granted a request and then
    released leaves the free set and the owner sets exactly as they were;
    only the two event counters have grown by one. *)
Theorem alloc_then_free_restores (ks : nat → nat) (who : string)
    (num_pages : Z) (m : MemoryManager) :
  free_in_range m → pid_to_frames m !! who = None →
  (num_pages ≤ Z.of_nat (size (free_frames m)))%Z →
  ∃ msg m1 m2,
    alloc_pages ks who num_pages m = Ok (true, msg) m1
    ∧ free_pid who m1 = Ok (true, "Deallocated " +:+ who) m2
    ∧ free_frames m2 = free_frames m
    ∧ pid_to_frames m2 = pid_to_frames m
    ∧ length (frames m2) = length (frames m)
    ∧ page_faults m2 = page_faults m
    ∧ allocations m2 = S (allocations m)
    ∧ deallocations m2 = S (deallocations m).
Proof.
  intros Hm Hwho Hle.
  destruct (alloc_pages_full ks who num_pages m Hm Hle)
    as (l & m1 & Hrun & Hlen & Hnd & Hsub & Hfree & Hown & Hfrs & Hpf & Hal & Hde).
  assert (Hlook : pid_to_frames m1 !! who = Some (list_to_set l)).
  { rewrite Hown, lookup_insert_eq, Hwho. simpl. by rewrite union_empty_l_L. }
  assert (Hlen1 : ∀ j, is_Some (frames m1 !! j) ↔ is_Some (frames m !! j)).
  { intros j. rewrite Hfrs. case_decide; [|done]. by rewrite fmap_is_Some. }
  pose proof (free_pid_full who m1) as Hfp. rewrite Hlook in Hfp.
  destruct Hfp as (m2 & Hrun2 & Hfree2 & Hown2 & Hfrs2 & Hpf2 & Hal2 & Hde2 & _).
  { intros owned f [= <-] Hf. apply elem_of_list_to_set in Hf.
    apply lookup_lt_is_Some, Hlen1, lookup_lt_is_Some. by apply Hm, Hsub. }
  eexists _, m1, m2. split; [exact Hrun|]. split; [exact Hrun2|].
  split; [|split; [|split; [|split; [|split]]]].
  - rewrite Hfree2, Hfree. apply set_eq. intros y.
    rewrite elem_of_union, elem_of_difference, elem_of_list_to_set.
    split; [intros [Hy|[Hy _]]; auto | intros Hy].
    destruct (decide (y ∈ l)); [by left | by right].
  - rewrite Hown2, Hown. by apply delete_insert_id.
  - apply same_domain_length. intros j. rewrite Hfrs2, <- Hlen1.
    case_decide; [by rewrite fmap_is_Some | done].
  - by rewrite Hpf2.
  - by rewrite Hal2.
  - by rewrite Hde2, Hde.
Qed.

Lemma alloc_then_free_restores_witness :
  free_in_range (mem SIM_init) ∧ pid_to_frames (mem SIM_init) !! "P1" = None
  ∧ (16 ≤ Z.of_nat (size (free_frames (mem SIM_init))))%Z
  ∧ ∃ msg m1 m2,
      alloc_pages (λ i, i) "P1" 16 (mem SIM_init) = Ok (true, msg) m1
      ∧ free_pid "P1" m1 = Ok (true, "Deallocated " +:+ "P1") m2
      ∧ free_frames m2 = free_frames (mem SIM_init)
      ∧ pid_to_frames m2 = pid_to_frames (mem SIM_init)
      ∧ length (frames m2) = length (frames (mem SIM_init))
      ∧ page_faults m2 = page_faults (mem SIM_init)
      ∧ allocations m2 = S (allocations (mem SIM_init))
      ∧ deallocations m2 = S (deallocations (mem SIM_init)).
Proof.
  assert (H1 : pid_to_frames (mem SIM_init) !! "P1" = None) by reflexivity.
  assert (H2 : (16 ≤ Z.of_nat (size (free_frames (mem SIM_init))))%Z)
    by (by vm_compute).
  split; [exact free_in_range_init|]. split; [exact H1|]. split; [exact H2|].
  exact (alloc_then_free_restores (λ i, i) "P1" 16 (mem SIM_init)
           free_in_range_init H1 H2).
Defined.

Lemma free_pid_releases_witness :
  let m := mem (exec [Alloc (λ i, i) "P1" 2] SIM_init) in
  (∀ owned f, pid_to_frames m !! "P1" = Some owned → f ∈ owned →
     (f < length (frames m))%nat)
  ∧ match pid_to_frames m !! "P1" with
    | None => free_pid "P1" m = Ok (false, "PID not found") m
    | Some owned =>
        ∃ m', free_pid "P1" m = Ok (true, "Deallocated " +:+ "P1") m'
          ∧ free_frames m' = owned ∪ free_frames m
          ∧ pid_to_frames m' = delete "P1" (pid_to_frames m)
          ∧ (∀ j, frames m' !! j
                  = if decide (j ∈ owned) then cleared <$> frames m !! j
                    else frames m !! j)
          ∧ page_faults m' = page_faults m
          ∧ allocations m' = allocations m
          ∧ deallocations m' = S (deallocations m)
          ∧ free_pid "P1" m' = Ok (false, "PID not found") m'
    end.
Proof.
  intros m.
  assert (H : ∀ owned f, pid_to_frames m !! "P1" = Some owned → f ∈ owned →
                (f < length (frames m))%nat).
  { assert (Hr : reachable (exec [Alloc (λ i, i) "P1" 2] SIM_init))
      by (apply reachable_exec; [apply reachable_init | by vm_compute]).
    destruct (reachable_consistent _ Hr) as (_ & Hown & _).
    intros owned f Hw Hf. by destruct (Hown "P1" owned f Hw Hf). }
  split; [exact H | exact (free_pid_releases "P1" m H)].
Defined.

(** ** Teardown *)

Lemma lru_purge_spec who key l :
  key ∈ lru_purge who l ↔ key ∈ l ∧ key.1 ≠ who.
Proof. unfold lru_purge. rewrite list_elem_of_filter. tauto. Qed.

(** X8. [deallocate_pid] does nothing for a process without a page
    table. For a process with one (whose resident frames are frames of the
    array) it puts the frames of its resident pages into the free set,
    drops the table and removes every LRU key of the process while keeping
    the other keys in their order; the FIFO queue and the owner sets are
    not touched. A second call finds no table and does nothing. *)
Theorem deallocate_pid_purges (who : string) (s : Sim) :
  (∀ t page_no f, page_tables (pager s) !! who = Some t →
     t !! page_no = Some (Some f) → (f < length (frames (mem s)))%nat) →
  ∃ s', deallocate_pid who s = Ok tt s'
    ∧ (page_tables (pager s) !! who = None → s' = s)
    ∧ page_tables (pager s') = delete who (page_tables (pager s))
    ∧ (is_Some (page_tables (pager s) !! who) →
         lru (pager s') = filter (λ key, key.1 ≠ who) (lru (pager s)))
    ∧ fifo (pager s') = fifo (pager s)
    ∧ pid_to_frames (mem s') = pid_to_frames (mem s)
    ∧ (∀ x, x ∈ free_frames (mem s')
            ↔ x ∈ free_frames (mem s)
              ∨ ∃ t page_no, page_tables (pager s) !! who = Some t
                             ∧ t !! page_no = Some (Some x))
    ∧ deallocate_pid who s' = Ok tt s'.
Proof.
  intros Hrange. unfold deallocate_pid at 1, mbind, M_bind, get.
  destruct (page_tables (pager s) !! who) as [t|] eqn:Ht.
  - destruct (for_each_release_entry_ok (map_to_list t) s)
      as (s1 & Hrun & Hpg & Hfree & Hlen & Ho).
    { intros p f Hin. apply elem_of_map_to_list in Hin. by apply (Hrange t p). }
    rewrite Hrun. eexists. split; [reflexivity|]. simpl. rewrite Hpg.
    split; [done|]. split; [done|]. split; [done|]. split; [done|].
    split; [done|]. split.
    + intros x. rewrite Hfree. split.
      * intros [Hx|[p Hp]]; [by left|]. right. exists t, p.
        split; [done|]. by apply elem_of_map_to_list.
      * intros [Hx|(t' & p & [= <-] & Hp)]; [by left|]. right. exists p.
        by apply elem_of_map_to_list.
    + unfold deallocate_pid, mbind, M_bind, get. simpl.
      by rewrite lookup_delete_eq.
  - exists s. split; [done|]. split; [done|].
    split; [symmetry; by apply delete_id|]. split; [by intros [? ?]|].
    split; [done|]. split; [done|]. split.
    + intros x. split; [by left|]. intros [Hx|(t & p & Ht' & _)]; done.
    + unfold deallocate_pid, mbind, M_bind, get. by rewrite Ht.
Qed.

Lemma deallocate_pid_purges_witness :
  let s := exec [ApplyConfig 128 64 "LRU"; Access 0 0 "P1" 0; Access 0 0 "P2" 0]
                SIM_init in
  (∀ t page_no f, page_tables (pager s) !! "P1" = Some t →
     t !! page_no = Some (Some f) → (f < length (frames (mem s)))%nat)
  ∧ ∃ s', deallocate_pid "P1" s = Ok tt s'
      ∧ (page_tables (pager s) !! "P1" = None → s' = s)
      ∧ page_tables (pager s') = delete "P1" (page_tables (pager s))
      ∧ (is_Some (page_tables (pager s) !! "P1") →
           lru (pager s') = filter (λ key, key.1 ≠ "P1") (lru (pager s)))
      ∧ fifo (pager s') = fifo (pager s)
      ∧ pid_to_frames (mem s') = pid_to_frames (mem s)
      ∧ (∀ x, x ∈ free_frames (mem s')
              ↔ x ∈ free_frames (mem s)
                ∨ ∃ t page_no, page_tables (pager s) !! "P1" = Some t
                               ∧ t !! page_no = Some (Some x))
      ∧ deallocate_pid "P1" s' = Ok tt s'.
Proof.
  intros s.
  assert (H : ∀ t page_no f, page_tables (pager s) !! "P1" = Some t →
                t !! page_no = Some (Some f) → (f < length (frames (mem s)))%nat).
  { assert (Hr : reachable s)
      by (apply reachable_exec; [apply reachable_init | by vm_compute]).
    destruct (reachable_consistent _ Hr) as (_ & Hown & _ & _ & Hlink).
    intros t page_no f Ht Hp.
    destruct (Hlink "P1" t page_no f Ht Hp) as (owned & Hw & Hf).
    by destruct (Hown "P1" owned f Hw Hf). }
  split; [exact H | exact (deallocate_pid_purges "P1" s H)].
Defined.

Lemma on_deallocate_ok who s :
  consistent s → who ≠ "" →
  ∃ s', on_deallocate (Some who) s = Ok true s'
    ∧ free_frames (mem s')
      = free_frames (mem s) ∪ default ∅ (pid_to_frames (mem s) !! who)
    ∧ length (frames (mem s')) = length (frames (mem s))
    ∧ pid_to_frames (mem s') = delete who (pid_to_frames (mem s))
    ∧ page_tables (pager s') = delete who (page_tables (pager s)).
Proof.
  intros Hs Hwho. unfold on_deallocate. case_decide; [done|].
  destruct (deallocate_pid_ok who s Hs) as (s1 & Hrun & Ht & Hsub & Hsup & Hlen & Ho).
  destruct (free_pid_ok who (mem s1)) as (r & m2 & Hrun2 & Hfree2 & Hlen2 & Ho2).
  { intros f Hf. rewrite Hlen. rewrite Ho in Hf.
    destruct Hs as (_ & Hown & _).
    destruct (pid_to_frames (mem s) !! who) as [owned|] eqn:Hw; simpl in Hf.
    - by apply (Hown who owned).
    - by apply not_elem_of_empty in Hf. }
  unfold mbind, M_bind. rewrite Hrun. unfold on_mem. rewrite Hrun2. simpl.
  eexists. split; [reflexivity|]. simpl.
  split; [|split; [by rewrite Hlen2 | split; [by rewrite Ho2, Ho | done]]].
  rewrite Hfree2, Ho. apply set_eq. intros x. split.
  - intros [Hx|Hx]%elem_of_union; apply elem_of_union; [by right|].
    destruct (Hsub x Hx); [by left | by right].
  - intros [Hx|Hx]%elem_of_union; apply elem_of_union; [|by left].
    right. by apply Hsup.
Qed.

(** X9. On a consistent engine the handler's teardown of a process
    succeeds, returns exactly the frames of its owner set to the free set,
    drops its owner set and its page table and leaves the engine
    consistent. If no other process owns frames the whole pool is free
    again, and a request for as many frames as the pool has is granted. *)
Theorem teardown_returns_frames (who : string) (s : Sim) :
  consistent s → who ≠ "" →
  ∃ s', on_deallocate (Some who) s = Ok true s'
    ∧ free_frames (mem s')
      = free_frames (mem s) ∪ default ∅ (pid_to_frames (mem s) !! who)
    ∧ pid_to_frames (mem s') = delete who (pid_to_frames (mem s))
    ∧ page_tables (pager s') = delete who (page_tables (pager s))
    ∧ consistent s'
    ∧ ((∀ q, q ≠ who → pid_to_frames (mem s) !! q = None) →
       ∀ ks q, ∃ msg m',
         alloc_pages ks q (Z.of_nat (length (frames (mem s')))) (mem s')
         = Ok (true, msg) m').
Proof.
  intros Hs Hwho.
  destruct (on_deallocate_ok who s Hs Hwho) as (s' & Hrun & Hfree & Hlen & Ho & Ht).
  assert (Hs' : consistent s') by (by apply (consistent_release s s' who)).
  exists s'. split; [done|]. split; [done|]. split; [done|]. split; [done|].
  split; [done|]. intros Hsole ks q.
  assert (Hempty : pid_to_frames (mem s') = ∅).
  { apply map_empty. intros p. rewrite Ho.
    destruct (decide (p = who)) as [->|Hp]; [apply lookup_delete_eq|].
    rewrite lookup_delete_ne by done. by apply Hsole. }
  destruct Hs' as (Hrange & _ & _ & Hcons & _).
  unfold conserved in Hcons. rewrite owned_total_empty in Hcons by done.
  destruct (alloc_pages_full ks q (Z.of_nat (length (frames (mem s')))) (mem s') Hrange)
    as (l & m' & Hrun' & _); [lia|].
  by eexists _, m'.
Qed.

Lemma teardown_returns_frames_witness :
  let s := exec [ApplyConfig 128 64 "FIFO"; Create "P1" 3; Access 0 0 "P1" 0;
                 Access 0 0 "P1" 1] SIM_init in
  consistent s ∧ "P1" ≠ ""
  ∧ ∃ s', on_deallocate (Some "P1") s = Ok true s'
      ∧ free_frames (mem s')
        = free_frames (mem s) ∪ default ∅ (pid_to_frames (mem s) !! "P1")
      ∧ pid_to_frames (mem s') = delete "P1" (pid_to_frames (mem s))
      ∧ page_tables (pager s') = delete "P1" (page_tables (pager s))
      ∧ consistent s'
      ∧ ((∀ q, q ≠ "P1" → pid_to_frames (mem s) !! q = None) →
         ∀ ks q, ∃ msg m',
           alloc_pages ks q (Z.of_nat (length (frames (mem s')))) (mem s')
           = Ok (true, msg) m').
Proof.
  intros s.
  assert (Hc : consistent s).
  { apply reachable_consistent, reachable_exec;
      [apply reachable_init | by vm_compute]. }
  assert (Hne : "P1" ≠ "") by done.
  split; [exact Hc|]. split; [exact Hne|].
  exact (teardown_returns_frames "P1" s Hc Hne).
Defined.

(** ** Replacement *)

(** X10. On a fresh FIFO engine with two frames, after the accesses A, B,
    C of one process the third access takes the frame A was loaded into,
    the head of the queue, and leaves B in its frame. The entry of A is not
    cleared: A and C are both recorded in that frame, whose label is that
    of C, and the queue then holds B's frame followed by A's. *)
Theorem fifo_evicts_first_loaded
    (k1 r1 k2 r2 k3 r3 : nat) (who : string) (A B C : Z) (s0 : Sim) :
  length (frames (mem s0)) = 2%nat →
  free_frames (mem s0) = {[ 0%nat; 1%nat ]} →
  algorithm (pager s0) = "FIFO" →
  fifo (pager s0) = [] →
  (∀ p f, entry who p s0 ≠ Some (Some f)) →
  A ≠ B → A ≠ C → B ≠ C →
  ∃ fA fB s1 s2 s3,
    access_page k1 r1 who A s0 = Ok (true, "loaded in frame " +:+ pretty fA) s1
    ∧ access_page k2 r2 who B s1 = Ok (true, "loaded in frame " +:+ pretty fB) s2
    ∧ access_page k3 r3 who C s2 = Ok (true, "loaded in frame " +:+ pretty fA) s3
    ∧ fA ≠ fB
    ∧ entry who C s3 = Some (Some fA)
    ∧ entry who B s3 = Some (Some fB)
    ∧ entry who A s3 = Some (Some fA)
    ∧ label <$> frames (mem s3) !! fA = Some (Some ("p" +:+ pretty C))
    ∧ fifo (pager s3) = [fB; fA].
Proof.
  intros Hlen Hfree Halg Hq Hnone HAB HAC HBC.
  set (t0 := default ∅ (page_tables (pager s0) !! who)).
  assert (Ht0 : ∀ p f, t0 !! p ≠ Some (Some f)) by exact Hnone.
  destruct (access_page_load_free k1 r1 who A s0) as (x & fx & Hx & Hfx & Hrun1).
  { apply Hnone. }
  { apply size_nonempty. rewrite Hfree, size_pair. lia. }
  { intros i Hi. rewrite Hfree in Hi. rewrite Hlen. by apply elem_of_pair_lt. }
  rewrite Hfree in Hx.
  match type of Hrun1 with _ = Ok _ ?s => set (s1 := s) in * end.
  assert (Hfree1 : free_frames (mem s1) = {[ 0%nat; 1%nat ]} ∖ {[ x ]})
    by (simpl; by rewrite Hfree).
  assert (Hlen1 : length (frames (mem s1)) = 2%nat)
    by (simpl; by rewrite length_insert).
  assert (Htab1 : page_tables (pager s1) !! who = Some (<[A := Some x]> t0))
    by (simpl; by rewrite lookup_insert_eq).
  assert (Halg1 : algorithm (pager s1) = "FIFO") by done.
  assert (Hq1 : fifo (pager s1) = [x]).
  { simpl. rewrite Halg, Hq. by case_decide. }
  clearbody s1.
  destruct (access_page_load_free k2 r2 who B s1) as (y & fy & Hy & Hfy & Hrun2).
  { intros f. unfold entry. rewrite Htab1. simpl.
    rewrite lookup_insert_ne by done. apply Ht0. }
  { apply size_nonempty. rewrite Hfree1, size_remove, size_pair by done. lia. }
  { intros i Hi. rewrite Hfree1 in Hi. rewrite Hlen1.
    apply elem_of_difference in Hi as [Hi _]. by apply elem_of_pair_lt. }
  rewrite Hfree1 in Hy.
  assert (Hxy : x ≠ y).
  { intros ->. apply elem_of_difference in Hy as [_ Hy].
    by apply Hy, elem_of_singleton. }
  match type of Hrun2 with _ = Ok _ ?s => set (s2 := s) in * end.
  assert (Hfree2 : free_frames (mem s2) = ∅).
  { simpl. rewrite Hfree1. apply size_zero_empty.
    rewrite !size_remove, size_pair; done. }
  assert (Hlen2 : length (frames (mem s2)) = 2%nat)
    by (simpl; by rewrite length_insert).
  assert (Htab2 : page_tables (pager s2) !! who
                  = Some (<[B := Some y]> (<[A := Some x]> t0))).
  { simpl. by rewrite lookup_insert_eq, Htab1. }
  assert (Halg2 : algorithm (pager s2) = "FIFO") by done.
  assert (Hq2 : fifo (pager s2) = [x; y]).
  { simpl. rewrite Halg1, Hq1. by case_decide. }
  clearbody s2.
  assert (Hxlt : (x < length (frames (mem s2)))%nat).
  { rewrite Hlen2. by apply elem_of_pair_lt. }
  destruct (lookup_lt_is_Some_2 _ _ Hxlt) as [fr Hfr].
  pose proof (access_page_evict_fifo k3 r3 who C s2 x [y] fr) as Hrun3.
  specialize (Hrun3 ltac:(intros f; unfold entry; rewrite Htab2; simpl;
                           rewrite !lookup_insert_ne by done; apply Ht0)
                    Hfree2 Halg2 Hq2 Hfr).
  match type of Hrun3 with _ = Ok _ ?s => set (s3 := s) in * end.
  assert (Htab3 : page_tables (pager s3) !! who
                  = Some (<[C := Some x]> (<[B := Some y]> (<[A := Some x]> t0)))).
  { simpl. by rewrite lookup_insert_eq, Htab2. }
  assert (Hlab : label <$> frames (mem s3) !! x = Some (Some ("p" +:+ pretty C))).
  { simpl. by rewrite list_lookup_insert_eq. }
  assert (Hq3 : fifo (pager s3) = [y; x]) by done.
  clearbody s3.
  exists x, y, s1, s2, s3. repeat split; try done.
  - unfold entry. rewrite Htab3. simpl. by rewrite lookup_insert_eq.
  - unfold entry. rewrite Htab3. simpl.
    by rewrite lookup_insert_ne, lookup_insert_eq by done.
  - unfold entry. rewrite Htab3. simpl.
    by rewrite !lookup_insert_ne, lookup_insert_eq by done.
Qed.

Lemma fifo_evicts_first_loaded_witness :
  ∃ fA fB s1 s2 s3,
    access_page 0 0 "P1" 0 (configured 128 64 "FIFO")
      = Ok (true, "loaded in frame " +:+ pretty fA) s1
    ∧ access_page 0 0 "P1" 1 s1 = Ok (true, "loaded in frame " +:+ pretty fB) s2
    ∧ access_page 0 0 "P1" 2 s2 = Ok (true, "loaded in frame " +:+ pretty fA) s3
    ∧ fA ≠ fB
    ∧ entry "P1" 2 s3 = Some (Some fA)
    ∧ entry "P1" 1 s3 = Some (Some fB)
    ∧ entry "P1" 0 s3 = Some (Some fA)
    ∧ label <$> frames (mem s3) !! fA = Some (Some ("p" +:+ pretty (2 : Z)))
    ∧ fifo (pager s3) = [fB; fA].
Proof.
  apply (fifo_evicts_first_loaded 0 0 0 0 0 0 "P1" 0 1 2);
    [reflexivity | by vm_compute | reflexivity | reflexivity | | lia | lia | lia].
  intros p f. unfold entry. simpl. by rewrite lookup_empty.
Defined.

(** X11. An LRU eviction clears the entry of the oldest key and loads
    the new page into its frame, but the frame it has put back into the
    free set stays there: after the call the frame is owned by the
    faulting process and listed as free at the same time. *)
Theorem lru_eviction_leaves_frame_free
    (k r : nat) (who : string) (page_no : Z) (s : Sim)
    (vpid : string) (vp : Z) (rest : list (string * Z)) (f : nat) :
  (∀ g, entry who page_no s ≠ Some (Some g)) →
  free_frames (mem s) = ∅ → algorithm (pager s) ≠ "FIFO" →
  lru (pager s) = (vpid, vp) :: rest →
  entry vpid vp s = Some (Some f) →
  (f < length (frames (mem s)))%nat →
  ∃ s', access_page k r who page_no s
          = Ok (true, "loaded in frame " +:+ pretty f) s'
    ∧ entry vpid vp s' = Some None
    ∧ entry who page_no s' = Some (Some f)
    ∧ frame_owner f s' = Some (Some who)
    ∧ free_frames (mem s') = {[ f ]}
    ∧ lru (pager s') = lru_touch (who, page_no) rest.
Proof.
  intros Hmiss He Ha Hl Hv Hf.
  destruct (entry_resident vpid vp s f Hv) as (t & Ht & Hp).
  destruct (lookup_lt_is_Some_2 _ _ Hf) as [fr Hfr].
  assert (Hne : (vpid, vp) ≠ (who, page_no)).
  { intros [= -> ->]. by apply (Hmiss f). }
  eexists. split; [by apply (access_page_evict_lru _ _ _ _ _ vpid vp rest t f fr)|].
  unfold entry, frame_owner. simpl.
  split; [|split; [|split; [|split; [|done]]]].
  - destruct (decide (who = vpid)) as [->|Hw].
    + rewrite !lookup_alter_eq, lookup_insert_eq. simpl.
      rewrite lookup_insert_ne by (intros ->; by apply Hne).
      apply lookup_insert_eq.
    + rewrite lookup_alter_ne, lookup_alter_eq, lookup_insert_ne, Ht by done.
      simpl. apply lookup_insert_eq.
  - rewrite lookup_alter_eq.
    destruct (decide (who = vpid)) as [->|Hw].
    + rewrite lookup_alter_eq, lookup_insert_eq. simpl. apply lookup_insert_eq.
    + rewrite lookup_alter_ne, lookup_insert_eq by done. simpl.
      apply lookup_insert_eq.
  - by rewrite list_lookup_insert_eq.
  - rewrite He. apply union_empty_r_L.
Qed.

Lemma lru_eviction_leaves_frame_free_witness :
  let s := exec [ApplyConfig 64 64 "LRU"; Access 0 0 "P1" 0] SIM_init in
  (∀ g, entry "P2" 7 s ≠ Some (Some g))
  ∧ free_frames (mem s) = ∅ ∧ algorithm (pager s) ≠ "FIFO"
  ∧ lru (pager s) = [("P1", 0%Z)]
  ∧ entry "P1" 0 s = Some (Some 0%nat)
  ∧ (0 < length (frames (mem s)))%nat
  ∧ ∃ s', access_page 0 0 "P2" 7 s
            = Ok (true, "loaded in frame " +:+ pretty 0%nat) s'
      ∧ entry "P1" 0 s' = Some None
      ∧ entry "P2" 7 s' = Some (Some 0%nat)
      ∧ frame_owner 0 s' = Some (Some "P2")
      ∧ free_frames (mem s') = {[ 0%nat ]}
      ∧ lru (pager s') = lru_touch ("P2", 7%Z) [].
Proof.
  intros s.
  assert (H1 : ∀ g, entry "P2" 7 s ≠ Some (Some g)) by (intros g; by vm_compute).
  assert (H2 : free_frames (mem s) = ∅) by (by vm_compute).
  assert (H3 : algorithm (pager s) ≠ "FIFO") by (by vm_compute).
  assert (H4 : lru (pager s) = [("P1", 0%Z)]) by (by vm_compute).
  assert (H5 : entry "P1" 0 s = Some (Some 0%nat)) by (by vm_compute).
  assert (H6 : (0 < length (frames (mem s)))%nat) by (vm_compute; lia).
  repeat (split; [assumption|]).
  exact (lru_eviction_leaves_frame_free 0 0 "P2" 7 s "P1" 0 [] 0 H1 H2 H3 H4 H5 H6).
Defined.

(** X12. When no frame is free and the structure of the active policy is
    empty (the pool was handed out by [alloc_pages], say), a fault does not
    fail: the page is loaded into frame [r mod n], where [r] is the random
    draw and [n] the number of frames, whoever owned that frame, and no
    page-table entry other than the new one changes. *)
Theorem access_page_random_fallback
    (k r : nat) (who : string) (page_no : Z) (s : Sim) :
  (∀ g, entry who page_no s ≠ Some (Some g)) →
  free_frames (mem s) = ∅ →
  (algorithm (pager s) = "FIFO" ∧ fifo (pager s) = []
   ∨ algorithm (pager s) ≠ "FIFO" ∧ lru (pager s) = []) →
  (0 < length (frames (mem s)))%nat →
  let v := (r mod length (frames (mem s)))%nat in
  ∃ s', access_page k r who page_no s
          = Ok (true, "loaded in frame " +:+ pretty v) s'
    ∧ (v < length (frames (mem s)))%nat
    ∧ entry who page_no s' = Some (Some v)
    ∧ frame_owner v s' = Some (Some who)
    ∧ (∀ q p, (q, p) ≠ (who, page_no) → entry q p s' = entry q p s).
Proof.
  intros Hmiss He Hcase Hn v.
  assert (Hv : (v < length (frames (mem s)))%nat)
    by (by apply Nat.mod_upper_bound, Nat.neq_0_lt_0).
  destruct (lookup_lt_is_Some_2 _ _ Hv) as [fr Hfr].
  assert (Hgo : access_page k r who page_no s
                = (fidx ← obtain_frame k r; install who page_no fidx) (entered who s)).
  { rewrite access_page_unfold.
    destruct (entry who page_no s) as [[f'|]|] eqn:Hent; try done.
    by destruct (Hmiss f'). }
  rewrite Hgo. unfold mbind, M_bind.
  rewrite (obtain_frame_random k r (entered who s)) by done.
  change (length (frames (mem (entered who s)))) with (length (frames (mem s))).
  fold v. erewrite install_ok by exact Hfr.
  eexists. split; [reflexivity|]. split; [done|].
  unfold entry, frame_owner. simpl.
  rewrite alter_insert_eq. split; [|split].
  - rewrite lookup_insert_eq. simpl. apply lookup_insert_eq.
  - by rewrite list_lookup_insert_eq.
  - intros q p Hne. destruct (decide (who = q)) as [->|Hw].
    + rewrite lookup_insert_eq. simpl. rewrite lookup_insert_ne; [done|].
      intros ->. by apply Hne.
    + by rewrite lookup_insert_ne.
Qed.

Lemma access_page_random_fallback_witness :
  let s := exec [ApplyConfig 128 64 "FIFO"; Alloc (λ i, i) "P1" 2] SIM_init in
  (∀ g, entry "P2" 0 s ≠ Some (Some g))
  ∧ free_frames (mem s) = ∅
  ∧ (algorithm (pager s) = "FIFO" ∧ fifo (pager s) = []
     ∨ algorithm (pager s) ≠ "FIFO" ∧ lru (pager s) = [])
  ∧ (0 < length (frames (mem s)))%nat
  ∧ let v := (5 mod length (frames (mem s)))%nat in
    ∃ s', access_page 0 5 "P2" 0 s
            = Ok (true, "loaded in frame " +:+ pretty v) s'
      ∧ (v < length (frames (mem s)))%nat
      ∧ entry "P2" 0 s' = Some (Some v)
      ∧ frame_owner v s' = Some (Some "P2")
      ∧ (∀ q p, (q, p) ≠ ("P2", 0%Z) → entry q p s' = entry q p s).
Proof.
  intros s.
  assert (H1 : ∀ g, entry "P2" 0 s ≠ Some (Some g)) by (intros g; by vm_compute).
  assert (H2 : free_frames (mem s) = ∅) by (by vm_compute).
  assert (H3 : algorithm (pager s) = "FIFO" ∧ fifo (pager s) = []
               ∨ algorithm (pager s) ≠ "FIFO" ∧ lru (pager s) = [])
    by (left; by vm_compute).
  assert (H4 : (0 < length (frames (mem s)))%nat) by (vm_compute; lia).
  repeat (split; [assumption|]).
  exact (access_page_random_fallback 0 5 "P2" 0 s H1 H2 H3 H4).
Defined.

(** ** What [access_page] returns *)

Lemma obtain_frame_tables k r q :
  keeps (stays (λ s, is_Some (page_tables (pager s) !! q))) (obtain_frame k r).
Proof.
  assert (Hmem : ∀ A (c : M MemoryManager A),
            keeps (stays (λ s, is_Some (page_tables (pager s) !! q))) (on_mem c)).
  { intros A c. apply (keeps_on_mem (λ _ _, True)); [by intros ?? _ H | done]. }
  assert (Hset : ∀ vpid vp e,
            keeps (stays (λ s, is_Some (page_tables (pager s) !! q)))
                  (set_entry vpid vp e)).
  { intros vpid vp e s Hs. simpl. rewrite lookup_alter.
    case_decide; [subst|done]. by apply fmap_is_Some. }
  assert (Hlook : ∀ vpid vp,
            keeps (stays (λ s, is_Some (page_tables (pager s) !! q)))
                  (lookup_entry vpid vp)).
  { intros vpid vp s. unfold lookup_entry. by repeat case_match. }
  unfold obtain_frame, choose_victim, random_frame, randrange.
  repeat keeps_step; try done; try (intros Hk; exact Hk).
Qed.

Lemma obtain_frame_keeps_tables k r s x s1 q :
  obtain_frame k r s = Ok x s1 →
  is_Some (page_tables (pager s) !! q) → is_Some (page_tables (pager s1) !! q).
Proof.
  intros H. pose proof (obtain_frame_tables k r q s) as Hk.
  by rewrite H in Hk.
Qed.

Lemma install_Ok who page_no x s res s' :
  install who page_no x s = Ok res s' →
  res.1 = true
  ∧ page_tables (pager s') = alter (<[page_no := Some x]>) who (page_tables (pager s)).
Proof.
  destruct (frames (mem s) !! x) as [fr|] eqn:Hfr.
  - rewrite (install_ok who page_no x fr s Hfr). by intros [= <- <-].
  - rewrite install_out_of_range; [done|]. by apply lookup_ge_None.
Qed.

(** X13. In whatever state it is called, [access_page] never returns the
    failure status: if it returns at all, the status is success and the
    page is resident in the table of the process, so that the next access
    to the same page returns "hit". *)
Theorem access_page_returns_success
    (k r : nat) (who : string) (page_no : Z) (s s' : Sim) (res : bool * string) :
  access_page k r who page_no s = Ok res s' →
  res.1 = true
  ∧ resident who page_no s'
  ∧ ∀ k' r', ∃ s'', access_page k' r' who page_no s' = Ok (true, "hit") s''.
Proof.
  intros Hrun.
  assert (Hres : res.1 = true ∧ resident who page_no s').
  { rewrite access_page_unfold in Hrun.
    destruct (entry who page_no s) as [[f|]|] eqn:He.
    { destruct (entry_resident who page_no s f He) as (t & Ht & Hp).
      injection Hrun as <- <-. split; [done|]. exists t, f.
      case_decide; simpl; by rewrite lookup_insert_eq, Ht. }
    all: unfold mbind, M_bind in Hrun;
      destruct (obtain_frame k r (entered who s)) as [x s1|e s1] eqn:Hob; [|done];
      destruct (install_Ok _ _ _ _ _ _ Hrun) as [Hb Ht];
      (split; [done|]);
      destruct (obtain_frame_keeps_tables k r _ x s1 who Hob) as [t Hw];
      [ simpl; rewrite lookup_insert_eq; by eexists | ];
      exists (<[page_no := Some x]> t), x;
      rewrite Ht, lookup_alter_eq, Hw; simpl;
      (split; [done | apply lookup_insert_eq]). }
  destruct Hres as [Hb Hres]. split; [done|]. split; [done|].
  intros k' r'. destruct Hres as (t & f & Ht & Hp).
  eexists. by apply (access_page_hit k' r' who page_no s' t f).
Qed.

Lemma access_page_returns_success_witness :
  ∃ res s',
    access_page 0 0 "P1" 3 SIM_init = Ok res s'
    ∧ res.1 = true
    ∧ resident "P1" 3 s'
    ∧ ∀ k' r', ∃ s'', access_page k' r' "P1" 3 s' = Ok (true, "hit") s''.
Proof.
  destruct (access_page 0 0 "P1" 3 SIM_init) as [res s'|e s'] eqn:H.
  - exists res, s'. split; [reflexivity|].
    exact (access_page_returns_success 0 0 "P1" 3 SIM_init s' res H).
  - exfalso. vm_compute in H. discriminate H.
Defined.

(** ** Occupancy *)

Lemma count_used (l : list Frame) : ∀ F : gset nat,
  (∀ i, i ∈ F → (i < length l)%nat) →
  (∀ i f, l !! i = Some f → (pid f = None ↔ i ∈ F)) →
  (length (filter (λ f, is_free f = false) l) + size F)%nat = length l.
Proof.
  induction l as [|x l IH] using rev_ind; intros F Hrange Hmark.
  - simpl. assert (F = ∅) as ->; [|by rewrite size_empty].
    apply set_eq. intros i. split; [|by intros ?%not_elem_of_empty].
    intros Hi. apply Hrange in Hi. simpl in Hi. lia.
  - rewrite filter_app, !length_app. simpl.
    assert (Hx : (l ++ [x])%list !! length l = Some x).
    { rewrite lookup_app_r by done. by rewrite Nat.sub_diag. }
    specialize (IH (F ∖ {[ length l ]})).
    assert (IH' : (length (filter (λ f, is_free f = false) l)
                   + size (F ∖ {[ length l ]}))%nat = length l).
    { apply IH.
      - intros i [Hi Hne]%elem_of_difference. apply Hrange in Hi.
        rewrite length_app in Hi. simpl in Hi.
        assert (i ≠ length l) by (intros ->; by apply Hne, elem_of_singleton).
        lia.
      - intros i f Hf. pose proof (lookup_lt_Some _ _ _ Hf) as Hlt.
        assert (Hf' : (l ++ [x])%list !! i = Some f) by (by rewrite lookup_app_l).
        rewrite (Hmark i f Hf'), elem_of_difference, elem_of_singleton.
        split; [intros ?; split; [done | lia] | by intros [? _]]. }
    destruct (pid x) as [p|] eqn:Hp.
    + assert (Hnot : length l ∉ F).
      { intros Hin. apply (Hmark _ x Hx) in Hin. congruence. }
      assert (F ∖ {[ length l ]} = F) as Heq.
      { apply set_eq. intros i. rewrite elem_of_difference, elem_of_singleton.
        split; [by intros [? _] | intros Hi; split; [done|]].
        intros ->. done. }
      rewrite Heq in IH'.
      rewrite filter_cons_True by (unfold is_free; by rewrite Hp).
      simpl. lia.
    + assert (Hin : length l ∈ F) by (by apply (Hmark _ x Hx)).
      rewrite size_remove in IH' by done.
      assert (0 < size F)%nat.
      { destruct (size F) eqn:Hs; [|lia].
        apply size_zero_empty in Hs. rewrite Hs in Hin.
        by apply not_elem_of_empty in Hin. }
      rewrite filter_cons_False by (unfold is_free; by rewrite Hp).
      simpl. lia.
Qed.

Lemma release_frame_marks fidx : keeps (stays frames_mark_free) (release_frame fidx).
Proof.
  intros m Hm. unfold release_frame, mbind, M_bind, set_frame.
  destruct (frames m !! fidx) as [fr|] eqn:Hfr; [|done].
  intros i f Hf. simpl in *. destruct (decide (fidx = i)) as [->|Hne].
  - rewrite list_lookup_insert_eq in Hf by (by eapply lookup_lt_Some).
    injection Hf as <-. simpl. split; [|done]. intros _.
    apply elem_of_union. left. by apply elem_of_singleton.
  - rewrite list_lookup_insert_ne in Hf by done.
    rewrite (Hm i f Hf), elem_of_union, elem_of_singleton.
    split; [by right | intros [?|?]; done].
Qed.

(** A served call keeps the owner marks of the frames and the free set in
    step. *)
Lemma marks_step s o :
  consistent s → frames_mark_free (mem s) → served s o = true →
  frames_mark_free (mem (step s o)).
Proof.
  intros Hs Hm Hserved. unfold step.
  destruct o as [who n|k r who page_no|ks who n|who|who|d|algo|total frame|total frame algo];
    simpl in Hserved; try done; simpl.
  - rewrite state_of_bind_ret.
    destruct (entry who page_no s) as [[f|]|] eqn:He.
    { destruct (entry_resident who page_no s f He) as (t & Ht & Hp).
      by rewrite (access_page_hit k r who page_no s t f Ht Hp). }
    all: apply bool_decide_eq_true in Hserved;
      destruct (access_page_load_free k r who page_no s)
        as (x & fr & Hx & Hfr & Hrun);
      [ intros f; by rewrite He | done | apply Hs | ];
      rewrite Hrun; simpl; intros i f Hf; simpl in *;
      (destruct (decide (x = i)) as [->|Hne];
       [ rewrite list_lookup_insert_eq in Hf by (by eapply lookup_lt_Some);
         injection Hf as <-; simpl; split; [done|];
         intros [_ Hi]%elem_of_difference; exfalso; by apply Hi, elem_of_singleton
       | rewrite list_lookup_insert_ne in Hf by done;
         rewrite (Hm i f Hf), elem_of_difference, elem_of_singleton;
         split; [intros ?; split; [done | by intros ->] | by intros [? _]] ]).
  - rewrite state_of_bind_ret. unfold on_mem.
    destruct (decide (n > Z.of_nat (size (free_frames (mem s))))%Z) as [Hn|Hn].
    { unfold alloc_pages, mbind, M_bind, get. by rewrite decide_True. }
    destruct (alloc_pages_full ks who n (mem s))
      as (l & m' & Hrun & _ & _ & Hsub & Hfree & _ & Hfrs & _); [apply Hs | lia |].
    rewrite Hrun. simpl. intros i f Hf. rewrite Hfrs in Hf. rewrite Hfree.
    rewrite elem_of_difference, elem_of_list_to_set.
    destruct (decide (i ∈ l)) as [Hi|Hi].
    + destruct (frames (mem s) !! i) as [f0|]; [|done].
      injection Hf as <-. simpl. split; [done | by intros [_ ?]].
    + rewrite (Hm i f Hf). split; [by intros ? | by intros [? _]].
  - rewrite state_of_bind_ret.
    apply (keeps_on_deallocate (stays frames_mark_free)
             (stays (λ s, frames_mark_free (mem s))));
      first [ apply _ | exact Hm | intros ?? Hk; exact Hk
            | intros ??? Hk; exact Hk | apply release_frame_marks ].
  - unfold on_apply_config, mbind, M_bind, on_mem.
    destruct (decide (frame = 0)) as [->|Hf].
    + unfold reset, mbind, M_bind, modify. by rewrite rebuild_zero.
    + unfold reset, mbind, M_bind, modify. rewrite rebuild_ok by done. simpl.
      intros i f Hi. simpl in *.
      assert (Hlt : (i < Z.to_nat (Z.max 1 (total / frame)))%nat).
      { apply lookup_lt_Some in Hi. by rewrite fresh_frames_length in Hi. }
      rewrite fresh_frames_lookup in Hi by done. injection Hi as <-. simpl.
      split; [intros _ | done]. apply elem_of_list_to_set, elem_of_seq. lia.
Qed.

Lemma reachable_marks s : reachable s → frames_mark_free (mem s).
Proof.
  induction 1 as [|s o Hr IH Hserved].
  - intros i f Hf. change (fresh_frames 16 !! i = Some f) in Hf.
    assert (Hlt : (i < 16)%nat).
    { apply lookup_lt_Some in Hf. by rewrite fresh_frames_length in Hf. }
    rewrite fresh_frames_lookup in Hf by done. injection Hf as <-. simpl.
    split; [intros _ | done].
    change (i ∈ (list_to_set (seq 0 16) : gset nat)).
    apply elem_of_list_to_set, elem_of_seq. lia.
  - apply marks_step; [by apply reachable_consistent | done | done].
Qed.

(** X14. On every served run [used_and_total] agrees with the free set:
    the number of frames in use plus the number of free indices is the
    number of frames, which is the total it reports, and a frame counts as
    in use exactly when its index is not free. *)
Theorem occupancy_matches_free_set (s : Sim) :
  reachable s →
  ((used_and_total (mem s)).1 + size (free_frames (mem s)))%nat
    = (used_and_total (mem s)).2
  ∧ (used_and_total (mem s)).2 = length (frames (mem s))
  ∧ ∀ i f, frames (mem s) !! i = Some f →
      (is_free f = true ↔ i ∈ free_frames (mem s)).
Proof.
  intros Hr. pose proof (reachable_marks s Hr) as Hm.
  destruct (reachable_consistent s Hr) as (Hrange & _).
  unfold used_and_total. simpl. split; [|split; [done|]].
  - by apply count_used.
  - intros i f Hf. rewrite <- (Hm i f Hf). unfold is_free.
    destruct (pid f); split; done.
Qed.

Lemma occupancy_matches_free_set_witness :
  let s := exec [ApplyConfig 256 64 "FIFO"; Create "P1" 3; Access 0 0 "P1" 0;
                 Alloc (λ i, i) "P2" 2; Access 0 0 "P1" 1;
                 Deallocate (Some "P2")] SIM_init in
  reachable s
  ∧ ((used_and_total (mem s)).1 + size (free_frames (mem s)))%nat
      = (used_and_total (mem s)).2
  ∧ (used_and_total (mem s)).2 = length (frames (mem s))
  ∧ ∀ i f, frames (mem s) !! i = Some f →
      (is_free f = true ↔ i ∈ free_frames (mem s)).
Proof.
  intros s.
  assert (H : reachable s)
    by (apply reachable_exec; [apply reachable_init | by vm_compute]).
  split; [exact H | exact (occupancy_matches_free_set s H)].
Defined.

(** ** The handlers that name processes *)

(** X15. A configuration with frame size zero is rejected with
    [ZeroDivisionError] only after the size has been stored: the pool and
    the pager are as before, the process counter is not reset, and from
    then on every [on_create_process] raises [ZeroDivisionError] too, on
    its own division by the stored frame size, without changing
    anything. *)
Theorem create_after_rejected_config
    (total size : Z) (algo : string) (k1 r1 k2 r2 : nat) (a : App) :
  let a' := mkApp (mkSim (with_config total 0 (mem (core a))) (pager (core a)))
                  (next_pid a) in
  handle_apply_config total 0 algo a = Raise ZeroDivisionError a'
  ∧ on_create_process size k1 r1 k2 r2 a' = Raise ZeroDivisionError a'.
Proof. split; reflexivity. Qed.

Lemma fresh_pid_run a :
  fresh_pid a = Ok ("P" +:+ pretty (next_pid a)) (mkApp (core a) (next_pid a + 1)).
Proof. reflexivity. Qed.

Lemma on_core_Ok {A} (c : M Sim A) a x s' :
  c (core a) = Ok x s' → on_core c a = Ok x (mkApp s' (next_pid a)).
Proof. intros H. unfold on_core. by rewrite H. Qed.

(** X16. With a frame size other than zero and at least two free frames,
    [on_create_process] names the process after the counter, which it
    advances by one, and admits it with [max(1, (size + frame_kb - 1) // frame_kb)]
    pages. Because it admits the process and accesses page 0 twice over,
    the process ends up owning two distinct frames that were free while
    only the second one is mapped, by page 0; [page_faults] has grown by
    two and [allocations] by one. *)
Theorem on_create_process_takes_two_frames
    (sz : Z) (k1 r1 k2 r2 : nat) (a : App) :
  frame_kb (mem (core a)) ≠ 0 →
  free_in_range (mem (core a)) →
  (2 ≤ size (free_frames (mem (core a))))%nat →
  let who := "P" +:+ pretty (next_pid a) in
  let frame := frame_kb (mem (core a)) in
  let pages := Z.max 1 ((sz + frame - 1) / frame) in
  ∃ x y a', on_create_process sz k1 r1 k2 r2 a = Ok tt a'
    ∧ x ≠ y
    ∧ x ∈ free_frames (mem (core a)) ∧ y ∈ free_frames (mem (core a))
    ∧ next_pid a' = S (next_pid a)
    ∧ free_frames (mem (core a')) = free_frames (mem (core a)) ∖ {[ x ]} ∖ {[ y ]}
    ∧ pid_to_frames (mem (core a')) !! who
      = Some (default ∅ (pid_to_frames (mem (core a)) !! who) ∪ {[ x ]} ∪ {[ y ]})
    ∧ frame_owner x (core a') = Some (Some who)
    ∧ frame_owner y (core a') = Some (Some who)
    ∧ (∀ p, entry who p (core a')
            = if decide (p = 0) then Some (Some y)
              else if decide (0 ≤ p < pages)%Z then Some None else None)
    ∧ page_faults (mem (core a')) = S (S (page_faults (mem (core a))))
    ∧ allocations (mem (core a')) = S (allocations (mem (core a))).
Proof.
  intros Hf Hrange Hsize who frame pages.
  unfold on_create_process, mbind at 1, M_bind, get. fold frame.
  rewrite decide_False by done. fold pages.
  unfold mbind at 1, M_bind. rewrite fresh_pid_run. fold who.
  set (a1 := mkApp (core a) (next_pid a + 1)).
  (* first admission and access *)
  destruct (create_process_table who pages (core a1))
    as (s1 & Hc1 & Hent1 & _ & Hmem1 & _).
  unfold mbind at 1, M_bind. rewrite (on_core_Ok _ a1 tt s1 Hc1).
  destruct (access_page_load_free k1 r1 who 0 s1) as (x & fx & Hx & Hfx & Hrun1).
  { intros g. rewrite Hent1. by repeat case_decide. }
  { rewrite Hmem1. apply size_nonempty. simpl. lia. }
  { by rewrite Hmem1. }
  unfold mbind at 1, M_bind. erewrite on_core_Ok by exact Hrun1.
  match type of Hrun1 with _ = Ok _ ?s => set (s2 := s) in * end.
  rewrite Hmem1 in Hx. simpl in Hx.
  assert (Hfree2 : free_frames (mem s2) = free_frames (mem (core a)) ∖ {[ x ]})
    by (simpl; by rewrite Hmem1).
  assert (Hlen2 : length (frames (mem s2)) = length (frames (mem (core a))))
    by (simpl; by rewrite length_insert, Hmem1).
  assert (Hown2 : pid_to_frames (mem s2) !! who
                  = Some (default ∅ (pid_to_frames (mem (core a)) !! who) ∪ {[ x ]})).
  { simpl. unfold setdefault_update. by rewrite lookup_insert_eq, Hmem1. }
  assert (Hfx2 : pid <$> frames (mem s2) !! x = Some (Some who)).
  { simpl. by rewrite list_lookup_insert_eq by (by eapply lookup_lt_Some). }
  assert (Hpf2 : page_faults (mem s2) = S (page_faults (mem (core a))))
    by (simpl; rewrite Hmem1; simpl; lia).
  assert (Hal2 : allocations (mem s2) = allocations (mem (core a)))
    by (simpl; by rewrite Hmem1).
  clearbody s2.
  (* second admission and access *)
  unfold mbind at 1, M_bind.
  match goal with
  | |- context [on_core (create_process who pages) ?a0] => set (a2 := a0)
  end.
  destruct (create_process_table who pages (core a2))
    as (s3 & Hc3 & Hent3 & _ & Hmem3 & _).
  rewrite (on_core_Ok _ a2 tt s3 Hc3).
  simpl in Hmem3.
  destruct (access_page_load_free k2 r2 who 0 s3) as (y & fy & Hy & Hfy & Hrun3).
  { intros g. rewrite Hent3. by repeat case_decide. }
  { rewrite Hmem3, Hfree2. apply size_nonempty. rewrite size_remove by done. lia. }
  { rewrite Hmem3. intros i Hi. rewrite Hfree2 in Hi. rewrite Hlen2.
    apply Hrange. by apply elem_of_difference in Hi as [Hi _]. }
  unfold mbind at 1, M_bind. erewrite on_core_Ok by exact Hrun3.
  rewrite Hmem3, Hfree2 in Hy.
  assert (Hxy : x ≠ y).
  { intros ->. apply elem_of_difference in Hy as [_ Hy].
    by apply Hy, elem_of_singleton. }
  apply elem_of_difference in Hy as [Hy _].
  exists x, y. eexists. split; [reflexivity|]. simpl.
  rewrite Hmem3, Hfree2, Hpf2, Hal2.
  split; [done|]. split; [done|]. split; [done|]. split; [lia|].
  split; [done|]. split.
  { unfold setdefault_update. by rewrite lookup_insert_eq, Hown2. }
  unfold frame_owner, entry. simpl.
  split.
  { rewrite list_lookup_insert_ne by done. exact Hfx2. }
  split.
  { rewrite list_lookup_insert_eq; [done|].
    apply lookup_lt_Some in Hfy. by rewrite Hmem3 in Hfy. }
  split; [|split; lia].
  intros p. rewrite lookup_insert_eq. simpl.
  destruct (decide (p = 0)) as [->|Hp].
  - apply lookup_insert_eq.
  - rewrite lookup_insert_ne by done. apply Hent3.
Qed.

Lemma on_create_process_takes_two_frames_witness :
  let a := mkApp SIM_init 1 in
  frame_kb (mem (core a)) ≠ 0
  ∧ free_in_range (mem (core a))
  ∧ (2 ≤ size (free_frames (mem (core a))))%nat
  ∧ let who := "P" +:+ pretty (next_pid a) in
    let frame := frame_kb (mem (core a)) in
    let pages := Z.max 1 ((200 + frame - 1) / frame) in
    ∃ x y a', on_create_process 200 0 0 0 0 a = Ok tt a'
      ∧ x ≠ y
      ∧ x ∈ free_frames (mem (core a)) ∧ y ∈ free_frames (mem (core a))
      ∧ next_pid a' = S (next_pid a)
      ∧ free_frames (mem (core a')) = free_frames (mem (core a)) ∖ {[ x ]} ∖ {[ y ]}
      ∧ pid_to_frames (mem (core a')) !! who
        = Some (default ∅ (pid_to_frames (mem (core a)) !! who) ∪ {[ x ]} ∪ {[ y ]})
      ∧ frame_owner x (core a') = Some (Some who)
      ∧ frame_owner y (core a') = Some (Some who)
      ∧ (∀ p, entry who p (core a')
              = if decide (p = 0) then Some (Some y)
                else if decide (0 ≤ p < pages)%Z then Some None else None)
      ∧ page_faults (mem (core a')) = S (S (page_faults (mem (core a))))
      ∧ allocations (mem (core a')) = S (allocations (mem (core a))).
Proof.
  intros a.
  assert (H1 : frame_kb (mem (core a)) ≠ 0) by done.
  assert (H3 : (2 ≤ size (free_frames (mem (core a))))%nat) by (vm_compute; lia).
  split; [exact H1|]. split; [exact free_in_range_init|]. split; [exact H3|].
  exact (on_create_process_takes_two_frames 200 0 0 0 0 a H1 free_in_range_init H3).
Defined.

(** [access_page] on a consistent engine, for the handlers. *)
Lemma access_page_bookkept k r who page_no s :
  bookkept s →
  ∃ res s', access_page k r who page_no s = Ok res s'
    ∧ bookkept s'
    ∧ page_faults (mem s') = S (page_faults (mem s)).
Proof.
  intros Hs. pose proof (bookkept_entered who s Hs) as Hs1.
  assert (Hrun : ∃ res s', access_page k r who page_no s = Ok res s' ∧ bookkept s').
  { rewrite access_page_unfold.
    destruct (entry who page_no s) as [e|] eqn:He; [destruct e as [f|]|].
    1: { destruct (entry_resident who page_no s f He) as (t & Ht & Hp).
         eexists _, _. split; [done|].
         case_decide; [|done].
         destruct Hs1 as (Hn & Hfree & Hfifo & Hent & Hlru).
         repeat split; try done.
         intros vpid vp Hin. simpl in Hin.
         apply elem_of_lru_touch in Hin as [[= -> ->]|Hin]; [|by apply Hlru].
         exists t, (Some f). simpl. by rewrite lookup_insert_eq, Ht. }
    all: destruct (obtain_frame_ok k r who (entered who s))
        as (x & s1 & Hob & Hx & Hw & Hb);
      [done | simpl; rewrite lookup_insert_eq; by eexists |];
      destruct (install_bookkept who page_no x s1 Hb Hx Hw) as (s2 & Hin & _ & Hb2);
      unfold mbind, M_bind; rewrite Hob, Hin; by eexists _, _. }
  destruct Hrun as (res & s' & Hrun & Hb). exists res, s'.
  split; [done|]. split; [done|].
  pose proof (access_page_faults k r who page_no s) as Hpf.
  by rewrite Hrun in Hpf.
Qed.

Lemma choice_Ok {S A} (c : nat) (l : list A) (s : S) :
  l ≠ [] → ∃ x, x ∈ l ∧ choice c l s = Ok x s.
Proof.
  intros Hl. destruct l as [|y l]; [done|]. unfold choice.
  assert (Hlt : (c mod length (y :: l) < length (y :: l))%nat)
    by (by apply Nat.mod_upper_bound).
  destruct (lookup_lt_is_Some_2 _ _ Hlt) as [x Hx].
  exists x. rewrite Hx. split; [by eapply list_elem_of_lookup_2 | done].
Qed.

Lemma for_each_cons {S A} (x : A) (l : list A) (body : A → M S unit) s :
  for_each (x :: l) body s
  = match body x s with
    | Ok _ s' => for_each l body s'
    | Raise e s' => Raise e s'
    end.
Proof. reflexivity. Qed.

Lemma on_core_then_ret {A} (c : M Sim A) a x s' :
  c (core a) = Ok x s' →
  (on_core c ;; mret tt) a = Ok tt (mkApp s' (next_pid a)).
Proof. intros H. unfold mbind, M_bind. by rewrite (on_core_Ok c a x s' H). Qed.

Lemma access_page_tables_grow k r who page_no s res s' q :
  access_page k r who page_no s = Ok res s' →
  is_Some (page_tables (pager s) !! q) → is_Some (page_tables (pager s') !! q).
Proof.
  intros Hrun Hq.
  assert (Hq1 : is_Some (page_tables (pager (entered who s)) !! q)).
  { simpl. apply lookup_insert_is_Some'. by right. }
  rewrite access_page_unfold in Hrun.
  destruct (entry who page_no s) as [[f|]|] eqn:He.
  { injection Hrun as <- <-. by case_decide. }
  all: unfold mbind, M_bind in Hrun;
    destruct (obtain_frame k r (entered who s)) as [x s1|e s1] eqn:Hob; [|done];
    destruct (install_Ok _ _ _ _ _ _ Hrun) as [_ Ht];
    rewrite Ht; apply lookup_alter_is_Some;
    by apply (obtain_frame_keeps_tables k r _ x s1 q Hob).
Qed.

Lemma access_loop_bookkept (ks rs : Z → nat) who (l : list Z) : ∀ a,
  bookkept (core a) →
  ∃ a', for_each l (λ p, on_core (access_page (ks p) (rs p) who p) ;; mret tt) a
        = Ok tt a'
    ∧ bookkept (core a')
    ∧ next_pid a' = next_pid a
    ∧ page_faults (mem (core a')) = (page_faults (mem (core a)) + length l)%nat
    ∧ ∀ q, is_Some (page_tables (pager (core a)) !! q) →
           is_Some (page_tables (pager (core a')) !! q).
Proof.
  induction l as [|p l IH]; intros a Ha.
  - exists a. split; [done|]. split; [done|]. split; [done|].
    split; [simpl; lia | done].
  - destruct (access_page_bookkept (ks p) (rs p) who p (core a) Ha)
      as (res & s' & Hrun & Hb & Hpf).
    destruct (IH (mkApp s' (next_pid a)) Hb) as (a' & Hloop & Hb' & Hn & Hpf' & Hq).
    exists a'. rewrite for_each_cons, (on_core_then_ret _ a res s' Hrun), Hloop.
    split; [done|]. split; [done|]. split; [done|]. split.
    + rewrite Hpf'. simpl. lia.
    + intros q Hs. apply Hq. simpl.
      by apply (access_page_tables_grow _ _ _ _ _ _ _ q Hrun).
Qed.

Lemma is_Some_nonempty `{Countable K} {A} (m : gmap K A) k :
  is_Some (m !! k) → m ≠ ∅.
Proof. intros [x Hx] ->. by rewrite lookup_empty in Hx. Qed.

Lemma sim_step_runs (d c1 c2 : nat) (ks rs : Z → nat) (a : App) :
  bookkept (core a) →
  ∃ a', sim_step d c1 c2 ks rs a = Ok tt a'
    ∧ bookkept (core a')
    ∧ page_tables (pager (core a')) ≠ ∅
    ∧ if decide (page_tables (pager (core a)) = ∅)
      then next_pid a' = S (next_pid a)
           ∧ page_faults (mem (core a'))
             = (page_faults (mem (core a)) + (2 + d mod 7))%nat
      else next_pid a' = next_pid a
           ∧ (page_faults (mem (core a')) = page_faults (mem (core a))
              ∨ page_faults (mem (core a')) = S (page_faults (mem (core a)))).
Proof.
  intros Ha. unfold sim_step, mbind at 1, M_bind, get.
  destruct (decide (page_tables (pager (core a)) = ∅)) as [He|Hne].
  - unfold mbind at 1, M_bind. rewrite fresh_pid_run.
    set (who := "P" +:+ pretty (next_pid a)).
    set (pages := (2 + Z.of_nat (d mod 7))%Z).
    set (a1 := mkApp (core a) (next_pid a + 1)).
    destruct (create_process_table who pages (core a1))
      as (s1 & Hc1 & Hent1 & Hoth & Hmem1 & Hq1 & Hl1).
    unfold mbind at 1, M_bind. rewrite (on_core_Ok _ a1 tt s1 Hc1).
    assert (Hb1 : bookkept s1).
    { destruct Ha as (Hn & Hfree & Hfifo & Hres & Hlru).
      split; [by rewrite Hmem1|]. split; [by rewrite Hmem1|].
      split; [rewrite Hmem1, Hq1; exact Hfifo|]. split.
      - intros q t p f Hq Hp. destruct (decide (q = who)) as [->|Hqw].
        + pose proof (Hent1 p) as Hep. unfold entry in Hep.
          rewrite Hq in Hep. simpl in Hep. rewrite Hp in Hep.
          by repeat case_decide.
        + rewrite Hoth in Hq by done. simpl in Hq.
          by rewrite He, lookup_empty in Hq.
      - intros vpid vp Hin. rewrite Hl1 in Hin. simpl in Hin.
        destruct (Hlru vpid vp Hin) as (t & e & Ht & _).
        by rewrite He, lookup_empty in Ht. }
    assert (Hw1 : is_Some (page_tables (pager s1) !! who)).
    { pose proof (Hent1 0%Z) as Hep. unfold entry in Hep.
      destruct (page_tables (pager s1) !! who); [by eexists|].
      simpl in Hep. case_decide; [done|]. unfold pages in *. lia. }
    destruct (access_loop_bookkept ks rs who (seqZ 0 pages) (mkApp s1 (next_pid a1)) Hb1)
      as (a' & Hloop & Hb' & Hn' & Hpf' & Hq').
    exists a'. split; [exact Hloop|]. split; [done|].
    split; [by apply (is_Some_nonempty _ who), Hq'|].
    rewrite Hn', Hpf'. cbn [core next_pid]. rewrite Hmem1, length_seqZ.
    unfold pages, a1. cbn [core next_pid]. split; lia.
  - assert (Hkeys : (map_to_list (page_tables (pager (core a)))).*1 ≠ []).
    { intros Hnil. apply fmap_nil_inv, map_to_list_empty_iff in Hnil. done. }
    destruct (choice_Ok c1 _ a Hkeys) as (who & Hwho & Hch).
    apply list_elem_of_fmap in Hwho as ([who' pt] & -> & Hin).
    apply elem_of_map_to_list in Hin. cbn [fst] in Hch.
    unfold mbind at 1, M_bind. rewrite Hch.
    unfold mbind at 1, M_bind, get. cbv beta iota. rewrite Hin.
    destruct ((map_to_list pt).*1) as [|p0 pages] eqn:Hpages.
    + exists a. split; [done|]. split; [exact Ha|]. split; [done|].
      split; [done|by left].
    + destruct (choice_Ok c2 (p0 :: pages) a) as (p & _ & Hch2); [done|].
      unfold mbind at 1, M_bind. rewrite Hch2. cbv beta iota.
      destruct (access_page_bookkept (ks p) (rs p) who' p (core a) Ha)
        as (res & s' & Hrun & Hb & Hpf).
      exists (mkApp s' (next_pid a)).
      split; [exact (on_core_then_ret _ a res s' Hrun)|]. cbn [core next_pid].
      split; [exact Hb|]. split.
      { apply (is_Some_nonempty _ who').
        apply (access_page_tables_grow _ _ _ _ _ _ _ who' Hrun). by eexists. }
      split; [done|]. right. rewrite Hpf. lia.
Qed.

(** X17. On an engine whose replacement bookkeeping is sound ([bookkept])
    [sim_step] never raises and leaves the bookkeeping sound and the engine
    with at least one page table. With no page table
    at all it names a new process after the counter, which it advances,
    admits it with between two and eight pages and accesses each of them
    once; otherwise it leaves the counter alone and makes at most one
    access, to a page of an existing table. *)
Theorem sim_step_safe (d c1 c2 : nat) (ks rs : Z → nat) (a : App) :
  bookkept (core a) →
  ∃ a', sim_step d c1 c2 ks rs a = Ok tt a'
    ∧ bookkept (core a')
    ∧ page_tables (pager (core a')) ≠ ∅
    ∧ if decide (page_tables (pager (core a)) = ∅)
      then next_pid a' = S (next_pid a)
           ∧ page_faults (mem (core a'))
             = (page_faults (mem (core a)) + (2 + d mod 7))%nat
      else next_pid a' = next_pid a
           ∧ (page_faults (mem (core a')) = page_faults (mem (core a))
              ∨ page_faults (mem (core a')) = S (page_faults (mem (core a)))).
Proof. exact (sim_step_runs d c1 c2 ks rs a). Qed.

Lemma sim_step_safe_witness :
  let a := mkApp (configured 128 64 "LRU") 1 in
  bookkept (core a)
  ∧ ∃ a', sim_step 4 0 0 (λ _, 0%nat) (λ _, 0%nat) a = Ok tt a'
      ∧ bookkept (core a')
      ∧ page_tables (pager (core a')) ≠ ∅
      ∧ if decide (page_tables (pager (core a)) = ∅)
        then next_pid a' = S (next_pid a)
             ∧ page_faults (mem (core a'))
               = (page_faults (mem (core a)) + (2 + 4 mod 7))%nat
        else next_pid a' = next_pid a
             ∧ (page_faults (mem (core a')) = page_faults (mem (core a))
                ∨ page_faults (mem (core a')) = S (page_faults (mem (core a)))).
Proof.
  intros a.
  assert (H : bookkept (core a)) by (apply bookkept_configured; lia).
  split; [exact H|].
  exact (sim_step_safe 4 0 0 (λ _, 0%nat) (λ _, 0%nat) a H).
Defined.

(** ** Several steps in a row *)

Lemma sim_steps_run (d c1 c2 : nat → nat) (ks rs : nat → Z → nat) (l : list nat) :
  ∀ a, bookkept (core a) → page_tables (pager (core a)) ≠ ∅ →
  ∃ a', for_each l (λ i, sim_step (d i) (c1 i) (c2 i) (ks i) (rs i)) a = Ok tt a'
    ∧ bookkept (core a')
    ∧ page_tables (pager (core a')) ≠ ∅
    ∧ next_pid a' = next_pid a
    ∧ (page_faults (mem (core a)) ≤ page_faults (mem (core a'))
       ≤ page_faults (mem (core a)) + length l)%nat.
Proof.
  induction l as [|i l IH]; intros a Ha Hne.
  - exists a. split; [done|]. split; [done|]. split; [done|]. split; [done|].
    simpl. lia.
  - destruct (sim_step_runs (d i) (c1 i) (c2 i) (ks i) (rs i) a Ha)
      as (a1 & Hrun & Hb1 & Hne1 & Hcase).
    destruct (decide (page_tables (pager (core a)) = ∅)) as [|_]; [done|].
    destruct Hcase as [Hn1 Hpf1].
    destruct (IH a1 Hb1 Hne1) as (a' & Hloop & Hb' & Hne' & Hn' & Hpf').
    exists a'. rewrite for_each_cons, Hrun, Hloop.
    split; [done|]. split; [done|]. split; [done|].
    split; [congruence|]. simpl. lia.
Qed.

(** X18. On an engine whose replacement bookkeeping is sound ([bookkept])
    [on_random_access] never raises, leaves the bookkeeping sound and the
    engine with at least one page table, and creates at most one process: with no page table at the start its first step
    creates one, accessing each of its two to eight pages, and the four
    other steps make at most one access each; otherwise the counter stays
    and at most five accesses are made. *)
Theorem on_random_access_runs
    (d c1 c2 : nat → nat) (ks rs : nat → Z → nat) (a : App) :
  bookkept (core a) →
  ∃ a', on_random_access d c1 c2 ks rs a = Ok tt a'
    ∧ bookkept (core a')
    ∧ page_tables (pager (core a')) ≠ ∅
    ∧ if decide (page_tables (pager (core a)) = ∅)
      then next_pid a' = S (next_pid a)
           ∧ (page_faults (mem (core a)) + (2 + d 0%nat mod 7)
              ≤ page_faults (mem (core a'))
              ≤ page_faults (mem (core a)) + (2 + d 0%nat mod 7) + 4)%nat
      else next_pid a' = next_pid a
           ∧ (page_faults (mem (core a)) ≤ page_faults (mem (core a'))
              ≤ page_faults (mem (core a)) + 5)%nat.
Proof.
  intros Ha. unfold on_random_access.
  destruct (decide (page_tables (pager (core a)) = ∅)) as [He|Hne].
  - change (seq 0 5) with (0%nat :: seq 1 4).
    destruct (sim_step_runs (d 0%nat) (c1 0%nat) (c2 0%nat) (ks 0%nat) (rs 0%nat) a Ha)
      as (a1 & Hrun & Hb1 & Hne1 & Hcase).
    destruct (decide (page_tables (pager (core a)) = ∅)) as [_|]; [|done].
    destruct Hcase as [Hn1 Hpf1].
    destruct (sim_steps_run d c1 c2 ks rs (seq 1 4) a1 Hb1 Hne1)
      as (a' & Hloop & Hb' & Hne' & Hn' & Hpf').
    exists a'. rewrite for_each_cons, Hrun, Hloop.
    split; [done|]. split; [done|]. split; [done|].
    split; [congruence|]. rewrite length_seq in Hpf'. lia.
  - destruct (sim_steps_run d c1 c2 ks rs (seq 0 5) a Ha Hne)
      as (a' & Hloop & Hb' & Hne' & Hn' & Hpf').
    exists a'. split; [done|]. split; [done|]. split; [done|].
    split; [done|]. rewrite length_seq in Hpf'. lia.
Qed.

Lemma on_random_access_runs_witness :
  let a := mkApp (configured 128 64 "LRU") 1 in
  let z := λ _ : nat, 0%nat in
  let zz := λ (_ : nat) (_ : Z), 0%nat in
  bookkept (core a)
  ∧ ∃ a', on_random_access z z z zz zz a = Ok tt a'
      ∧ bookkept (core a')
      ∧ page_tables (pager (core a')) ≠ ∅
      ∧ if decide (page_tables (pager (core a)) = ∅)
        then next_pid a' = S (next_pid a)
             ∧ (page_faults (mem (core a)) + (2 + z 0%nat mod 7)
                ≤ page_faults (mem (core a'))
                ≤ page_faults (mem (core a)) + (2 + z 0%nat mod 7) + 4)%nat
        else next_pid a' = next_pid a
             ∧ (page_faults (mem (core a)) ≤ page_faults (mem (core a'))
                ≤ page_faults (mem (core a)) + 5)%nat.
Proof.
  intros a z zz.
  assert (H : bookkept (core a)) by (apply bookkept_configured; lia).
  split; [exact H|].
  exact (on_random_access_runs z z z zz zz a H).
Defined.

(** ** The snapshot *)

#[local] Instance str_le_total : Total str_le.
Proof. intros x y. apply String.leb_total. Qed.

Lemma elem_of_snap_pids q s :
  q ∈ snap_pids (state_snapshot s)
  ↔ is_Some (pid_to_frames (mem s) !! q) ∨ is_Some (page_tables (pager s) !! q).
Proof.
  unfold state_snapshot, used_and_total, sorted. simpl.
  rewrite merge_sort_Permutation, elem_of_elements, elem_of_union, !elem_of_dom.
  done.
Qed.

(** X19. The snapshot lists each process that has an owner set or a page
    table exactly once, in ascending order, reports the frames as they are
    and in order, and never reports more frames in use than there are. *)
Theorem state_snapshot_lists_processes (s : Sim) :
  Sorted str_le (snap_pids (state_snapshot s))
  ∧ NoDup (snap_pids (state_snapshot s))
  ∧ (∀ q, q ∈ snap_pids (state_snapshot s)
       ↔ is_Some (pid_to_frames (mem s) !! q)
         ∨ is_Some (page_tables (pager s) !! q))
  ∧ snap_frames (state_snapshot s) = frames (mem s)
  ∧ snap_total (state_snapshot s) = length (frames (mem s))
  ∧ (snap_used (state_snapshot s) ≤ snap_total (state_snapshot s))%nat.
Proof.
  split; [apply Sorted_merge_sort, _|]. split.
  { unfold state_snapshot, used_and_total, sorted. simpl.
    rewrite merge_sort_Permutation. apply NoDup_elements. }
  split; [intros q; apply elem_of_snap_pids|].
  unfold state_snapshot, used_and_total. simpl. split; [|split; [done|]].
  - rewrite <- (map_id (frames (mem s))) at 2. apply map_ext. by intros [].
  - apply length_filter.
Qed.

(** X20. After the handler's teardown of a process on a consistent engine
    the snapshot no longer lists it, and lists every other process exactly
    if it was listed before. *)
Theorem snapshot_after_teardown (who : string) (s : Sim) :
  consistent s → who ≠ "" →
  ∃ s', on_deallocate (Some who) s = Ok true s'
    ∧ (who ∉ snap_pids (state_snapshot s'))
    ∧ ∀ q, q ≠ who →
        (q ∈ snap_pids (state_snapshot s') ↔ q ∈ snap_pids (state_snapshot s)).
Proof.
  intros Hs Hwho.
  destruct (on_deallocate_ok who s Hs Hwho) as (s' & Hrun & _ & _ & Ho & Ht).
  exists s'. split; [done|]. split.
  - rewrite elem_of_snap_pids, Ho, Ht, !lookup_delete_eq.
    intros [[? [=]]|[? [=]]].
  - intros q Hq. rewrite !elem_of_snap_pids, Ho, Ht.
    by rewrite !lookup_delete_ne.
Qed.

Lemma snapshot_after_teardown_witness :
  let s := exec [Create "P1" 3; Access 0 0 "P1" 0; Alloc (λ i, i) "P2" 2] SIM_init in
  consistent s ∧ "P1" ≠ ""
  ∧ ∃ s', on_deallocate (Some "P1") s = Ok true s'
      ∧ ("P1" ∉ snap_pids (state_snapshot s'))
      ∧ ∀ q, q ≠ "P1" →
          (q ∈ snap_pids (state_snapshot s') ↔ q ∈ snap_pids (state_snapshot s)).
Proof.
  intros s.
  assert (Hc : consistent s).
  { apply reachable_consistent, reachable_exec; [apply reachable_init | by vm_compute]. }
  assert (Hne : "P1" ≠ "") by done.
  split; [exact Hc|]. split; [exact Hne|].
  exact (snapshot_after_teardown "P1" s Hc Hne).
Defined.
